(** * LUT weight optimizer: bucket optimizer, mode analyzer, file watcher

    A shallow embedding of
      - backend/internal/optimizer/bucket_optimizer.go,
      - backend/internal/optimizer/mode_analyzer.go (analyzer and HTTP knobs),
      - backend/internal/watcher/watcher.go,
    followed by the properties the specification states about them.

    Numbers.  Go's [float64] is kept abstract behind the interface
    [Float64Ops]; every function of the optimizer is written once against
    that interface.  Two instances are given: [binary64], IEEE-754 double
    precision on Rocq's primitive floats (what the Go program computes, and
    what the concrete runs below evaluate), and [exact], the real numbers
    (the arithmetic the specification's formulas are written in).
    [uint64] values are integers in [Z]; sums of them wrap modulo 2^64.
    A run-time panic (index out of range, nil dereference) is [None]. *)

From Stdlib Require Import ZArith List Bool Lia Floats Reals Lra.
From stdpp Require Import base option list gmap strings.
Import ListNotations.

Local Open Scope Z_scope.

(** ** The float64 interface *)

Class Float64Ops (F : Type) : Type := {
  of_int : Z -> F;              (* float64(i), i an int or a uint64 *)
  to_uint64 : F -> Z;           (* uint64(x) *)
  fadd : F -> F -> F;
  fsub : F -> F -> F;
  fmul : F -> F -> F;
  fdiv : F -> F -> F;
  fltb : F -> F -> bool;        (* x < y *)
  fleb : F -> F -> bool;        (* x <= y *)
  feqb : F -> F -> bool;        (* x == y *)
  fneg : F -> F;                (* -x *)
  fabs : F -> F;                (* math.Abs *)
  fmin : F -> F -> F;           (* math.Min *)
  fsqrt : F -> F;               (* math.Sqrt *)
  fround : F -> F;              (* math.Round *)
  fpow : F -> F -> F;           (* math.Pow *)
  MaxFloat64 : F                (* math.MaxFloat64 *)
}.

(** A decimal literal [m / 10^k] of the source, e.g. [0.95] is [flit 95 2]:
    numerator and denominator are exact, so one division rounds it the way
    the compiler rounds the literal. *)
Definition flit {F} `{Float64Ops F} (m : Z) (k : nat) : F :=
  fdiv (of_int m) (of_int (10 ^ Z.of_nat k)).

Definition uint64_add (a b : Z) : Z := (a + b) mod 2 ^ 64.

(** *** IEEE-754 binary64 *)

Definition b64_of_int (z : Z) : float :=
  SF2Prim (binary_normalize prec emax z 0 false).

(** The integer part of a finite float (truncation toward zero). *)
Definition b64_trunc (x : float) : option Z :=
  match Prim2SF x with
  | S754_zero _ => Some 0
  | S754_finite s m e =>
      let a := if 0 <=? e then Z.pos m * 2 ^ e else Z.pos m / 2 ^ (- e) in
      Some (if s then - a else a)
  | _ => None
  end.

(** [uint64(x)]: truncation.  Go leaves the result implementation-defined
    when the truncated value is not a uint64 (negative, too large, NaN,
    infinite); the model returns 2^63 there. *)
Definition b64_to_uint64 (x : float) : Z :=
  match b64_trunc x with
  | Some z => if (0 <=? z) && (z <? 2 ^ 64) then z else 2 ^ 63
  | None => 2 ^ 63
  end.

(** [math.Round]: nearest integer, halves away from zero; the sign of a
    result 0 is the argument's. *)
Definition b64_round (x : float) : float :=
  match Prim2SF x with
  | S754_finite s m e =>
      if 0 <=? e then x
      else
        let q := (Z.pos m + 2 ^ (- e - 1)) / 2 ^ (- e) in
        if s then PrimFloat.opp (b64_of_int q) else b64_of_int q
  | _ => x
  end.

(** [math.Min], with its special cases for -Inf, NaN and signed zeros. *)
Definition b64_min (x y : float) : float :=
  if PrimFloat.eqb x neg_infinity || PrimFloat.eqb y neg_infinity then neg_infinity
  else if is_nan x || is_nan y then nan
  else if PrimFloat.eqb x zero && PrimFloat.eqb x y then
    (if get_sign x then x else y)
  else if PrimFloat.ltb x y then x else y.

Definition b64_MaxFloat64 : float := 0x1.fffffffffffffp+1023%float.

(** [math.Pow] is a library routine with no closed form over binary64; the
    instance takes it as a parameter. *)
Definition binary64 (pow : float -> float -> float) : Float64Ops float := {|
  of_int := b64_of_int;
  to_uint64 := b64_to_uint64;
  fadd := PrimFloat.add;
  fsub := PrimFloat.sub;
  fmul := PrimFloat.mul;
  fdiv := PrimFloat.div;
  fltb := PrimFloat.ltb;
  fleb := PrimFloat.leb;
  feqb := PrimFloat.eqb;
  fneg := PrimFloat.opp;
  fabs := PrimFloat.abs;
  fmin := b64_min;
  fsqrt := PrimFloat.sqrt;
  fround := b64_round;
  fpow := pow;
  MaxFloat64 := b64_MaxFloat64
|}.

(** The exponents [math.Pow] decides without approximation: x^0 = 1,
    x^1 = x, x^-1 = 1/x; NaN stands for the cases left out. *)
Definition pow_special (x y : float) : float :=
  if PrimFloat.eqb y zero || PrimFloat.eqb x one then one
  else if PrimFloat.eqb y one then x
  else if PrimFloat.eqb y (-1)%float then PrimFloat.div one x
  else nan.

(** binary64 as the concrete runs below use it. *)
Definition b64 : Float64Ops float := binary64 pow_special.

(** *** Exact real arithmetic *)

Definition R_ltb (x y : R) : bool := if Rlt_dec x y then true else false.
Definition R_leb (x y : R) : bool := if Rle_dec x y then true else false.
Definition R_eqb (x y : R) : bool := if Req_dec_T x y then true else false.

Definition R_trunc (x : R) : Z :=
  if Rlt_dec x 0 then - Int_part (- x) else Int_part x.

Definition R_to_uint64 (x : R) : Z :=
  let z := R_trunc x in
  if (0 <=? z) && (z <? 2 ^ 64) then z else 2 ^ 63.

Definition R_round (x : R) : R :=
  if Rlt_dec x 0 then (- IZR (Int_part (- x + / 2)))%R
  else IZR (Int_part (x + / 2)).

#[export] Instance exact : Float64Ops R := {
  of_int := IZR;
  to_uint64 := R_to_uint64;
  fadd := Rplus;
  fsub := Rminus;
  fmul := Rmult;
  fdiv := Rdiv;
  fltb := R_ltb;
  fleb := R_leb;
  feqb := R_eqb;
  fneg := Ropp;
  fabs := Rabs;
  fmin := Rmin;
  fsqrt := sqrt;
  fround := R_round;
  fpow := Rpower;
  MaxFloat64 := ((2 - / IZR (2 ^ 52)) * IZR (2 ^ 1023))%R
}.

(** ** Go idioms *)

(** [l[i] = x]: an index out of range panics. *)
Definition store {A} (l : list A) (i : nat) (x : A) : option (list A) :=
  if decide (i < length l)%nat then Some (<[i := x]> l) else None.

(** A [for ... range] loop whose body may panic. *)
Fixpoint foldM {A S} (f : S -> A -> option S) (l : list A) (s : S) : option S :=
  match l with
  | [] => Some s
  | a :: l' => match f s a with Some s' => foldM f l' s' | None => None end
  end.

(** [for i, x := range l]. *)
Definition enumerate {A} (l : list A) : list (nat * A) :=
  combine (seq 0 (length l)) l.

(** What a Go function with an [error] result returns. *)
Inductive returned (A : Type) : Type :=
  | Ok (a : A)
  | Err (msg : string).
Arguments Ok {A} a.
Arguments Err {A} msg.

(** ** Data model *)

(** Modelled from the spec: [stakergs.LookupTable] and its outcome rows are
    declared outside the repository's files; the spec gives an outcome as
    [{sim_id: int, payout: int (hundredths of bet), weight: uint64}] and a
    table as [{cost: float64, outcomes}]. *)
Record Outcome : Type := {
  SimID : Z;
  Payout : Z;
  Weight : Z
}.

Record LookupTable (F : Type) : Type := {
  Cost : F;
  Outcomes : list Outcome
}.
Arguments Cost {F} _.
Arguments Outcomes {F} _.

Definition ConstraintFrequency : string := "frequency".
Definition ConstraintRTPPercent : string := "rtp_percent".
Definition ConstraintAuto : string := "auto".
Definition ConstraintMaxWinFreq : string := "max_win_freq".
Definition ConstraintOutcomeFreq : string := "outcome_freq".

Record BucketConfig (F : Type) : Type := {
  Name : string;
  MinPayout : F;
  MaxPayout : F;
  Type_ : string;
  Frequency : F;
  RTPPercent : F;
  AutoExponent : F;
  MaxWinFrequency : F;
  Priority : Z;
  IsMaxWinBucket : bool
}.
Arguments Name {F} _.
Arguments MinPayout {F} _.
Arguments MaxPayout {F} _.
Arguments Type_ {F} _.
Arguments Frequency {F} _.
Arguments RTPPercent {F} _.
Arguments AutoExponent {F} _.
Arguments MaxWinFrequency {F} _.
Arguments Priority {F} _.
Arguments IsMaxWinBucket {F} _.

Record BucketOptimizerConfig (F : Type) : Type := {
  TargetRTP : F;
  RTPTolerance : F;
  Buckets : list (BucketConfig F);
  MinWeight : Z;
  EnableVoiding : bool;
  VoidedBucketIndices : list Z;
  EnableAutoVoiding : bool
}.
Arguments TargetRTP {F} _.
Arguments RTPTolerance {F} _.
Arguments Buckets {F} _.
Arguments MinWeight {F} _.
Arguments EnableVoiding {F} _.
Arguments VoidedBucketIndices {F} _.
Arguments EnableAutoVoiding {F} _.

Record VoidedBucketInfo (F : Type) : Type := {
  vbIndex : nat;
  vbName : string;
  vbOutcomeCount : nat;
  vbRtpContribution : F
}.

Record VoidedOutcomeInfo (F : Type) : Type := {
  voSimID : Z;
  voPayout : F;
  Reason : string;
  RTPLoss : F
}.
Arguments voSimID {F} _.
Arguments voPayout {F} _.
Arguments Reason {F} _.
Arguments RTPLoss {F} _.

(** The warnings of a run, by kind and payload (the source formats each
    into a string). *)
Inductive Warning (F : Type) : Type :=
  | WarnConstraintsExceedTarget (usedRTP target : F)
  | WarnAboveTarget (finalRTP diff : F)
  | WarnBelowTarget (finalRTP diff : F)
  | WarnVoidedBuckets (count : nat) (names : list string)
  | WarnAutoVoided (count : nat) (rtp : F).

(** [BucketOptimizerResult], without its read-only reports
    ([bucket_results], [loss_result], [outcome_details]), which are computed
    from the weights and never feed back into them. *)
Record BucketOptimizerResult (F : Type) : Type := {
  OriginalRTP : F;
  FinalRTP : F;
  resTargetRTP : F;
  Converged : bool;
  NewWeights : list Z;
  TotalWeight : Z;
  Warnings : list (Warning F);
  VoidedBuckets : list (VoidedBucketInfo F);
  VoidedOutcomes : list (VoidedOutcomeInfo F);
  TotalVoided : nat;
  VoidedRTP : F
}.
Arguments OriginalRTP {F} _.
Arguments FinalRTP {F} _.
Arguments resTargetRTP {F} _.
Arguments Converged {F} _.
Arguments NewWeights {F} _.
Arguments TotalWeight {F} _.
Arguments Warnings {F} _.
Arguments VoidedBuckets {F} _.
Arguments VoidedOutcomes {F} _.
Arguments TotalVoided {F} _.
Arguments VoidedRTP {F} _.

Record bucketAssignment (F : Type) : Type := {
  config : BucketConfig F;
  outcomeIndices : list nat;
  payouts : list F;
  targetProb : F;
  outcomeProbs : list F;
  avgPayout : F;
  rtpContribution : F;
  isAuto : bool;
  isVoided : bool
}.
Arguments config {F} _.
Arguments outcomeIndices {F} _.
Arguments payouts {F} _.
Arguments targetProb {F} _.
Arguments outcomeProbs {F} _.
Arguments avgPayout {F} _.
Arguments rtpContribution {F} _.
Arguments isAuto {F} _.
Arguments isVoided {F} _.

Record payoutGroup (F : Type) : Type := {
  payout : F;
  indices : list nat;
  simIDs : list Z;
  rtpPerOutcome : F
}.
Arguments payout {F} _.
Arguments indices {F} _.
Arguments simIDs {F} _.
Arguments rtpPerOutcome {F} _.

(** The three accumulators of the two voiding loops. *)
Record voidState (F : Type) : Type := {
  voidedIndices : list nat;
  voidedOutcomes : list (VoidedOutcomeInfo F);
  removedRTP : F
}.
Arguments voidedIndices {F} _.
Arguments voidedOutcomes {F} _.
Arguments removedRTP {F} _.

(** ** Auto-voiding *)

Section AutoVoiding.
Context {F : Type} `{Float64Ops F}.

Definition fzero : F := of_int 0.

(** [payoutMap[p]]: Go compares float keys with [==]. *)
Fixpoint payoutMap_get (m : list (payoutGroup F)) (p : F) : option (payoutGroup F) :=
  match m with
  | [] => None
  | g :: m' => if feqb (payout g) p then Some g else payoutMap_get m' p
  end.

(** The body of the grouping loop for one winning outcome: append to the
    group of [p], or open a new group. *)
Fixpoint payoutMap_add (m : list (payoutGroup F)) (p : F) (i : nat) (sim : Z)
  : list (payoutGroup F) :=
  match m with
  | [] => [ {| payout := p; indices := [i]; simIDs := [sim]; rtpPerOutcome := fzero |} ]
  | g :: m' =>
      if feqb (payout g) p then
        {| payout := payout g; indices := indices g ++ [i];
           simIDs := simIDs g ++ [sim]; rtpPerOutcome := rtpPerOutcome g |} :: m'
      else g :: payoutMap_add m' p i sim
  end.

Definition groupByPayout (pays : list F) (sims : list Z) : option (list (payoutGroup F)) :=
  foldM (fun m '(i, p) =>
           if fleb p fzero then Some m
           else match sims !! i with
                | Some sim => Some (payoutMap_add m p i sim)
                | None => None
                end)
        (enumerate pays) [].

Definition setRtpPerOutcome (n : nat) (g : payoutGroup F) : payoutGroup F :=
  {| payout := payout g; indices := indices g; simIDs := simIDs g;
     rtpPerOutcome := fdiv (payout g) (of_int (Z.of_nat n)) |}.

(** [sort.Slice] with [less = sortedPayouts[i] > sortedPayouts[j]]; the keys
    of a map are pairwise different, so the order of equal elements and
    the map's iteration order do not show. *)
Fixpoint insertDescending (x : F) (l : list F) : list F :=
  match l with
  | [] => [x]
  | y :: l' => if fltb y x then x :: l else y :: insertDescending x l'
  end.

Definition sortDescending (l : list F) : list F := foldr insertDescending [] l.

Definition voidOne (st : voidState F) (idx : nat) (sim : Z) (reason : string)
    (g : payoutGroup F) : voidState F :=
  {| voidedIndices := voidedIndices st ++ [idx];
     voidedOutcomes := voidedOutcomes st ++
       [ {| voSimID := sim; voPayout := payout g; Reason := reason;
            RTPLoss := rtpPerOutcome g |} ];
     removedRTP := fadd (removedRTP st) (rtpPerOutcome g) |}.

(** Phase 1, inner loop: [for i := 1; i < len(group.indices); i++]. *)
Fixpoint voidDuplicates (g : payoutGroup F) (members : list (nat * Z))
    (rtpToRemove : F) (st : voidState F) : voidState F :=
  match members with
  | [] => st
  | (idx, sim) :: rest =>
      if fleb rtpToRemove (removedRTP st) then st
      else voidDuplicates g rest rtpToRemove (voidOne st idx sim "duplicate" g)
  end.

(** Phase 1: void duplicate payouts, keeping the first of each group. *)
Fixpoint voidPhase1 (payoutMap : list (payoutGroup F)) (sortedPayouts : list F)
    (rtpToRemove : F) (st : voidState F) : option (voidState F) :=
  match sortedPayouts with
  | [] => Some st
  | p :: rest =>
      if fleb rtpToRemove (removedRTP st) then Some st
      else match payoutMap_get payoutMap p with
           | None => None
           | Some g =>
               let st' :=
                 if (1 <? length (indices g))%nat then
                   voidDuplicates g (drop 1 (combine (indices g) (simIDs g))) rtpToRemove st
                 else st in
               voidPhase1 payoutMap rest rtpToRemove st'
           end
  end.

Definition memIndex (l : list nat) (idx : nat) : bool :=
  existsb (Nat.eqb idx) l.

(** How many voided indices belong to the group. *)
Definition alreadyVoided (voided : list nat) (g : payoutGroup F) : nat :=
  length (List.filter (memIndex (indices g)) voided).

(** Phase 2, inner loop: the first member not voided yet. *)
Fixpoint firstNotVoided (voided : list nat) (members : list (nat * Z)) : option (nat * Z) :=
  match members with
  | [] => None
  | (idx, sim) :: rest =>
      if memIndex voided idx then firstNotVoided voided rest else Some (idx, sim)
  end.

(** Phase 2: void one more outcome per payout, highest payout first. *)
Fixpoint voidPhase2 (payoutMap : list (payoutGroup F)) (sortedPayouts : list F)
    (rtpToRemove : F) (st : voidState F) : option (voidState F) :=
  match sortedPayouts with
  | [] => Some st
  | p :: rest =>
      if fleb rtpToRemove (removedRTP st) then Some st
      else match payoutMap_get payoutMap p with
           | None => None
           | Some g =>
               let st' :=
                 if (alreadyVoided (voidedIndices st) g <? length (indices g))%nat then
                   match firstNotVoided (voidedIndices st) (combine (indices g) (simIDs g)) with
                   | Some (idx, sim) => voidOne st idx sim "high_payout" g
                   | None => st
                   end
                 else st in
               voidPhase2 payoutMap rest rtpToRemove st'
           end
  end.

Definition noVoids : voidState F :=
  {| voidedIndices := []; voidedOutcomes := []; removedRTP := fzero |}.

(** What both phases share: the deficit, the groups and the sorted keys. *)
Definition voidingPlan (pays : list F) (sims : list Z) (targetRTP currentMinRTP : F)
  : option (F * list (payoutGroup F) * list F) :=
  match groupByPayout pays sims with
  | None => None
  | Some m =>
      let m' := map (setRtpPerOutcome (length pays)) m in
      Some (fsub currentMinRTP targetRTP, m', sortDescending (map payout m'))
  end.

Definition autoSelectOutcomesToVoid (pays : list F) (sims : list Z)
    (targetRTP currentMinRTP : F) : option (list nat * list (VoidedOutcomeInfo F)) :=
  if fleb currentMinRTP targetRTP then Some ([], [])
  else if (length pays =? 0)%nat then Some ([], [])
  else
    match voidingPlan pays sims targetRTP currentMinRTP with
    | None => None
    | Some (rtpToRemove, payoutMap, sortedPayouts) =>
        match voidPhase1 payoutMap sortedPayouts rtpToRemove noVoids with
        | None => None
        | Some st1 =>
            match voidPhase2 payoutMap sortedPayouts rtpToRemove st1 with
            | None => None
            | Some st2 => Some (voidedIndices st2, voidedOutcomes st2)
            end
        end
    end.

Definition calculateMinAchievableRTP (pays : list F) : F :=
  if (length pays =? 0)%nat then fzero
  else fdiv (fold_left fadd pays fzero) (of_int (Z.of_nat (length pays))).

Definition tableCost (table : LookupTable F) : F :=
  if fleb (Cost table) fzero then of_int 1 else Cost table.

(** [payouts[i] = float64(outcome.Payout) / 100.0 / cost]. *)
Definition normalizedPayouts (table : LookupTable F) : list F :=
  map (fun o => fdiv (fdiv (of_int (Payout o)) (of_int 100)) (tableCost table))
      (Outcomes table).

End AutoVoiding.

(** ** The bucket optimizer *)

Section Optimizer.
Context {F : Type} `{Float64Ops F}.

(** [common.BaseWeight], the scale of the integer weights, and the helper
    [calculateRTPFromWeights] are declared outside the repository's
    files: both are parameters of the optimizer. *)
Variable BaseWeight : Z.
Variable calculateRTPFromWeights : list Z -> list F -> F.

(** Modelled from the spec: [sumUint64] is declared outside the
    repository's files; "total weight = sum of outcome weights". *)
Definition sumUint64 (ws : list Z) : Z := fold_left uint64_add ws 0.

(** Modelled from the spec: [calculateRTPFromWeights] is declared outside
    the repository's files; "RTP = Σ(weight_i * normalized_payout_i) /
    Σ(weight_i)".  The concrete runs pass it for the parameter above. *)
Definition rtpFromWeights (ws : list Z) (pays : list F) : F :=
  fdiv (fold_left (fun acc '(w, p) => fadd acc (fmul (of_int w) p)) (combine ws pays) fzero)
       (of_int (sumUint64 ws)).

Definition DefaultBucketConfig : BucketOptimizerConfig F :=
  let bucket name lo hi ty freq pct :=
    {| Name := name; MinPayout := of_int lo; MaxPayout := of_int hi; Type_ := ty;
       Frequency := freq; RTPPercent := pct; AutoExponent := fzero;
       MaxWinFrequency := fzero; Priority := 0; IsMaxWinBucket := false |} in
  {| TargetRTP := flit 97 2;
     RTPTolerance := flit 1 3;
     Buckets :=
       [ bucket "sub_1x" 0 1 ConstraintFrequency (of_int 3) fzero;
         bucket "small" 1 5 ConstraintFrequency (of_int 5) fzero;
         bucket "medium" 5 20 ConstraintFrequency (of_int 25) fzero;
         bucket "large" 20 100 ConstraintFrequency (of_int 100) fzero;
         bucket "huge" 100 1000 ConstraintRTPPercent fzero (of_int 5);
         bucket "jackpot" 1000 100000 ConstraintRTPPercent fzero (flit 5 1) ];
     MinWeight := 1;
     EnableVoiding := false;
     VoidedBucketIndices := [];
     EnableAutoVoiding := false |}.

(** [NewBucketOptimizer]: the optimizer is its normalized configuration
    ([None] is Go's nil). *)
Definition NewBucketOptimizer (config : option (BucketOptimizerConfig F))
  : BucketOptimizerConfig F :=
  let c := match config with Some c => c | None => DefaultBucketConfig end in
  {| TargetRTP := TargetRTP c;
     RTPTolerance := if fleb (RTPTolerance c) fzero then flit 1 3 else RTPTolerance c;
     Buckets := Buckets c;
     MinWeight := if MinWeight c <? 1 then 1 else MinWeight c;
     EnableVoiding := EnableVoiding c;
     VoidedBucketIndices := VoidedBucketIndices c;
     EnableAutoVoiding := EnableAutoVoiding c |}.

(** *** assignOutcomesToBuckets *)

Definition emptyAssignment (b : BucketConfig F) : bucketAssignment F :=
  {| config := b; outcomeIndices := []; payouts := []; targetProb := fzero;
     outcomeProbs := []; avgPayout := fzero; rtpContribution := fzero;
     isAuto := false; isVoided := false |}.

(** Whether [p] falls in bucket [j] of [nb]: the last bucket includes its
    upper end.  The two searches below read nothing of an assignment but
    its [config], so they run over the configurations. *)
Definition inRange (nb j : nat) (c : BucketConfig F) (p : F) : bool :=
  fleb (MinPayout c) p &&
  (if Z.of_nat j <? Z.of_nat nb - 1
   then fltb p (MaxPayout c)
   else fleb p (MaxPayout c)).

Fixpoint firstInRange (nb : nat) (js : list (nat * BucketConfig F)) (p : F)
  : option nat :=
  match js with
  | [] => None
  | (j, c) :: rest => if inRange nb j c p then Some j else firstInRange nb rest p
  end.

Definition bucketDistance (c : BucketConfig F) (p : F) : F :=
  fmin (fabs (fsub p (MinPayout c))) (fabs (fsub p (MaxPayout c))).

Definition closerBucket (p : F) (best : nat * F) (jc : nat * BucketConfig F)
  : nat * F :=
  let dist := bucketDistance (snd jc) p in
  if fltb dist (snd best) then (fst jc, dist) else best.

(** The fallback search: [closestIdx] after the loop. *)
Definition closestBucket (cs : list (BucketConfig F)) (p : F) : nat :=
  fst (fold_left (closerBucket p) (enumerate cs) (0%nat, MaxFloat64)).

Definition appendOutcome (b : bucketAssignment F) (i : nat) (p : F) : bucketAssignment F :=
  {| config := config b; outcomeIndices := outcomeIndices b ++ [i];
     payouts := payouts b ++ [p]; targetProb := targetProb b;
     outcomeProbs := outcomeProbs b; avgPayout := avgPayout b;
     rtpContribution := rtpContribution b; isAuto := isAuto b;
     isVoided := isVoided b |}.

(** [assignments[j].outcomeIndices = append(..., i)], and the same for the
    payouts. *)
Definition assignTo (asg : list (bucketAssignment F)) (j i : nat) (p : F)
  : option (list (bucketAssignment F)) :=
  match asg !! j with
  | Some b => Some (<[j := appendOutcome b i p]> asg)
  | None => None
  end.

(** The bucket an outcome paying [p] goes to: the first one in range, or
    the closest. *)
Definition targetBucket (cs : list (BucketConfig F)) (p : F) : nat :=
  match firstInRange (length cs) (enumerate cs) p with
  | Some j => j
  | None => closestBucket cs p
  end.

Definition assignOutcome (st : list (bucketAssignment F) * list nat) (ip : nat * F)
  : option (list (bucketAssignment F) * list nat) :=
  if fleb (snd ip) fzero then Some (fst st, snd st ++ [fst ip])
  else match assignTo (fst st) (targetBucket (map config (fst st)) (snd ip))
                      (fst ip) (snd ip) with
       | Some asg' => Some (asg', snd st)
       | None => None
       end.

Definition setAvgPayout (b : bucketAssignment F) : bucketAssignment F :=
  if (0 <? length (payouts b))%nat then
    {| config := config b; outcomeIndices := outcomeIndices b; payouts := payouts b;
       targetProb := targetProb b; outcomeProbs := outcomeProbs b;
       avgPayout := fdiv (fold_left fadd (payouts b) fzero)
                         (of_int (Z.of_nat (length (payouts b))));
       rtpContribution := rtpContribution b; isAuto := isAuto b;
       isVoided := isVoided b |}
  else b.

(** The assignments and the loss indices (the warnings the source also
    returns are always empty). *)
Definition assignOutcomesToBuckets (cfg : BucketOptimizerConfig F) (pays : list F)
  : option (list (bucketAssignment F) * list nat) :=
  match foldM assignOutcome (enumerate pays) (map emptyAssignment (Buckets cfg), []) with
  | Some (asg, lossIndices) => Some (map setAvgPayout asg, lossIndices)
  | None => None
  end.

(** *** calculateTargetProbabilities *)

Definition withTarget (b : bucketAssignment F) (prob rtp : F) : bucketAssignment F :=
  {| config := config b; outcomeIndices := outcomeIndices b; payouts := payouts b;
     targetProb := prob; outcomeProbs := outcomeProbs b; avgPayout := avgPayout b;
     rtpContribution := rtp; isAuto := isAuto b; isVoided := isVoided b |}.

Definition markAuto (b : bucketAssignment F) : bucketAssignment F :=
  {| config := config b; outcomeIndices := outcomeIndices b; payouts := payouts b;
     targetProb := targetProb b; outcomeProbs := outcomeProbs b;
     avgPayout := avgPayout b; rtpContribution := rtpContribution b;
     isAuto := true; isVoided := isVoided b |}.

(** First pass, one bucket: the updated bucket and [usedRTP]. *)
Definition firstPassBucket (cfg : BucketOptimizerConfig F) (b : bucketAssignment F)
    (usedRTP : F) : bucketAssignment F * F :=
  if (length (outcomeIndices b) =? 0)%nat then (b, usedRTP)
  else if String.eqb (Type_ (config b)) ConstraintFrequency then
    let prob := if fltb fzero (Frequency (config b))
                then fdiv (of_int 1) (Frequency (config b)) else targetProb b in
    let rtp := fmul prob (avgPayout b) in
    (withTarget b prob rtp, fadd usedRTP rtp)
  else if String.eqb (Type_ (config b)) ConstraintRTPPercent then
    if fltb fzero (avgPayout b) && fltb fzero (RTPPercent (config b)) then
      let rtp := fmul (fdiv (RTPPercent (config b)) (of_int 100)) (TargetRTP cfg) in
      (withTarget b (fdiv rtp (avgPayout b)) rtp, fadd usedRTP rtp)
    else (b, usedRTP)
  else if String.eqb (Type_ (config b)) ConstraintAuto then (markAuto b, usedRTP)
  else (b, usedRTP).

Fixpoint firstPass (cfg : BucketOptimizerConfig F) (bs : list (bucketAssignment F))
    (usedRTP : F) : list (bucketAssignment F) * F :=
  match bs with
  | [] => ([], usedRTP)
  | b :: rest =>
      let r := firstPassBucket cfg b usedRTP in
      let rs := firstPass cfg rest (snd r) in
      (fst r :: fst rs, snd rs)
  end.

Definition remainingRTPOf (cfg : BucketOptimizerConfig F) (usedRTP : F) : F :=
  let r := fsub (TargetRTP cfg) usedRTP in
  if fltb r fzero then fzero else r.

(** [exp := bucket.config.AutoExponent; if exp <= 0 { exp = 1.0 }]. *)
Definition autoExponent (b : bucketAssignment F) : F :=
  if fleb (AutoExponent (config b)) fzero then of_int 1 else AutoExponent (config b).

(** The buckets listed in [autoBucketIndices]. *)
Definition isActiveAuto (b : bucketAssignment F) : bool :=
  isAuto b && (0 <? length (outcomeIndices b))%nat.

Definition addPayout1MinusExp (exp : F) (acc p : F) : F :=
  if fltb fzero p then fadd acc (fpow p (fsub (of_int 1) exp)) else acc.

Definition sumPayout1MinusExp (bs : list (bucketAssignment F)) : F :=
  fold_left (fun acc b =>
               if isActiveAuto b
               then fold_left (addPayout1MinusExp (autoExponent b)) (payouts b) acc
               else acc)
            bs fzero.

(** [prob] of one outcome of an auto bucket; [outcomeProbs[j]] stays 0 when
    the guard fails. *)
Definition autoProb (remainingRTP sum exp p : F) : F :=
  if fltb fzero p && fltb fzero sum
  then fdiv (fmul remainingRTP (fpow p (fneg exp))) sum
  else fzero.

Definition distributeAuto (remainingRTP sum : F) (b : bucketAssignment F)
  : bucketAssignment F :=
  let exp := autoExponent b in
  let guard p := fltb fzero p && fltb fzero sum in
  {| config := config b; outcomeIndices := outcomeIndices b; payouts := payouts b;
     targetProb :=
       fold_left (fun acc p => if guard p then fadd acc (autoProb remainingRTP sum exp p)
                               else acc) (payouts b) fzero;
     outcomeProbs := map (autoProb remainingRTP sum exp) (payouts b);
     avgPayout := avgPayout b;
     rtpContribution :=
       fold_left (fun acc p => if guard p
                               then fadd acc (fmul (autoProb remainingRTP sum exp p) p)
                               else acc) (payouts b) fzero;
     isAuto := isAuto b; isVoided := isVoided b |}.

(** The assignments after both passes (the source updates them in place)
    and the warnings. *)
Definition calculateTargetProbabilities (cfg : BucketOptimizerConfig F)
    (asg : list (bucketAssignment F)) : list (bucketAssignment F) * list (Warning F) :=
  let p1 := firstPass cfg asg fzero in
  let usedRTP := snd p1 in
  let remainingRTP := remainingRTPOf cfg usedRTP in
  let warnings :=
    if fltb (TargetRTP cfg) usedRTP
    then [WarnConstraintsExceedTarget F usedRTP (TargetRTP cfg)] else [] in
  if existsb isActiveAuto (fst p1) && fltb fzero remainingRTP then
    let sum := sumPayout1MinusExp (fst p1) in
    (map (fun b => if isActiveAuto b then distributeAuto remainingRTP sum b else b)
         (fst p1), warnings)
  else (fst p1, warnings).

(** *** calculateWeightsWithVoiding *)

Definition clampMin (minWeight w : Z) : Z :=
  if w <? minWeight then minWeight else w.

(** [voidedSet[idx]]. *)
Definition inVoidedSet (voidedOutcomeIndices : list nat) (idx : nat) : bool :=
  bool_decide (idx ∈ (list_to_set voidedOutcomeIndices : gset nat)).

(** An auto bucket: one weight per outcome from its own probability. *)
Definition materializeAuto (cfg : BucketOptimizerConfig F) (voided : list nat)
    (b : bucketAssignment F) (weights : list Z) : option (list Z) :=
  foldM (fun ws '(idx, prob) =>
           if inVoidedSet voided idx then store ws idx 0
           else store ws idx
                  (clampMin (MinWeight cfg) (to_uint64 (fmul prob (of_int BaseWeight)))))
        (combine (outcomeIndices b) (outcomeProbs b)) weights.

(** Any other bucket: its weight split evenly over the outcomes that are
    not voided. *)
Definition materializeEven (cfg : BucketOptimizerConfig F) (voided : list nat)
    (b : bucketAssignment F) (weights : list Z) : option (list Z) :=
  let nonVoidedCount :=
    length (List.filter (fun idx => negb (inVoidedSet voided idx)) (outcomeIndices b)) in
  if (0 <? nonVoidedCount)%nat then
    let bucketTotalWeight := to_uint64 (fmul (targetProb b) (of_int BaseWeight)) in
    let weightPerOutcome :=
      clampMin (MinWeight cfg) (bucketTotalWeight / Z.of_nat nonVoidedCount) in
    foldM (fun ws idx =>
             if inVoidedSet voided idx then store ws idx 0
             else store ws idx weightPerOutcome)
          (outcomeIndices b) weights
  else Some weights.

Definition materializeBucket (cfg : BucketOptimizerConfig F) (voided : list nat)
    (weights : list Z) (b : bucketAssignment F) : option (list Z) :=
  if (length (outcomeIndices b) =? 0)%nat || isVoided b then Some weights
  else if isAuto b && (length (outcomeProbs b) =? length (outcomeIndices b))%nat
  then materializeAuto cfg voided b weights
  else materializeEven cfg voided b weights.

(** The weights of the winning outcomes: the loop over the buckets, then
    "set voided outcomes to weight 0". *)
Definition winWeights (cfg : BucketOptimizerConfig F) (pays : list F)
    (asg : list (bucketAssignment F)) (voided : list nat) : option (list Z) :=
  match foldM (materializeBucket cfg voided) asg (replicate (length pays) 0) with
  | Some ws => foldM (fun ws idx => store ws idx 0) voided ws
  | None => None
  end.

Definition weightedPayoutSum (pays : list F) (weights : list Z) : F :=
  fold_left (fun acc '(w, p) =>
               if fltb fzero p && (0 <? w) then fadd acc (fmul (of_int w) p) else acc)
            (combine weights pays) fzero.

Definition totalWinWeight (pays : list F) (weights : list Z) : Z :=
  fold_left (fun acc '(w, p) =>
               if fltb fzero p && (0 <? w) then uint64_add acc w else acc)
            (combine weights pays) 0.

Definition requiredLossWeight (cfg : BucketOptimizerConfig F) (pays : list F)
    (weights : list Z) : F :=
  let r := fsub (fdiv (weightedPayoutSum pays weights) (TargetRTP cfg))
                (of_int (totalWinWeight pays weights)) in
  if fltb r (of_int (MinWeight cfg)) then of_int (MinWeight cfg) else r.

Definition lossWeightPerOutcome (cfg : BucketOptimizerConfig F) (required : F)
    (nloss : nat) : Z :=
  clampMin (MinWeight cfg)
           (to_uint64 (fround (fdiv required (of_int (Z.of_nat nloss))))).

Definition writeLossWeights (lossIndices : list nat) (w : Z) (weights : list Z)
  : option (list Z) :=
  foldM (fun ws idx => store ws idx w) lossIndices weights.

(** The weight vector (the bucket and loss reports are left out). *)
Definition calculateWeightsWithVoiding (cfg : BucketOptimizerConfig F) (pays : list F)
    (asg : list (bucketAssignment F)) (lossIndices voidedOutcomeIndices : list nat)
  : option (list Z) :=
  match winWeights cfg pays asg voidedOutcomeIndices with
  | None => None
  | Some ws =>
      if (0 <? length lossIndices)%nat then
        writeLossWeights lossIndices
          (lossWeightPerOutcome cfg (requiredLossWeight cfg pays ws) (length lossIndices))
          ws
      else Some ws
  end.

(** *** fineTuneLossWeightWithVoiding *)

(** The sums over the winning outcomes; [result[i]] panics past the end of
    the weights. *)
Definition fineTuneSums (pays : list F) (voided : list nat) (weights : list Z)
  : option (F * Z) :=
  foldM (fun acc '(i, p) =>
           if fltb fzero p then
             match weights !! i with
             | None => None
             | Some w =>
                 if (0 <? w) && negb (inVoidedSet voided i)
                 then Some (fadd (fst acc) (fmul (of_int w) p), uint64_add (snd acc) w)
                 else Some acc
             end
           else Some acc)
        (enumerate pays) (fzero, 0).

Definition fineTuneLossWeightWithVoiding (cfg : BucketOptimizerConfig F)
    (weights : list Z) (pays : list F) (lossIndices voidedOutcomeIndices : list nat)
  : option (list Z) :=
  match fineTuneSums pays voidedOutcomeIndices weights with
  | None => None
  | Some sums =>
      let r := fsub (fdiv (fst sums) (TargetRTP cfg)) (of_int (snd sums)) in
      let nloss := of_int (Z.of_nat (length lossIndices)) in
      let required := if fltb r nloss then nloss else r in
      writeLossWeights lossIndices
        (lossWeightPerOutcome cfg required (length lossIndices)) weights
  end.

(** *** OptimizeTable *)

Definition voidedBucketSet (cfg : BucketOptimizerConfig F) : gset Z :=
  if EnableVoiding cfg && (0 <? length (VoidedBucketIndices cfg))%nat
  then list_to_set (VoidedBucketIndices cfg) else ∅.

Definition isVoidedBucket (cfg : BucketOptimizerConfig F) (i : nat) : bool :=
  bool_decide (Z.of_nat i ∈ voidedBucketSet cfg).

Definition markVoided (b : bucketAssignment F) : bucketAssignment F :=
  {| config := config b; outcomeIndices := outcomeIndices b; payouts := payouts b;
     targetProb := targetProb b; outcomeProbs := outcomeProbs b;
     avgPayout := avgPayout b; rtpContribution := rtpContribution b;
     isAuto := isAuto b; isVoided := true |}.

(** The deprecated bucket voiding: the flagged assignments. *)
Definition markVoidedBuckets (cfg : BucketOptimizerConfig F)
    (asg : list (bucketAssignment F)) : list (bucketAssignment F) :=
  map (fun '(i, b) => if isVoidedBucket cfg i then markVoided b else b) (enumerate asg).

Definition voidedBucketInfo (n : nat) (ib : nat * bucketAssignment F)
  : VoidedBucketInfo F :=
  let b := snd ib in
  let avg := if (0 <? length (payouts b))%nat
             then fdiv (fold_left fadd (payouts b) fzero)
                       (of_int (Z.of_nat (length (payouts b))))
             else fzero in
  {| vbIndex := fst ib; vbName := Name (config b);
     vbOutcomeCount := length (outcomeIndices b);
     vbRtpContribution :=
       fmul (fdiv (fmul avg (of_int (Z.of_nat (length (outcomeIndices b)))))
                  (of_int (Z.of_nat n)))
            (of_int 100) |}.

Definition voidedBucketsOf (cfg : BucketOptimizerConfig F) (n : nat)
    (asg : list (bucketAssignment F)) : list (nat * bucketAssignment F) :=
  List.filter (fun ib => isVoidedBucket cfg (fst ib)) (enumerate asg).

(** Auto-voiding as [OptimizeTable] runs it. *)
Definition autoVoid (cfg : BucketOptimizerConfig F) (pays : list F) (sims : list Z)
  : option (list nat * list (VoidedOutcomeInfo F)) :=
  if EnableAutoVoiding cfg
  then autoSelectOutcomesToVoid pays sims (TargetRTP cfg) (calculateMinAchievableRTP pays)
  else Some ([], []).

(** Everything [OptimizeTable] hands to the weight calculation. *)
Record prepared : Type := {
  prPayouts : list F;
  prAssignments : list (bucketAssignment F);
  prLossIndices : list nat;
  prVoidedOutcomeIndices : list nat;
  prVoidedBuckets : list (VoidedBucketInfo F);
  prAutoVoided : list (VoidedOutcomeInfo F);
  prWarnings : list (Warning F)
}.

Definition prepare (cfg : BucketOptimizerConfig F) (table : LookupTable F)
  : option prepared :=
  let pays := normalizedPayouts table in
  match autoVoid cfg pays (map SimID (Outcomes table)) with
  | None => None
  | Some (autoVoidedIndices, autoVoidedOutcomes) =>
      match assignOutcomesToBuckets cfg pays with
      | None => None
      | Some (asg, lossIndices) =>
          let vbs := voidedBucketsOf cfg (length pays) asg in
          let tp := calculateTargetProbabilities cfg (markVoidedBuckets cfg asg) in
          Some {| prPayouts := pays;
                  prAssignments := fst tp;
                  prLossIndices := lossIndices;
                  prVoidedOutcomeIndices :=
                    concat (map (fun ib => outcomeIndices (snd ib)) vbs)
                    ++ autoVoidedIndices;
                  prVoidedBuckets := map (voidedBucketInfo (length pays)) vbs;
                  prAutoVoided := autoVoidedOutcomes;
                  prWarnings := snd tp |}
      end
  end.

Definition isConverged (cfg : BucketOptimizerConfig F) (finalRTP : F) : bool :=
  fleb (fabs (fsub finalRTP (TargetRTP cfg))) (RTPTolerance cfg).

(** The weights after the optional fine-tuning of the loss weights. *)
Definition finalWeights (cfg : BucketOptimizerConfig F) (pr : prepared)
  : option (list Z) :=
  match calculateWeightsWithVoiding cfg (prPayouts pr) (prAssignments pr)
          (prLossIndices pr) (prVoidedOutcomeIndices pr) with
  | None => None
  | Some newWeights =>
      if negb (isConverged cfg (calculateRTPFromWeights newWeights (prPayouts pr)))
         && (0 <? length (prLossIndices pr))%nat
      then fineTuneLossWeightWithVoiding cfg newWeights (prPayouts pr)
             (prLossIndices pr) (prVoidedOutcomeIndices pr)
      else Some newWeights
  end.

Definition deviationWarnings (cfg : BucketOptimizerConfig F) (finalRTP : F)
  : list (Warning F) :=
  if isConverged cfg finalRTP then []
  else
    let diff := fmul (fsub finalRTP (TargetRTP cfg)) (of_int 100) in
    if fltb (of_int 10) diff
    then [WarnAboveTarget F (fmul finalRTP (of_int 100)) diff]
    else if fltb diff (of_int (-10))
    then [WarnBelowTarget F (fmul finalRTP (of_int 100)) (fneg diff)]
    else [].

Definition OptimizeTable (cfg : BucketOptimizerConfig F) (table : LookupTable F)
  : option (returned (BucketOptimizerResult F)) :=
  if (length (Outcomes table) =? 0)%nat then Some (Err "empty table")
  else
    match prepare cfg table with
    | None => None
    | Some pr =>
        match finalWeights cfg pr with
        | None => None
        | Some newWeights =>
            let finalRTP := calculateRTPFromWeights newWeights (prPayouts pr) in
            let autoVoidedRTP :=
              fold_left (fun acc vo => fadd acc (RTPLoss vo)) (prAutoVoided pr) fzero in
            Some (Ok
              {| OriginalRTP :=
                   calculateRTPFromWeights (map Weight (Outcomes table)) (prPayouts pr);
                 FinalRTP := finalRTP;
                 resTargetRTP := TargetRTP cfg;
                 Converged := isConverged cfg finalRTP;
                 NewWeights := newWeights;
                 TotalWeight := sumUint64 newWeights;
                 Warnings :=
                   prWarnings pr ++ deviationWarnings cfg finalRTP
                   ++ (if (0 <? length (prVoidedBuckets pr))%nat
                       then [WarnVoidedBuckets F (length (prVoidedBuckets pr))
                               (map (vbName F) (prVoidedBuckets pr))]
                       else [])
                   ++ (if (0 <? length (prAutoVoided pr))%nat
                       then [WarnAutoVoided F (length (prAutoVoided pr))
                               (fmul autoVoidedRTP (of_int 100))]
                       else []);
                 VoidedBuckets := prVoidedBuckets pr;
                 VoidedOutcomes := prAutoVoided pr;
                 TotalVoided := length (prAutoVoided pr);
                 VoidedRTP := autoVoidedRTP |})
        end
    end.

End Optimizer.

Arguments prepared : clear implicits.

(** ** The mode analyzer *)

Inductive ModeType : Type :=
  | ModeTypeStandard
  | ModeTypeBonusNarrow
  | ModeTypeBonusWide
  | ModeTypeHighRTP
  | ModeTypeExtreme.

(** Which of the two feasibility notes the analysis carries. *)
Inductive FeasibilityNote : Type :=
  | NoteNone
  | NoteExceedsMaximum
  | NoteBelowMinimum.

(** [ModeAnalysis], without the percentile map and the recommended buckets
    (both are computed from the sorted winning payouts and feed nothing
    back). *)
Record ModeAnalysis (F : Type) : Type := {
  maMode : string;
  maType : ModeType;
  TotalOutcomes : nat;
  maMinPayout : F;
  maMaxPayout : F;
  maAvgPayout : F;
  PayoutVariance : F;
  PayoutStdDev : F;
  MinAchievableRTP : F;
  MaxAchievableRTP : F;
  maCost : F;
  IsBonusMode : bool;
  Feasible : bool;
  Note : FeasibilityNote;
  SuggestedRTP : F
}.
Arguments maMode {F} _.
Arguments maType {F} _.
Arguments TotalOutcomes {F} _.
Arguments maMinPayout {F} _.
Arguments maMaxPayout {F} _.
Arguments maAvgPayout {F} _.
Arguments PayoutVariance {F} _.
Arguments PayoutStdDev {F} _.
Arguments MinAchievableRTP {F} _.
Arguments MaxAchievableRTP {F} _.
Arguments maCost {F} _.
Arguments IsBonusMode {F} _.
Arguments Feasible {F} _.
Arguments Note {F} _.
Arguments SuggestedRTP {F} _.

(** The accumulators of the analyzer's loop over the outcomes. *)
Record payStats (F : Type) : Type := {
  winPayouts : list F;
  minPay : F;
  maxPay : F;
  sumPay : F;
  sumSq : F
}.
Arguments winPayouts {F} _.
Arguments minPay {F} _.
Arguments maxPay {F} _.
Arguments sumPay {F} _.
Arguments sumSq {F} _.

Section Analyzer.
Context {F : Type} `{Float64Ops F}.

Definition statStep (st : payStats F) (p : F) : payStats F :=
  if fltb fzero p then
    {| winPayouts := winPayouts st ++ [p];
       minPay := if fltb p (minPay st) then p else minPay st;
       maxPay := if fltb (maxPay st) p then p else maxPay st;
       sumPay := fadd (sumPay st) p;
       sumSq := fadd (sumSq st) (fmul p p) |}
  else st.

Definition collectStats (pays : list F) : payStats F :=
  fold_left statStep pays
    {| winPayouts := []; minPay := MaxFloat64; maxPay := fzero;
       sumPay := fzero; sumSq := fzero |}.

Definition classifyMode (targetRTP payoutRange cost : F) : ModeType :=
  if fltb (of_int 10) targetRTP then ModeTypeExtreme
  else if fltb (of_int 2) targetRTP then ModeTypeHighRTP
  else if fltb (flit 15 1) cost then
    (if fltb payoutRange (of_int 10) then ModeTypeBonusNarrow else ModeTypeBonusWide)
  else ModeTypeStandard.

Definition AnalyzeTable (table : LookupTable F) (mode : string) (targetRTP : F)
  : returned (ModeAnalysis F) :=
  if (length (Outcomes table) =? 0)%nat then Err "empty table"
  else
    let cost := tableCost table in
    let st := collectStats (normalizedPayouts table) in
    if (length (winPayouts st) =? 0)%nat then Err "no winning outcomes in table"
    else
      let minPay := if feqb (minPay st) MaxFloat64 then fzero else minPay st in
      let maxPay := maxPay st in
      let n := of_int (Z.of_nat (length (winPayouts st))) in
      let avgPay := fdiv (sumPay st) n in
      let variance0 := fsub (fdiv (sumSq st) n) (fmul avgPay avgPay) in
      let variance := if fltb variance0 fzero then fzero else variance0 in
      let minRTP := minPay in
      let maxRTP := maxPay in
      let feasible := fleb minRTP targetRTP && fleb targetRTP maxRTP in
      Ok {| maMode := mode;
            maType := classifyMode targetRTP (fdiv maxPay minPay) cost;
            TotalOutcomes := length (Outcomes table);
            maMinPayout := minPay;
            maMaxPayout := maxPay;
            maAvgPayout := avgPay;
            PayoutVariance := variance;
            PayoutStdDev := fsqrt variance;
            MinAchievableRTP := minRTP;
            MaxAchievableRTP := maxRTP;
            maCost := cost;
            IsBonusMode := fltb (flit 15 1) cost;
            Feasible := feasible;
            Note := if feasible then NoteNone
                    else if fltb maxRTP targetRTP then NoteExceedsMaximum
                    else NoteBelowMinimum;
            SuggestedRTP := if feasible then fzero
                            else if fltb maxRTP targetRTP then fmul maxRTP (flit 95 2)
                            else fmul minRTP (flit 105 2) |}.

(** [AnalyzeMode]: [loader] is [a.loader.GetMode], which returns the
    table of a mode or an error; the error is wrapped with the mode's
    name. *)
Definition AnalyzeMode (loader : string -> returned (LookupTable F)) (mode : string)
    (targetRTP : F) : returned (ModeAnalysis F) :=
  match loader mode with
  | Err e => Err ("failed to load mode " ++ mode ++ ": " ++ e)
  | Ok table => AnalyzeTable table mode targetRTP
  end.

(** *** The target_rtp knob of the HTTP entry points

    [query] is the parsed [target_rtp] query parameter: [Some parsed] when
    the parameter is present and [strconv.ParseFloat] returns no error. *)

(** HandleAnalyzeMode. *)
Definition analyzeModeTargetRTP (query : option F) : F :=
  match query with
  | Some parsed => if fltb fzero parsed then parsed else flit 96 2
  | None => flit 96 2
  end.

(** HandleSuggestBuckets. *)
Definition suggestBucketsTargetRTP (query : option F) : F :=
  match query with
  | Some parsed =>
      if fltb fzero parsed && fltb parsed (of_int 1) then parsed else flit 97 2
  | None => flit 97 2
  end.

(** HandleGenerateConfigsForMode. *)
Definition generateConfigsForModeTargetRTP (query : option F) : F :=
  match query with
  | Some parsed => if fltb fzero parsed then parsed else flit 96 2
  | None => flit 96 2
  end.

(** HandleGenerateConfigs. *)
Definition generateConfigsTargetRTP (query : option F) : F :=
  match query with
  | Some parsed =>
      if fltb fzero parsed && fleb parsed (of_int 1) then parsed else flit 96 2
  | None => flit 96 2
  end.

(** A failed response, or the body of a successful one. *)
Inductive Response (A : Type) : Type :=
  | WriteError (status : Z) (message : string)
  | WriteSuccess (body : A).

(** HandleAnalyzeMode: [method] is the request's method, [mode] what
    [extractMode] reads from the path. *)
Definition HandleAnalyzeMode (loader : string -> returned (LookupTable F))
    (method mode : string) (query : option F) : Response (ModeAnalysis F) :=
  if negb (String.eqb method "GET") then WriteError _ 405 "GET required"
  else if String.eqb mode "" then WriteError _ 400 "mode required"
  else
    match AnalyzeMode loader mode (analyzeModeTargetRTP query) with
    | Err e => WriteError _ 404 ("failed to analyze mode: " ++ e)
    | Ok analysis => WriteSuccess _ analysis
    end.

End Analyzer.

(** ** The file watcher *)

(** [fsnotify.Op] bits. *)
Definition OpCreate : Z := 1.
Definition OpWrite : Z := 2.

Record Event : Type := {
  evName : string;
  evOp : Z
}.

(** [event.Has(op)]. *)
Definition Has (e : Event) (op : Z) : bool := Z.land (evOp e) op =? op.

(** The watcher's state; times and durations are nanoseconds. *)
Record FileWatcher : Type := {
  baseDir : string;
  files : gmap string string;
  debounce : Z;
  lastChange : gmap string Z;
  enabled : bool
}.

(** The arguments of a reload goroutine. *)
Record reloadTask : Type := {
  rtMode : string;
  rtFile : string;
  rtPath : string
}.

Definition second : Z := 1000000000.
Definition millisecond : Z := 1000000.

(** [t.Sub(u)]: the difference, saturating at the ends of [int64]. *)
Definition time_Sub (t u : Z) : Z :=
  Z.max (- 2 ^ 63) (Z.min (2 ^ 63 - 1) (t - u)).

Section Watcher.
(** [filepath.Base], the platform's. *)
Variable Base : string -> string.

Definition NewFileWatcher (dir : string) (fs : gmap string string) : FileWatcher :=
  {| baseDir := dir; files := fs; debounce := 2 * second; lastChange := ∅;
     enabled := true |}.

Definition SetDebounce (fw : FileWatcher) (d : Z) : FileWatcher :=
  {| baseDir := baseDir fw; files := files fw; debounce := d;
     lastChange := lastChange fw; enabled := enabled fw |}.

Definition SetEnabled (fw : FileWatcher) (b : bool) : FileWatcher :=
  {| baseDir := baseDir fw; files := files fw; debounce := debounce fw;
     lastChange := lastChange fw; enabled := b |}.

(** [handleEvent] at time [now]: the next state and the goroutine it
    starts, if any. *)
Definition handleEvent (fw : FileWatcher) (event : Event) (now : Z)
  : FileWatcher * option reloadTask :=
  if negb (enabled fw) then (fw, None)
  else if negb (Has event OpWrite) && negb (Has event OpCreate) then (fw, None)
  else
    let filename := Base (evName event) in
    match files fw !! filename with
    | None => (fw, None)
    | Some mode =>
        match lastChange fw !! filename with
        | Some lastTime =>
            if time_Sub now lastTime <? debounce fw then (fw, None)
            else
              ({| baseDir := baseDir fw; files := files fw; debounce := debounce fw;
                  lastChange := <[filename := now]> (lastChange fw);
                  enabled := enabled fw |},
               Some {| rtMode := mode; rtFile := filename; rtPath := evName event |})
        | None =>
            ({| baseDir := baseDir fw; files := files fw; debounce := debounce fw;
                lastChange := <[filename := now]> (lastChange fw);
                enabled := enabled fw |},
             Some {| rtMode := mode; rtFile := filename; rtPath := evName event |})
        end
    end.

(** [waitForFileStable] over the polls it makes: each poll is the time
    since the start and what [os.Stat] answers ([None] on an error).  The
    result is [Some tt] when the wait ends (the source returns nil either
    way) and [None] while polls are still to come. *)
Fixpoint waitForFileStable (polls : list (Z * option Z)) (lastSize : Z)
    (stableCount : Z) : option unit :=
  match polls with
  | [] => None
  | (elapsed, stat) :: rest =>
      if 30 * second <? elapsed then Some tt
      else match stat with
           | None => waitForFileStable rest (-1) 0
           | Some currentSize =>
               if (currentSize =? lastSize) && (0 <? currentSize) then
                 if 3 <=? stableCount + 1 then Some tt
                 else waitForFileStable rest currentSize (stableCount + 1)
               else waitForFileStable rest currentSize 0
           end
  end.

(** The reload callbacks a goroutine makes: the mode, once the file is
    stable. *)
Definition reloadCalls (polls : list (Z * option Z)) (task : option reloadTask)
  : list string :=
  match task with
  | None => []
  | Some t =>
      match waitForFileStable polls (-1) 0 with
      | Some _ => [rtMode t]
      | None => []
      end
  end.

End Watcher.

(** ** More of the file watcher *)

Section WatcherRun.
Variable Base : string -> string.

(** [run], the branch of its loop that reads the event channel: the
    events in the order they are read, each with the time [handleEvent]
    reads from the clock.  The result is the state after the last event
    and the goroutines started, each with the time of its event. *)
Fixpoint run (fw : FileWatcher) (events : list (Event * Z))
  : FileWatcher * list (Z * reloadTask) :=
  match events with
  | [] => (fw, [])
  | (event, now) :: rest =>
      let r := handleEvent Base fw event now in
      let rs := run (fst r) rest in
      (fst rs, match snd r with
               | Some task => (now, task) :: snd rs
               | None => snd rs
               end)
  end.

End WatcherRun.

(** ** Paths of the optimizer API *)

(** [strings.Split(s, "/")]: the pieces between the slashes, one more
    than there are slashes. *)
Fixpoint splitSlash (s : string) : list string :=
  match s with
  | EmptyString => [EmptyString]
  | String c rest =>
      if String.eqb (String c "") "/" then EmptyString :: splitSlash rest
      else match splitSlash rest with
           | [] => [String c EmptyString]
           | piece :: pieces => String c piece :: pieces
           end
  end.

(** [strings.TrimPrefix]. *)
Definition TrimPrefix (s pre : string) : string :=
  if String.prefix pre s
  then String.substring (String.length pre) (String.length s - String.length pre) s
  else s.

(** [strings.HasSuffix]. *)
Definition HasSuffix (s suffix : string) : bool :=
  (String.length suffix <=? String.length s)%nat &&
  String.eqb (String.substring (String.length s - String.length suffix)
                               (String.length suffix) s) suffix.

(** The index of the first piece equal to [x], counting from [i]. *)
Fixpoint indexFrom (x : string) (parts : list string) (i : nat) : option nat :=
  match parts with
  | [] => None
  | p :: rest => if String.eqb p x then Some i else indexFrom x rest (S i)
  end.

Definition extractMode (path action : string) : string :=
  let parts := splitSlash (TrimPrefix path "/") in
  match indexFrom "optimizer" parts 0 with
  | None => ""
  | Some optimizerIdx =>
      match parts !! (optimizerIdx + 1)%nat with
      | None => ""
      | Some mode =>
          if String.eqb mode action || String.eqb mode "bucket-presets"
             || String.eqb mode "profiles" || String.eqb mode "generate-configs"
             || String.eqb mode "generate-config"
          then "" else mode
      end
  end.

(** The handlers [RegisterRoutes] dispatches to. *)
Inductive Route : Type :=
  | RouteApply
  | RouteBackups
  | RouteRestore
  | RouteAnalyzeMode
  | RouteBucketOptimize
  | RouteBruteForceOptimizeWS
  | RouteSuggestBuckets
  | RouteBucketPresets
  | RouteGenerateConfigs
  | RouteGenerateConfig
  | RouteProfiles
  | RouteGenerateConfigsForMode
  | RouteNotFound.

(** The switch of [RegisterRoutes] on the request path. *)
Definition RegisterRoutes (path : string) : Route :=
  if HasSuffix path "/apply" then RouteApply
  else if HasSuffix path "/backups" then RouteBackups
  else if HasSuffix path "/restore" then RouteRestore
  else if HasSuffix path "/analyze" then RouteAnalyzeMode
  else if HasSuffix path "/bucket-optimize" then RouteBucketOptimize
  else if HasSuffix path "/optimize-stream" then RouteBruteForceOptimizeWS
  else if HasSuffix path "/suggest-buckets" then RouteSuggestBuckets
  else if String.eqb path "/api/optimizer/bucket-presets" then RouteBucketPresets
  else if String.eqb path "/api/optimizer/generate-configs" then RouteGenerateConfigs
  else if String.eqb path "/api/optimizer/generate-config" then RouteGenerateConfig
  else if String.eqb path "/api/optimizer/profiles" then RouteProfiles
  else if HasSuffix path "/generate-configs" then RouteGenerateConfigsForMode
  else RouteNotFound.

(** The action each per-mode handler passes to [extractMode]. *)
Definition actionOf (r : Route) : option string :=
  match r with
  | RouteApply => Some "apply"
  | RouteBackups => Some "backups"
  | RouteRestore => Some "restore"
  | RouteAnalyzeMode => Some "analyze"
  | RouteBucketOptimize => Some "bucket-optimize"
  | RouteBruteForceOptimizeWS => Some "optimize-stream"
  | RouteSuggestBuckets => Some "suggest-buckets"
  | RouteGenerateConfigsForMode => Some "generate-configs"
  | _ => None
  end.

(** ** Percentiles of the analyzer *)

Section Percentiles.
Context {F : Type} `{Float64Ops F}.

(** [int(x)] on a float64: Go leaves the result to the implementation
    when the value does not fit. *)
Variable to_int : F -> Z.

(** [getPercentile], the closure of [calculatePercentiles]; [None] is the
    panic of an index out of range. *)
Definition getPercentile (sorted : list F) (p : F) : option F :=
  let n := Z.of_nat (length sorted) in
  let idx := to_int (fmul (of_int (n - 1)) p) in
  let idx := if idx <? 0 then 0 else idx in
  let idx := if n <=? idx then n - 1 else idx in
  if idx <? 0 then None else sorted !! Z.to_nat idx.

(** The keys of the percentile map with their fractions. *)
Definition percentileKeys : list (string * F) :=
  [ ("p10", flit 10 2); ("p25", flit 25 2); ("p50", flit 50 2); ("p75", flit 75 2);
    ("p90", flit 90 2); ("p95", flit 95 2); ("p99", flit 99 2) ].

(** [calculatePercentiles]: the outer [None] is a panic, the inner one
    the nil map of an empty slice. *)
Definition calculatePercentiles (sorted : list F) : option (option (gmap string F)) :=
  if (length sorted =? 0)%nat then Some None
  else
    match foldM (fun m '(key, p) =>
                   match getPercentile sorted p with
                   | Some v => Some (<[key := v]> m)
                   | None => None
                   end) percentileKeys (∅ : gmap string F) with
    | Some m => Some (Some m)
    | None => None
    end.

End Percentiles.

(** ** Validation and suggestion of buckets *)

(** The errors of [ValidateBuckets], each with the values its message is
    formatted from. *)
Inductive BucketError (F : Type) : Type :=
  | ErrNoBuckets
  | ErrGap (a b : BucketConfig F)
  | ErrOverlap (a b : BucketConfig F)
  | ErrNegativeMin (name : string)
  | ErrMaxBelowMin (name : string)
  | ErrFrequency (name : string)
  | ErrRTPPercent (name : string)
  | ErrAutoExponent (name : string)
  | ErrMaxWinFrequency (name : string)
  | ErrUnknownType (name type : string)
  | ErrPriority (name : string) (priority : Z).
Arguments ErrNoBuckets {F}.
Arguments ErrGap {F} _ _.
Arguments ErrOverlap {F} _ _.
Arguments ErrNegativeMin {F} _.
Arguments ErrMaxBelowMin {F} _.
Arguments ErrFrequency {F} _.
Arguments ErrRTPPercent {F} _.
Arguments ErrAutoExponent {F} _.
Arguments ErrMaxWinFrequency {F} _.
Arguments ErrUnknownType {F} _ _.
Arguments ErrPriority {F} _ _.

Definition PriorityHard : Z := 1.
Definition PrioritySoft : Z := 2.

Section Validation.
Context {F : Type} `{Float64Ops F}.

(** [sort.Slice(sorted, less)] with [less] comparing [MinPayout] by [<]:
    the library's routine, a parameter here. *)
Variable sortByMinPayout : list (BucketConfig F) -> list (BucketConfig F).

(** "Check for gaps and overlaps": the loop over the neighbours of the
    sorted copy. *)
Fixpoint checkNeighbours (sorted : list (BucketConfig F)) : option (BucketError F) :=
  match sorted with
  | a :: ((b :: _) as rest) =>
      if fltb (MaxPayout a) (MinPayout b) then Some (ErrGap a b)
      else if fltb (MinPayout b) (MaxPayout a) then Some (ErrOverlap a b)
      else checkNeighbours rest
  | _ => None
  end.

(** "Validate each bucket": one bucket. *)
Definition checkBucket (bucket : BucketConfig F) : option (BucketError F) :=
  if fltb (MinPayout bucket) fzero then Some (ErrNegativeMin (Name bucket))
  else if fltb (MaxPayout bucket) (MinPayout bucket) then Some (ErrMaxBelowMin (Name bucket))
  else
    let typeError :=
      if String.eqb (Type_ bucket) ConstraintFrequency then
        (if fleb (Frequency bucket) fzero then Some (ErrFrequency (Name bucket)) else None)
      else if String.eqb (Type_ bucket) ConstraintRTPPercent then
        (if fleb (RTPPercent bucket) fzero || fltb (of_int 100) (RTPPercent bucket)
         then Some (ErrRTPPercent (Name bucket)) else None)
      else if String.eqb (Type_ bucket) ConstraintAuto then
        (if fltb (AutoExponent bucket) fzero then Some (ErrAutoExponent (Name bucket))
         else None)
      else if String.eqb (Type_ bucket) ConstraintMaxWinFreq then
        (if fleb (MaxWinFrequency bucket) fzero
         then Some (ErrMaxWinFrequency (Name bucket)) else None)
      else if String.eqb (Type_ bucket) ConstraintOutcomeFreq then None
      else Some (ErrUnknownType (Name bucket) (Type_ bucket)) in
    match typeError with
    | Some e => Some e
    | None =>
        if negb (Priority bucket =? 0) && negb (Priority bucket =? PriorityHard)
           && negb (Priority bucket =? PrioritySoft)
        then Some (ErrPriority (Name bucket) (Priority bucket))
        else None
    end.

Fixpoint checkBuckets (buckets : list (BucketConfig F)) : option (BucketError F) :=
  match buckets with
  | [] => None
  | bucket :: rest =>
      match checkBucket bucket with
      | Some e => Some e
      | None => checkBuckets rest
      end
  end.

(** [ValidateBuckets]; [None] is the nil error. *)
Definition ValidateBuckets (buckets : list (BucketConfig F)) : option (BucketError F) :=
  if (length buckets =? 0)%nat then Some ErrNoBuckets
  else
    match checkNeighbours (sortByMinPayout buckets) with
    | Some e => Some e
    | None => checkBuckets buckets
    end.

End Validation.

Section Suggestion.
Context {F : Type} `{Float64Ops F}.

Definition suggested (name : string) (lo hi : F) (ty : string) (freq pct exp : F)
  : BucketConfig F :=
  {| Name := name; MinPayout := lo; MaxPayout := hi; Type_ := ty; Frequency := freq;
     RTPPercent := pct; AutoExponent := exp; MaxWinFrequency := fzero; Priority := 0;
     IsMaxWinBucket := false |}.

(** [suggestStandardBuckets]: each [if maxPayout >= t] appends one
    bucket. *)
Definition suggestStandardBuckets (maxPayout : F) : list (BucketConfig F) :=
  let frequency name lo hi freq :=
    suggested name lo hi ConstraintFrequency (of_int freq) fzero fzero in
  let rtpPercent name lo hi pct :=
    suggested name lo hi ConstraintRTPPercent fzero pct fzero in
  let from t bucket := if fleb (of_int t) maxPayout then [bucket] else [] in
  [ frequency "sub_1x" (flit 1 2) (of_int 1) 3 ]
  ++ from 2 (frequency "breakeven" (of_int 1) (of_int 2) 5)
  ++ from 5 (frequency "small" (of_int 2) (of_int 5) 8)
  ++ from 10 (frequency "low_med" (of_int 5) (of_int 10) 15)
  ++ from 25 (frequency "medium" (of_int 10) (of_int 25) 30)
  ++ from 50 (frequency "med_high" (of_int 25) (of_int 50) 60)
  ++ from 100 (frequency "high" (of_int 50) (of_int 100) 100)
  ++ from 250 (rtpPercent "very_high" (of_int 100) (of_int 250) (of_int 3))
  ++ from 500 (rtpPercent "huge" (of_int 250) (of_int 500) (of_int 2))
  ++ from 1000 (rtpPercent "massive" (of_int 500) (of_int 1000) (of_int 1))
  ++ from 2500 (rtpPercent "epic" (of_int 1000) (of_int 2500) (flit 5 1))
  ++ (if fleb (of_int 2500) maxPayout
      then [ rtpPercent "jackpot" (of_int 2500) (fadd maxPayout (of_int 1)) (flit 3 1) ]
      else if fleb (of_int 1000) maxPayout
      then [ rtpPercent "jackpot" (of_int 1000) (fadd maxPayout (of_int 1)) (flit 5 1) ]
      else []).

Definition suggestBonusBuckets (minPayout maxPayout targetRTP : F)
  : list (BucketConfig F) :=
  let auto name lo hi := suggested name lo hi ConstraintAuto fzero fzero (of_int 1) in
  let rtpPercent name lo hi pct :=
    suggested name lo hi ConstraintRTPPercent fzero (of_int pct) fzero in
  let lowThreshold := fmul targetRTP (flit 8 1) in
  let midLow := lowThreshold in
  let midHigh0 := fmul targetRTP (flit 12 1) in
  let midHigh := if fltb maxPayout midHigh0 then fmul maxPayout (flit 9 1) else midHigh0 in
  [ auto "below_avg" fzero lowThreshold; auto "around_avg" midLow midHigh ]
  ++ (if fltb midHigh maxPayout then
        let highThreshold0 := fmul targetRTP (flit 15 1) in
        let highThreshold1 :=
          if fltb highThreshold0 midHigh then fmul midHigh (flit 12 1)
          else highThreshold0 in
        let highThreshold :=
          if fltb maxPayout highThreshold1 then fadd maxPayout (flit 1 2)
          else highThreshold1 in
        [ rtpPercent "above_avg" midHigh highThreshold 15 ]
        ++ (if fltb highThreshold maxPayout
            then [ rtpPercent "jackpot" highThreshold (fadd maxPayout (flit 1 2)) 5 ]
            else [])
      else []).

(** The first bucket with [MinPayout <= maxPayout <= MaxPayout]. *)
Fixpoint containingIndex (buckets : list (BucketConfig F)) (maxPayout : F) (i : nat)
  : option nat :=
  match buckets with
  | [] => None
  | b :: rest =>
      if fleb (MinPayout b) maxPayout && fleb maxPayout (MaxPayout b) then Some i
      else containingIndex rest maxPayout (S i)
  end.

Definition markMaxWin (b : BucketConfig F) : BucketConfig F :=
  {| Name := "maxwin"; MinPayout := MinPayout b; MaxPayout := MaxPayout b;
     Type_ := Type_ b; Frequency := Frequency b; RTPPercent := RTPPercent b;
     AutoExponent := AutoExponent b; MaxWinFrequency := MaxWinFrequency b;
     Priority := Priority b; IsMaxWinBucket := true |}.

Definition withMaxPayout (b : BucketConfig F) (hi : F) : BucketConfig F :=
  {| Name := Name b; MinPayout := MinPayout b; MaxPayout := hi;
     Type_ := Type_ b; Frequency := Frequency b; RTPPercent := RTPPercent b;
     AutoExponent := AutoExponent b; MaxWinFrequency := MaxWinFrequency b;
     Priority := Priority b; IsMaxWinBucket := IsMaxWinBucket b |}.

Definition maxwinBucket (maxWinThreshold maxPayout : F) : BucketConfig F :=
  {| Name := "maxwin"; MinPayout := maxWinThreshold;
     MaxPayout := fadd maxPayout (flit 1 2); Type_ := ConstraintMaxWinFreq;
     Frequency := fzero; RTPPercent := fzero; AutoExponent := fzero;
     MaxWinFrequency := of_int 50000; Priority := 0; IsMaxWinBucket := true |}.

(** [maxPayout - max(maxPayout * 0.001, 0.01)]. *)
Definition maxWinThresholdOf (maxPayout : F) : F :=
  let epsilon0 := fmul maxPayout (flit 1 3) in
  let epsilon := if fltb epsilon0 (flit 1 2) then flit 1 2 else epsilon0 in
  fsub maxPayout epsilon.

(** [ensureMaxWinBucket]: the slice it returns (the source also writes
    into the slice it is given). *)
Definition ensureMaxWinBucket (buckets : list (BucketConfig F)) (maxPayout : F)
  : list (BucketConfig F) :=
  if (length buckets =? 0)%nat || fleb maxPayout fzero then buckets
  else
    let maxWinThreshold := maxWinThresholdOf maxPayout in
    match containingIndex buckets maxPayout 0 with
    | Some i =>
        match buckets !! i with
        | Some bucket =>
            if IsMaxWinBucket bucket then buckets
            else if fleb maxWinThreshold (MinPayout bucket)
            then <[i := markMaxWin bucket]> buckets
            else <[i := withMaxPayout bucket maxWinThreshold]> buckets
                 ++ [maxwinBucket maxWinThreshold maxPayout]
        | None => buckets ++ [maxwinBucket maxWinThreshold maxPayout]
        end
    | None => buckets ++ [maxwinBucket maxWinThreshold maxPayout]
    end.

(** The loop of [SuggestBuckets] over the outcomes: the largest payout
    and the smallest positive one. *)
Definition payoutBounds (pays : list F) : F * F :=
  fold_left (fun '(maxPayout, minPayout) payout =>
               (if fltb maxPayout payout then payout else maxPayout,
                if fltb fzero payout && fltb payout minPayout then payout
                else minPayout))
            pays (fzero, MaxFloat64).

Definition SuggestBuckets (table : LookupTable F) (targetRTP : F)
  : list (BucketConfig F) :=
  let cost := tableCost table in
  let '(maxPayout, minPayout) := payoutBounds (normalizedPayouts table) in
  if fleb maxPayout fzero then []
  else
    let buckets :=
      if fltb (flit 15 1) cost
      then suggestBonusBuckets minPayout maxPayout targetRTP
      else suggestStandardBuckets maxPayout in
    ensureMaxWinBucket buckets maxPayout.

End Suggestion.

(** * Properties *)

(** ** Order facts of binary64 comparisons

    [PrimFloat]'s comparisons are specified through [SFcompare] on the
    decoded floats; it orders everything but NaN. *)

Section Binary64Order.

Lemma SFcompare_antisym (x y : spec_float) :
  SFcompare y x = option_map CompOpp (SFcompare x y).
Proof.
  destruct x as [sx|sx| |sx mx ex], y as [sy|sy| |sy my ey]; simpl;
    try destruct sx; try destruct sy; simpl; try reflexivity;
    rewrite (Z.compare_antisym ex ey), !Pos.compare_cont_spec;
    rewrite (Pos.compare_antisym mx my);
    destruct (ex ?= ey); simpl; try reflexivity;
    destruct (mx ?= my)%positive; reflexivity.
Qed.

(** One case analysis serves the three transitivity lemmas. *)
Ltac sf_trans :=
  intros x y z;
  destruct x as [sx|sx| |sx mx ex], y as [sy|sy| |sy my ey], z as [sz|sz| |sz mz ez];
  simpl; try destruct sx; try destruct sy; try destruct sz; simpl;
  try discriminate; try reflexivity; intros Hxy Hyz;
  rewrite ?Pos.compare_cont_spec in *; simpl in *;
  destruct (Z.compare_spec ex ey), (Z.compare_spec ey ez), (Z.compare_spec ex ez);
  try discriminate; try reflexivity; try lia; subst;
  destruct (Pos.compare_spec mx my), (Pos.compare_spec my mz), (Pos.compare_spec mx mz);
  simpl in *; try discriminate; try reflexivity; try lia.

Lemma SFcompare_Lt_trans : forall x y z,
  SFcompare x y = Some Lt -> SFcompare y z = Some Lt -> SFcompare x z = Some Lt.
Proof. sf_trans. Qed.

Lemma SFcompare_Lt_Eq_trans : forall x y z,
  SFcompare x y = Some Lt -> SFcompare y z = Some Eq -> SFcompare x z = Some Lt.
Proof. sf_trans. Qed.

Lemma SFcompare_Eq_Lt_trans : forall x y z,
  SFcompare x y = Some Eq -> SFcompare y z = Some Lt -> SFcompare x z = Some Lt.
Proof. sf_trans. Qed.

Lemma SFcompare_refl (x : spec_float) : x <> S754_nan -> SFcompare x x = Some Eq.
Proof.
  destruct x as [s|s| |s m e]; simpl; intros Hn; try congruence;
    destruct s; try reflexivity;
    rewrite Z.compare_refl, Pos.compare_cont_spec, Pos.compare_refl; reflexivity.
Qed.

Lemma SFcompare_total (x y : spec_float) :
  x <> S754_nan -> y <> S754_nan -> exists c, SFcompare x y = Some c.
Proof.
  destruct x as [sx|sx| |sx mx ex], y as [sy|sy| |sy my ey]; simpl; intros;
    try congruence; eauto.
Qed.

Lemma SFcompare_Some_l (x y : spec_float) c : SFcompare x y = Some c -> x <> S754_nan.
Proof. destruct x; simpl; congruence. Qed.

Lemma SFcompare_Some_r (x y : spec_float) c : SFcompare x y = Some c -> y <> S754_nan.
Proof. destruct x, y; simpl; congruence. Qed.

(** The comparison of two floats, decoded. *)
Definition fcmp (x y : float) : option comparison :=
  SFcompare (Prim2SF x) (Prim2SF y).

Definition ordered (x : float) : Prop := Prim2SF x <> S754_nan.

Lemma ltb_fcmp x y : PrimFloat.ltb x y = true <-> fcmp x y = Some Lt.
Proof.
  rewrite FloatAxioms.ltb_spec. unfold SFltb, fcmp.
  destruct (SFcompare _ _) as [[]|]; split; congruence.
Qed.

Lemma leb_fcmp x y :
  PrimFloat.leb x y = true <-> fcmp x y = Some Lt \/ fcmp x y = Some Eq.
Proof.
  rewrite FloatAxioms.leb_spec. unfold SFleb, fcmp.
  destruct (SFcompare _ _) as [[]|]; split; intros; try tauto;
    try congruence; destruct H; congruence.
Qed.

Lemma eqb_fcmp x y : PrimFloat.eqb x y = true <-> fcmp x y = Some Eq.
Proof.
  rewrite FloatAxioms.eqb_spec. unfold SFeqb, fcmp.
  destruct (SFcompare _ _) as [[]|]; split; congruence.
Qed.

Lemma fcmp_antisym x y : fcmp y x = option_map CompOpp (fcmp x y).
Proof. apply SFcompare_antisym. Qed.

Lemma ltb_ordered_l x y : PrimFloat.ltb x y = true -> ordered x.
Proof. rewrite ltb_fcmp. apply SFcompare_Some_l. Qed.

Lemma ltb_ordered_r x y : PrimFloat.ltb x y = true -> ordered y.
Proof. rewrite ltb_fcmp. apply SFcompare_Some_r. Qed.

Lemma ltb_trans x y z :
  PrimFloat.ltb x y = true -> PrimFloat.ltb y z = true -> PrimFloat.ltb x z = true.
Proof. rewrite !ltb_fcmp. apply SFcompare_Lt_trans. Qed.

Lemma ltb_leb x y : PrimFloat.ltb x y = true -> PrimFloat.leb x y = true.
Proof. rewrite ltb_fcmp, leb_fcmp. auto. Qed.

Lemma ltb_not_leb x y : PrimFloat.ltb x y = true -> PrimFloat.leb y x = false.
Proof.
  rewrite ltb_fcmp. intros Hlt.
  destruct (PrimFloat.leb y x) eqn:Hle; [|reflexivity].
  apply leb_fcmp in Hle. rewrite fcmp_antisym, Hlt in Hle. simpl in Hle.
  destruct Hle; congruence.
Qed.

Lemma leb_not_ltb x y : PrimFloat.leb x y = true -> PrimFloat.ltb y x = false.
Proof.
  intros Hle. destruct (PrimFloat.ltb y x) eqn:Hlt; [|reflexivity].
  apply ltb_not_leb in Hlt. congruence.
Qed.

Lemma ltb_not_eqb x y : PrimFloat.ltb x y = true -> PrimFloat.eqb x y = false.
Proof.
  rewrite ltb_fcmp. intros Hlt.
  destruct (PrimFloat.eqb x y) eqn:He; [|reflexivity].
  apply eqb_fcmp in He. congruence.
Qed.

Lemma leb_refl x : ordered x -> PrimFloat.leb x x = true.
Proof. intros Ho. apply leb_fcmp. right. apply SFcompare_refl, Ho. Qed.

Lemma not_ltb_leb x y :
  ordered x -> ordered y -> PrimFloat.ltb x y = false -> PrimFloat.leb y x = true.
Proof.
  intros Hx Hy Hlt. apply leb_fcmp.
  destruct (SFcompare_total _ _ Hx Hy) as [c Hc].
  rewrite fcmp_antisym. unfold fcmp. rewrite Hc.
  destruct c; simpl; auto.
  exfalso. apply ltb_fcmp in Hc. congruence.
Qed.

Lemma leb_ltb_trans x y z :
  PrimFloat.leb x y = true -> PrimFloat.ltb y z = true -> PrimFloat.ltb x z = true.
Proof.
  rewrite leb_fcmp, !ltb_fcmp. intros [H1|H1] H2.
  - eapply SFcompare_Lt_trans; eauto.
  - eapply SFcompare_Eq_Lt_trans; eauto.
Qed.

Lemma ltb_leb_trans x y z :
  PrimFloat.ltb x y = true -> PrimFloat.leb y z = true -> PrimFloat.ltb x z = true.
Proof.
  rewrite leb_fcmp, !ltb_fcmp. intros H1 [H2|H2].
  - eapply SFcompare_Lt_trans; eauto.
  - eapply SFcompare_Lt_Eq_trans; eauto.
Qed.

End Binary64Order.

(** ** Auto-voiding on the table of scenario 4 *)

(** A table with one row per payout of [cents], in order, cost 1 and all
    weights 1; sim ids count from 1. *)
Definition tableOf (cost : float) (cents : list Z) : LookupTable float :=
  {| Cost := cost;
     Outcomes := map (fun '(i, c) => {| SimID := Z.of_nat (S i); Payout := c; Weight := 1 |})
                     (enumerate cents) |}.

(** Eight outcomes paying 5.0 and one loss, the loss in row [k]. *)
Definition eightFivesOneLoss (k : nat) : LookupTable float :=
  tableOf 1 (replicate k 500 ++ [0] ++ replicate (8 - k) 500).

(** The rows that win (payout above zero), in the order of the table. *)
Definition winningRows (pays : list float) : list nat :=
  map fst (List.filter (fun ip => PrimFloat.ltb 0 (snd ip)) (enumerate pays)).

Section Scenario4.
Local Existing Instance b64.

Let target : float := flit 1 1.

Let pays (k : nat) : list float := normalizedPayouts (eightFivesOneLoss k).
Let sims (k : nat) : list Z := map SimID (Outcomes (eightFivesOneLoss k)).
Let minRTP (k : nat) : float := calculateMinAchievableRTP (pays k).

(** Runs the two phases on the table of the goal and hands their results
    to the existential. *)
Ltac run_voiding :=
  lazymatch goal with
  | |- context [voidingPlan ?p ?s ?t ?m] =>
      let plan := eval vm_compute in (voidingPlan p s t m) in
      lazymatch plan with
      | Some (?r, ?pm, ?sp) =>
          let s1 := eval vm_compute in (voidPhase1 pm sp r noVoids) in
          lazymatch s1 with
          | Some ?st1 =>
              let s2 := eval vm_compute in (voidPhase2 pm sp r st1) in
              lazymatch s2 with
              | Some ?st2 =>
                  let l := eval vm_compute in (drop 7 (voidedOutcomes st2)) in
                  lazymatch l with
                  | [?vo] => exists r, pm, sp, st1, st2, vo
                  end
              end
          end
      end
  end.

(** C1 (as amended): wherever the loss row stands, phase 1 voids exactly 7
    of the 8 outcomes paying 5.0, each with reason "duplicate" and an RTP
    loss of 5/9, 3.89 in all: they are the winning rows but the first.
    That is still below the deficit of 4.34, so phase 2 voids the one
    outcome left, the first winning row, with reason "high_payout".  In
    the end the voided rows are the 8 winning rows, each once, the loss
    row is not among them, and every report carries the sim id of its
    row. *)
Theorem scenario4_duplicates_then_last_outcome :
  Forall (fun k =>
    exists rtpToRemove payoutMap sortedPayouts st1 st2 last,
      voidingPlan (pays k) (sims k) target (minRTP k)
        = Some (rtpToRemove, payoutMap, sortedPayouts) /\
      voidPhase1 payoutMap sortedPayouts rtpToRemove noVoids = Some st1 /\
      length (voidedOutcomes st1) = 7%nat /\
      Forall (fun vo => Reason vo = "duplicate" /\ voPayout vo = 5%float /\
                        RTPLoss vo = (5 / 9)%float) (voidedOutcomes st1) /\
      PrimFloat.ltb (flit 3888 3) (removedRTP st1) = true /\
      PrimFloat.ltb (removedRTP st1) (flit 3889 3) = true /\
      PrimFloat.ltb (removedRTP st1) rtpToRemove = true /\
      voidPhase2 payoutMap sortedPayouts rtpToRemove st1 = Some st2 /\
      voidedOutcomes st2 = voidedOutcomes st1 ++ [last] /\
      Reason last = "high_payout" /\ voPayout last = 5%float /\
      autoSelectOutcomesToVoid (pays k) (sims k) target (minRTP k)
        = Some (voidedIndices st2, voidedOutcomes st2) /\
      length (voidedIndices st2) = 8%nat /\
      length (winningRows (pays k)) = 8%nat /\
      voidedIndices st1 = drop 1 (winningRows (pays k)) /\
      voidedIndices st2 = drop 1 (winningRows (pays k)) ++ take 1 (winningRows (pays k)) /\
      (k ∉ voidedIndices st2) /\
      map (fun i => sims k !! i) (voidedIndices st2)
      = map (fun vo => Some (voSimID vo)) (voidedOutcomes st2) /\
      voidedIndices st2 ≡ₚ winningRows (pays k))
    (seq 0 9).
Proof.
  repeat (apply List.Forall_cons; [|try apply List.Forall_nil]);
    (cbv beta; run_voiding;
     repeat split; try (vm_compute; reflexivity);
     try (lazymatch goal with
          | |- ?l ≡ₚ ?w =>
              transitivity (drop 1 w ++ take 1 w);
              [vm_compute; reflexivity
              |rewrite Permutation_app_comm, take_drop; reflexivity]
          end);
     try (lazymatch goal with
          | |- _ ∉ _ =>
              let Hin := fresh "Hin" in
              intros Hin; apply list_elem_of_In in Hin; vm_compute in Hin;
              intuition discriminate
          end);
     repeat (apply List.Forall_cons; [repeat split; vm_compute; reflexivity|]);
     apply List.Forall_nil).
Qed.

(** C1, refuted as stated: on the table with the loss in the last row,
    phase 2 does not leave the result of phase 1 as it is. *)
Lemma scenario4_phase2_voids_more :
  ~ (forall rtpToRemove payoutMap sortedPayouts st1,
       voidingPlan (pays 8) (sims 8) target (minRTP 8)
         = Some (rtpToRemove, payoutMap, sortedPayouts) ->
       voidPhase1 payoutMap sortedPayouts rtpToRemove noVoids = Some st1 ->
       voidPhase2 payoutMap sortedPayouts rtpToRemove st1 = Some st1).
Proof.
  intros Hclaim.
  destruct (voidingPlan (pays 8) (sims 8) target (minRTP 8))
    as [[[r pm] sp]|] eqn:Hplan; [|vm_compute in Hplan; discriminate].
  destruct (voidPhase1 pm sp r noVoids) as [st1|] eqn:H1;
    [|vm_compute in Hplan; injection Hplan as <- <- <-; vm_compute in H1; discriminate].
  specialize (Hclaim _ _ _ _ eq_refl H1).
  vm_compute in Hplan. injection Hplan as <- <- <-.
  vm_compute in H1. injection H1 as <-.
  vm_compute in Hclaim. discriminate.
Qed.

End Scenario4.

(** ** The target_rtp knob *)

Section TargetKnob.
Variable pow : float -> float -> float.
Local Hint Extern 0 (Float64Ops float) => exact (binary64 pow) : typeclass_instances.

Lemma b64_fzero : fzero = 0%float.
Proof. reflexivity. Qed.

Lemma gt_one_positive (p : float) :
  PrimFloat.ltb 1 p = true -> PrimFloat.ltb 0 p = true /\ PrimFloat.ltb p 1 = false.
Proof.
  intros H1. split.
  - apply ltb_trans with (y := 1%float); [reflexivity|exact H1].
  - apply leb_not_ltb, ltb_leb, H1.
Qed.

(** C8 (as amended): HandleAnalyzeMode and HandleGenerateConfigsForMode
    use any parsed target above 0 as given, targets above 1 included, and
    HandleAnalyzeMode answers with the analysis for that very target;
    HandleSuggestBuckets uses the parsed target exactly when it lies
    strictly between 0 and 1, and its default 0.97 otherwise, which
    includes every target above 1 and a missing parameter. *)
Theorem target_rtp_by_entry_point
    (loader : string -> returned (LookupTable float)) (mode : string) (p : float) :
  mode <> "" ->
  (PrimFloat.ltb 0 p = true ->
   analyzeModeTargetRTP (Some p) = p /\
   generateConfigsForModeTargetRTP (Some p) = p /\
   HandleAnalyzeMode loader "GET" mode (Some p) =
     match AnalyzeMode loader mode p with
     | Err e => WriteError _ 404 ("failed to analyze mode: " ++ e)
     | Ok analysis => WriteSuccess _ analysis
     end) /\
  (PrimFloat.ltb 0 p = true -> PrimFloat.ltb p 1 = true ->
   suggestBucketsTargetRTP (Some p) = p) /\
  (PrimFloat.ltb 0 p = false \/ PrimFloat.ltb p 1 = false ->
   suggestBucketsTargetRTP (Some p) = flit 97 2) /\
  suggestBucketsTargetRTP None = flit 97 2 /\
  (PrimFloat.ltb 1 p = true ->
   PrimFloat.ltb 0 p = true /\ suggestBucketsTargetRTP (Some p) = flit 97 2).
Proof.
  intros Hmode.
  assert (Hsuggest : suggestBucketsTargetRTP (Some p)
                     = if PrimFloat.ltb 0 p && PrimFloat.ltb p 1 then p else flit 97 2)
    by reflexivity.
  split; [|split; [|split; [|split; [reflexivity|]]]].
  - intros H0.
    assert (Ha : analyzeModeTargetRTP (Some p) = p).
    { unfold analyzeModeTargetRTP. rewrite b64_fzero. simpl. rewrite H0. reflexivity. }
    split; [exact Ha|]. split; [exact Ha|].
    unfold HandleAnalyzeMode. rewrite Ha.
    destruct (String.eqb mode "") eqn:He; [|reflexivity].
    apply String.eqb_eq in He. contradiction.
  - intros H0 H1. rewrite Hsuggest, H0, H1. reflexivity.
  - intros [H0|H1]; rewrite Hsuggest.
    + rewrite H0. reflexivity.
    + rewrite H1, andb_false_r. reflexivity.
  - intros Hp. destruct (gt_one_positive p Hp) as [H0 H1].
    split; [exact H0|]. rewrite Hsuggest, H0, H1. reflexivity.
Qed.

End TargetKnob.

Lemma target_rtp_by_entry_point_witness :
  PrimFloat.ltb 0 12 = true /\
  @analyzeModeTargetRTP float b64 (Some 12%float) = 12%float /\
  @generateConfigsForModeTargetRTP float b64 (Some 12%float) = 12%float /\
  @suggestBucketsTargetRTP float b64 (Some 12%float) = @flit float b64 97 2.
Proof.
  split; [reflexivity|].
  destruct (target_rtp_by_entry_point pow_special (fun _ => Err "no such mode") "base"
              12%float) as (Hanalyze & _ & _ & _ & Habove); [discriminate|].
  destruct (Hanalyze eq_refl) as (Ha & Hg & _).
  destruct (Habove eq_refl) as [_ Hs].
  split; [exact Ha|]. split; [exact Hg|exact Hs].
Defined.

(** C8, refuted as stated: HandleSuggestBuckets does not use a target of
    1.5 as given. *)
Lemma suggest_buckets_rejects_target_above_one :
  @suggestBucketsTargetRTP float b64 (Some (3 / 2)%float) <> (3 / 2)%float.
Proof.
  intros H. apply (f_equal (fun x => PrimFloat.ltb x 1)) in H.
  vm_compute in H. discriminate.
Qed.

(** ** Watcher debounce *)

Section Debounce.
Variable Base : string -> string.

Lemma reloadCalls_at_most_one polls task : (length (reloadCalls polls task) <= 1)%nat.
Proof.
  unfold reloadCalls. destruct task; simpl; [|lia].
  destruct (waitForFileStable _ _ _); simpl; lia.
Qed.

Lemma handleEvent_dropped_state fw e t :
  snd (handleEvent Base fw e t) = None -> fst (handleEvent Base fw e t) = fw.
Proof.
  unfold handleEvent.
  destruct (negb (enabled fw)); [reflexivity|].
  destruct (negb (Has e OpWrite) && negb (Has e OpCreate)); [reflexivity|].
  destruct (files fw !! Base (evName e)); [|reflexivity].
  destruct (lastChange fw !! Base (evName e)); [|discriminate].
  destruct (time_Sub t z <? debounce fw); [reflexivity|discriminate].
Qed.

Lemma handleEvent_accepted fw e t fw1 task :
  handleEvent Base fw e t = (fw1, Some task) ->
  enabled fw1 = true /\ debounce fw1 = debounce fw /\
  lastChange fw1 !! Base (evName e) = Some t.
Proof.
  unfold handleEvent.
  destruct (enabled fw) eqn:Hen; simpl; [|discriminate].
  destruct (negb (Has e OpWrite) && negb (Has e OpCreate)); [discriminate|].
  destruct (files fw !! Base (evName e)); [|discriminate].
  destruct (lastChange fw !! Base (evName e)).
  - destruct (time_Sub t z <? debounce fw); [discriminate|].
    intros [= <- _]. simpl. rewrite lookup_insert_eq. auto.
  - intros [= <- _]. simpl. rewrite lookup_insert_eq. auto.
Qed.

Lemma handleEvent_within_debounce fw e t t0 :
  lastChange fw !! Base (evName e) = Some t0 ->
  0 <= t - t0 < debounce fw ->
  handleEvent Base fw e t = (fw, None).
Proof.
  intros Hlast Hwin. unfold handleEvent.
  destruct (negb (enabled fw)); [reflexivity|].
  destruct (negb (Has e OpWrite) && negb (Has e OpCreate)); [reflexivity|].
  destruct (files fw !! Base (evName e)); [|reflexivity].
  rewrite Hlast.
  assert (Hlt : (time_Sub t t0 <? debounce fw) = true).
  { apply Z.ltb_lt. unfold time_Sub. lia. }
  rewrite Hlt. reflexivity.
Qed.

(** C9: an event for the same file that arrives less than [debounce] after
    an accepted one is dropped (no goroutine, state unchanged); and
    whatever the state two such events start from, the goroutines they
    start make at most one reload callback between them. *)
Theorem debounce_at_most_one_reload (fw : FileWatcher) (e1 e2 : Event) (t1 t2 : Z)
    (polls1 polls2 : list (Z * option Z)) :
  Base (evName e2) = Base (evName e1) ->
  0 <= t2 - t1 < debounce fw ->
  let r1 := handleEvent Base fw e1 t1 in
  let r2 := handleEvent Base (fst r1) e2 t2 in
  (is_Some (snd r1) -> r2 = (fst r1, None)) /\
  (length (reloadCalls polls1 (snd r1) ++ reloadCalls polls2 (snd r2)) <= 1)%nat.
Proof.
  intros Hsame Hwin r1 r2.
  assert (Hdrop : is_Some (snd r1) -> r2 = (fst r1, None)).
  { intros [task Htask]. subst r2.
    destruct r1 as [fw1 k1] eqn:Hr1. simpl in *. subst k1.
    destruct (handleEvent_accepted _ _ _ _ _ Hr1) as (_ & Hdeb & Hlast).
    apply handleEvent_within_debounce with (t0 := t1).
    - rewrite Hsame. exact Hlast.
    - rewrite Hdeb. exact Hwin. }
  split; [exact Hdrop|].
  rewrite length_app.
  destruct (snd r1) as [task|] eqn:Hk1.
  - rewrite (Hdrop (ltac:(eauto))). simpl.
    pose proof (reloadCalls_at_most_one polls1 (Some task)). simpl in *. lia.
  - simpl. apply reloadCalls_at_most_one.
Qed.

End Debounce.

Definition trackedWatcher : FileWatcher :=
  NewFileWatcher "data" {[ "lookUpTable_base_0.csv" := "base" ]}.

Definition writeEvent : Event :=
  {| evName := "lookUpTable_base_0.csv"; evOp := OpWrite |}.

Lemma debounce_at_most_one_reload_witness :
  handleEvent (fun s => s) trackedWatcher writeEvent 0
    = (fst (handleEvent (fun s => s) trackedWatcher writeEvent 0),
       Some {| rtMode := "base"; rtFile := "lookUpTable_base_0.csv";
               rtPath := "lookUpTable_base_0.csv" |}) /\
  handleEvent (fun s => s) (fst (handleEvent (fun s => s) trackedWatcher writeEvent 0))
    writeEvent (500 * millisecond)
    = (fst (handleEvent (fun s => s) trackedWatcher writeEvent 0), None).
Proof.
  split; [reflexivity|].
  apply (debounce_at_most_one_reload (fun s => s) trackedWatcher writeEvent writeEvent
           0 (500 * millisecond) [] []).
  - reflexivity.
  - vm_compute. split; [discriminate|reflexivity].
  - vm_compute. eauto.
Defined.

(** ** The analyzer's RTP bounds and feasibility *)

(** The normalized payouts of the winning outcomes, in table order. *)
Definition winningPayouts `{Float64Ops float} (table : LookupTable float) : list float :=
  List.filter (fun p => PrimFloat.ltb 0 p) (normalizedPayouts table).

Definition is_minimum (m : float) (l : list float) : Prop :=
  In m l /\ forall x, In x l -> PrimFloat.leb m x = true.

Definition is_maximum (m : float) (l : list float) : Prop :=
  In m l /\ forall x, In x l -> PrimFloat.leb x m = true.

Section AnalyzerBounds.
Variable pow : float -> float -> float.
Local Hint Extern 0 (Float64Ops float) => exact (binary64 pow) : typeclass_instances.

Lemma ordered_MaxFloat64 : ordered b64_MaxFloat64.
Proof. unfold ordered. vm_compute. discriminate. Qed.

Lemma statStep_win st p :
  PrimFloat.ltb 0 p = true ->
  statStep st p =
    {| winPayouts := winPayouts st ++ [p];
       minPay := if PrimFloat.ltb p (minPay st) then p else minPay st;
       maxPay := if PrimFloat.ltb (maxPay st) p then p else maxPay st;
       sumPay := PrimFloat.add (sumPay st) p;
       sumSq := PrimFloat.add (sumSq st) (PrimFloat.mul p p) |}.
Proof.
  intros Hp. unfold statStep. rewrite b64_fzero. simpl. rewrite Hp. reflexivity.
Qed.

Lemma statStep_loss st p : PrimFloat.ltb 0 p = false -> statStep st p = st.
Proof.
  intros Hp. unfold statStep. rewrite b64_fzero. simpl. rewrite Hp. reflexivity.
Qed.

(** What the loop knows about its accumulators after any prefix. *)
Definition statsInv (st : payStats float) : Prop :=
  Forall (fun x => PrimFloat.ltb 0 x = true) (winPayouts st) /\
  ((maxPay st = 0%float /\ winPayouts st = []) \/ is_maximum (maxPay st) (winPayouts st)) /\
  ((minPay st = b64_MaxFloat64 /\
    forall x, In x (winPayouts st) -> PrimFloat.ltb x b64_MaxFloat64 = false) \/
   (is_minimum (minPay st) (winPayouts st) /\
    PrimFloat.ltb (minPay st) b64_MaxFloat64 = true)).

Lemma statsInv_step st p : statsInv st -> statsInv (statStep st p).
Proof.
  intros (Hpos & Hmax & Hmin).
  destruct (PrimFloat.ltb 0 p) eqn:Hp.
  2:{ rewrite statStep_loss by exact Hp. repeat split; assumption. }
  rewrite statStep_win by exact Hp.
  assert (Hop : ordered p) by (eapply ltb_ordered_r; exact Hp).
  assert (Hord : forall x, In x (winPayouts st) -> ordered x).
  { intros x Hx. rewrite List.Forall_forall in Hpos.
    eapply ltb_ordered_r. apply Hpos, Hx. }
  unfold statsInv; simpl. split; [|split].
  - apply List.Forall_app. split; [exact Hpos|]. constructor; [exact Hp|constructor].
  - right. destruct Hmax as [[H0 Hnil]|[Hin Hle]].
    + rewrite H0, Hnil, Hp. simpl. split; [left; reflexivity|].
      intros x [<-|[]]. apply leb_refl, Hop.
    + destruct (PrimFloat.ltb (maxPay st) p) eqn:Hlt; split.
      * apply in_or_app. right. left. reflexivity.
      * intros x Hx. apply in_app_or in Hx. destruct Hx as [Hx|[<-|[]]].
        -- apply ltb_leb. eapply leb_ltb_trans; [apply Hle, Hx|exact Hlt].
        -- apply leb_refl, Hop.
      * apply in_or_app. left. exact Hin.
      * intros x Hx. apply in_app_or in Hx. destruct Hx as [Hx|[<-|[]]].
        -- apply Hle, Hx.
        -- apply not_ltb_leb; [apply Hord, Hin|exact Hop|exact Hlt].
  - destruct Hmin as [[HM Hno]|[[Hin Hle] HltM]].
    + rewrite HM. destruct (PrimFloat.ltb p b64_MaxFloat64) eqn:Hlt.
      * right. split; [split|exact Hlt].
        -- apply in_or_app. right. left. reflexivity.
        -- intros x Hx. apply in_app_or in Hx. destruct Hx as [Hx|[<-|[]]].
           ++ apply ltb_leb. eapply ltb_leb_trans; [exact Hlt|].
              apply not_ltb_leb; [apply Hord, Hx|apply ordered_MaxFloat64|apply Hno, Hx].
           ++ apply leb_refl, Hop.
      * left. split; [reflexivity|].
        intros x Hx. apply in_app_or in Hx. destruct Hx as [Hx|[<-|[]]].
        -- apply Hno, Hx.
        -- exact Hlt.
    + right. destruct (PrimFloat.ltb p (minPay st)) eqn:Hlt.
      * split; [split|].
        -- apply in_or_app. right. left. reflexivity.
        -- intros x Hx. apply in_app_or in Hx. destruct Hx as [Hx|[<-|[]]].
           ++ apply ltb_leb. eapply ltb_leb_trans; [exact Hlt|apply Hle, Hx].
           ++ apply leb_refl, Hop.
        -- eapply ltb_trans; [exact Hlt|exact HltM].
      * split; [split|exact HltM].
        -- apply in_or_app. left. exact Hin.
        -- intros x Hx. apply in_app_or in Hx. destruct Hx as [Hx|[<-|[]]].
           ++ apply Hle, Hx.
           ++ apply not_ltb_leb; [exact Hop|apply Hord, Hin|exact Hlt].
Qed.

Lemma statsInv_fold pays st : statsInv st -> statsInv (fold_left statStep pays st).
Proof.
  revert st. induction pays as [|p pays IH]; intros st Hst; simpl; [exact Hst|].
  apply IH, statsInv_step, Hst.
Qed.

Lemma winPayouts_fold pays st :
  winPayouts (fold_left statStep pays st) =
  winPayouts st ++ List.filter (fun p => PrimFloat.ltb 0 p) pays.
Proof.
  revert st. induction pays as [|p pays IH]; intros st; simpl.
  - rewrite app_nil_r. reflexivity.
  - rewrite IH. destruct (PrimFloat.ltb 0 p) eqn:Hp.
    + rewrite statStep_win by exact Hp. simpl. rewrite <- app_assoc. reflexivity.
    + rewrite statStep_loss by exact Hp. reflexivity.
Qed.

Lemma collectStats_spec (table : LookupTable float) :
  let st := collectStats (normalizedPayouts table) in
  winPayouts st = winningPayouts table /\ statsInv st.
Proof.
  split.
  - unfold collectStats. rewrite winPayouts_fold. reflexivity.
  - apply statsInv_fold. unfold statsInv; simpl.
    split; [constructor|]. split; left; split; try reflexivity.
    intros x [].
Qed.

(** C7 (as amended): when some winning outcome pays less than
    math.MaxFloat64, the analysis exists, its [min_achievable_rtp] and
    [max_achievable_rtp] are the least and the greatest normalized winning
    payout, [feasible] is [min <= target <= max], and an infeasible
    analysis suggests [max * 0.95] when the target exceeds the maximum
    and [min * 1.05] otherwise. *)
Theorem analyzer_bounds_and_feasibility (table : LookupTable float) (mode : string)
    (target : float) :
  (exists w, In w (winningPayouts table) /\ PrimFloat.ltb w b64_MaxFloat64 = true) ->
  exists a,
    AnalyzeTable table mode target = Ok a /\
    is_minimum (MinAchievableRTP a) (winningPayouts table) /\
    is_maximum (MaxAchievableRTP a) (winningPayouts table) /\
    Feasible a = PrimFloat.leb (MinAchievableRTP a) target
                 && PrimFloat.leb target (MaxAchievableRTP a) /\
    (Feasible a = false ->
     SuggestedRTP a =
       if PrimFloat.ltb (MaxAchievableRTP a) target
       then PrimFloat.mul (MaxAchievableRTP a) (flit 95 2)
       else PrimFloat.mul (MinAchievableRTP a) (flit 105 2)).
Proof.
  intros (w & Hw & HwM).
  destruct (collectStats_spec table) as [Hwin (Hpos & Hmax & Hmin)].
  set (st := collectStats (normalizedPayouts table)) in *.
  assert (Hne : winPayouts st <> []) by (rewrite Hwin; intros E; rewrite E in Hw; destruct Hw).
  assert (Hout : (length (Outcomes table) =? 0)%nat = false).
  { apply Nat.eqb_neq. intros E. apply Hne. rewrite Hwin.
    unfold winningPayouts, normalizedPayouts.
    destruct (Outcomes table); [reflexivity|discriminate]. }
  assert (Hlen : (length (winPayouts st) =? 0)%nat = false).
  { apply Nat.eqb_neq. destruct (winPayouts st); [congruence|discriminate]. }
  destruct Hmax as [[_ Hnil]|Hmax]; [congruence|].
  destruct Hmin as [[_ Hno]|[Hmin HltM]].
  { rewrite Hwin in Hno. rewrite (Hno w Hw) in HwM. discriminate. }
  assert (Hsent : PrimFloat.eqb (minPay st) b64_MaxFloat64 = false)
    by (apply ltb_not_eqb, HltM).
  unfold AnalyzeTable. rewrite Hout. fold st. rewrite Hlen. simpl.
  rewrite Hsent. eexists. split; [reflexivity|]. simpl.
  rewrite <- Hwin. split; [exact Hmin|]. split; [exact Hmax|]. split; [reflexivity|].
  intros Hf. rewrite Hf. reflexivity.
Qed.

End AnalyzerBounds.

(** One winning row of 2.00 at a spin cost of 2^-1030: its normalized
    payout overflows to +Inf. *)
Definition overflowTable : LookupTable float := tableOf 0x1p-1030%float [200].

Lemma analyzer_bounds_and_feasibility_witness :
  (exists w, In w (@winningPayouts b64 (tableOf 1 [0; 200; 500])) /\
             PrimFloat.ltb w b64_MaxFloat64 = true) /\
  exists a,
    @AnalyzeTable float b64 (tableOf 1 [0; 200; 500]) "base" (@flit float b64 96 2) = Ok a /\
    MinAchievableRTP a = 2%float /\ MaxAchievableRTP a = 5%float /\ Feasible a = false.
Proof.
  assert (Hw : exists w, In w (@winningPayouts b64 (tableOf 1 [0; 200; 500])) /\
                         PrimFloat.ltb w b64_MaxFloat64 = true).
  { exists 2%float. split; [left; reflexivity|reflexivity]. }
  split; [exact Hw|].
  destruct (analyzer_bounds_and_feasibility pow_special (tableOf 1 [0; 200; 500]) "base"
              (@flit float b64 96 2) Hw) as (a & Ha & _).
  exists a. split; [exact Ha|].
  vm_compute in Ha. injection Ha as <-. repeat split; reflexivity.
Defined.

(** C7, refuted as stated: the table has a winning outcome, its only
    winning payout is +Inf, and the analysis reports a minimum of 0. *)
Lemma analyzer_minimum_on_overflow :
  @winningPayouts b64 overflowTable = [infinity] /\
  ~ (forall a, @AnalyzeTable float b64 overflowTable "base" (@flit float b64 96 2) = Ok a ->
               is_minimum (MinAchievableRTP a) (@winningPayouts b64 overflowTable)).
Proof.
  split; [reflexivity|].
  intros Hclaim.
  destruct (@AnalyzeTable float b64 overflowTable "base" (@flit float b64 96 2)) as [a|] eqn:Ha;
    [|vm_compute in Ha; discriminate].
  destruct (Hclaim a eq_refl) as [Hin _].
  vm_compute in Ha. injection Ha as <-.
  vm_compute in Hin. destruct Hin as [Hin|[]].
  apply (f_equal (fun x => PrimFloat.ltb x 1)) in Hin. vm_compute in Hin. discriminate.
Qed.

(** ** Loops that store into a slice *)

Section StoreLoops.
Context {A S : Type}.

Lemma foldM_app (f : S -> A -> option S) (l1 l2 : list A) (s : S) :
  foldM f (l1 ++ l2) s =
  match foldM f l1 s with Some s' => foldM f l2 s' | None => None end.
Proof.
  revert s. induction l1 as [|a l1 IH]; intros s; simpl; [reflexivity|].
  destruct (f s a); [apply IH|reflexivity].
Qed.

(** A property every successful step keeps holds after the loop. *)
Lemma foldM_invariant (P : S -> Prop) (f : S -> A -> option S) (l : list A) :
  (forall s a s', a ∈ l -> P s -> f s a = Some s' -> P s') ->
  forall s s', P s -> foldM f l s = Some s' -> P s'.
Proof.
  induction l as [|a l IH]; intros Hstep s s' Hs Hrun; simpl in Hrun.
  - injection Hrun as <-. exact Hs.
  - destruct (f s a) as [s1|] eqn:Hf; [|discriminate].
    apply (IH (fun s0 a0 s0' Ha => Hstep s0 a0 s0' (list_elem_of_further _ _ _ Ha)) s1 s');
      [|exact Hrun].
    eapply Hstep; [apply list_elem_of_here|exact Hs|exact Hf].
Qed.

(** Steps that never panic make a loop that never panics. *)
Lemma foldM_total (P : S -> Prop) (f : S -> A -> option S) (l : list A) :
  (forall s a, a ∈ l -> P s -> exists s', f s a = Some s' /\ P s') ->
  forall s, P s -> exists s', foldM f l s = Some s' /\ P s'.
Proof.
  induction l as [|a l IH]; intros Hstep s Hs; simpl.
  - eauto.
  - destruct (Hstep s a (list_elem_of_here _ _) Hs) as (s1 & -> & Hs1).
    apply IH; [|exact Hs1].
    intros s0 a0 Ha. apply Hstep. apply list_elem_of_further, Ha.
Qed.

End StoreLoops.

Lemma store_Some {A} (l l' : list A) (i : nat) (x : A) :
  store l i x = Some l' -> (i < length l)%nat /\ l' = <[i := x]> l.
Proof.
  unfold store. destruct (decide (i < length l)%nat); [|discriminate].
  intros [= <-]. auto.
Qed.

Lemma store_lt {A} (l : list A) (i : nat) (x : A) :
  (i < length l)%nat -> store l i x = Some (<[i := x]> l).
Proof.
  intros Hi. unfold store. destruct (decide (i < length l)%nat); [reflexivity|lia].
Qed.

(** A loop [for x in l { ws[key x] = val x }] that ran to its end: every
    key was in range, the slots outside the keys are untouched, and each
    key's slot holds the value of one of the entries with that key. *)
Lemma foldM_store_spec {X} (key : X -> nat) (val : X -> Z)
    (f : list Z -> X -> option (list Z)) :
  (forall ws x, f ws x = store ws (key x) (val x)) ->
  forall (l : list X) (ws ws' : list Z),
    foldM f l ws = Some ws' ->
    length ws' = length ws /\
    (forall x, x ∈ l -> (key x < length ws)%nat) /\
    forall i,
      (i ∉ key <$> l -> ws' !! i = ws !! i) /\
      (i ∈ key <$> l -> exists x, x ∈ l /\ key x = i /\ ws' !! i = Some (val x)).
Proof.
  intros Hf. induction l as [|a l IH]; intros ws ws' Hrun; simpl in Hrun.
  - injection Hrun as <-. split; [reflexivity|]. split.
    + intros x Hx. inversion Hx.
    + intros i. split; [reflexivity|]. intros Hi. inversion Hi.
  - rewrite Hf in Hrun. destruct (store ws (key a) (val a)) as [ws1|] eqn:Hst; [|discriminate].
    apply store_Some in Hst. destruct Hst as [Hlt ->].
    destruct (IH _ _ Hrun) as (Hlen & Hkeys & Hval).
    rewrite length_insert in Hlen, Hkeys.
    split; [exact Hlen|]. split.
    + intros x Hx. apply elem_of_cons in Hx. destruct Hx as [->|Hx]; [exact Hlt|].
      apply Hkeys, Hx.
    + intros i. rewrite fmap_cons. split.
      * intros Hni. apply not_elem_of_cons in Hni. destruct Hni as [Hne Hni].
        destruct (Hval i) as [Hsame _]. rewrite (Hsame Hni).
        apply list_lookup_insert_ne. congruence.
      * intros Hi. destruct (decide (i ∈ key <$> l)) as [Hin|Hnin].
        -- destruct (Hval i) as [_ Hex]. destruct (Hex Hin) as (x & Hx & Hk & Hv).
           exists x. split; [apply list_elem_of_further, Hx|auto].
        -- apply elem_of_cons in Hi. destruct Hi as [->|Hi]; [|contradiction].
           exists a. split; [apply list_elem_of_here|]. split; [reflexivity|].
           destruct (Hval (key a)) as [Hsame _]. rewrite (Hsame Hnin).
           apply list_lookup_insert_eq, Hlt.
Qed.

Lemma foldM_store_total {X} (key : X -> nat) (val : X -> Z)
    (f : list Z -> X -> option (list Z)) :
  (forall ws x, f ws x = store ws (key x) (val x)) ->
  forall (l : list X) (ws : list Z),
    (forall x, x ∈ l -> (key x < length ws)%nat) ->
    is_Some (foldM f l ws).
Proof.
  intros Hf l ws Hkeys.
  destruct (foldM_total (fun ws0 : list Z => length ws0 = length ws) f l) with (s := ws)
    as (ws' & Hrun & _); [|reflexivity|eauto].
  intros ws0 a Ha Hlen. rewrite Hf, store_lt by (rewrite Hlen; apply Hkeys, Ha).
  eexists. split; [reflexivity|]. rewrite length_insert. exact Hlen.
Qed.

(** [for i, x := range l]: the pairs of an enumeration that starts at [k]. *)
Lemma elem_of_enumerate_from {A} (l : list A) (k i : nat) (x : A) :
  (i, x) ∈ combine (seq k (length l)) l <-> (k <= i)%nat /\ l !! (i - k)%nat = Some x.
Proof.
  revert k. induction l as [|a l IH]; intros k; simpl.
  - split; [intros H; inversion H|intros [_ H]; discriminate].
  - rewrite elem_of_cons, IH. split.
    + intros [[= -> ->]|[Hk Hl]].
      * split; [lia|]. replace (k - k)%nat with 0%nat by lia. reflexivity.
      * split; [lia|]. replace (i - k)%nat with (S (i - S k)) by lia. exact Hl.
    + intros [Hk Hl]. destruct (decide (i = k)) as [->|Hne].
      * left. replace (k - k)%nat with 0%nat in Hl by lia. simpl in Hl. congruence.
      * right. split; [lia|].
        replace (i - k)%nat with (S (i - S k)) in Hl by lia. exact Hl.
Qed.

Lemma elem_of_enumerate {A} (l : list A) (i : nat) (x : A) :
  (i, x) ∈ enumerate l <-> l !! i = Some x.
Proof.
  unfold enumerate. rewrite elem_of_enumerate_from.
  replace (i - 0)%nat with i by lia. split; [tauto|]. split; [lia|assumption].
Qed.

(** ** Bucket assignment *)

Section AssignFacts.
Context {F : Type} `{Float64Ops F}.

(** The outcome indices held by bucket [j]. *)
Definition indicesOf (asg : list (bucketAssignment F)) (j : nat) : list nat :=
  match asg !! j with
  | Some b => outcomeIndices b
  | None => []
  end.

(** The rows of [entries] that [assignOutcomesToBuckets] sends to bucket
    [j] of [cs], in order. *)
Definition rowsOfBucket (cs : list (BucketConfig F)) (j : nat) (entries : list (nat * F))
  : list nat :=
  fst <$> filter (fun ip => fleb (snd ip) fzero = false /\ targetBucket cs (snd ip) = j)
                 entries.

Definition lossRows (entries : list (nat * F)) : list nat :=
  fst <$> filter (fun ip => fleb (snd ip) fzero = true) entries.

Lemma assignTo_spec asg j i p asg' :
  assignTo asg j i p = Some asg' ->
  (j < length asg)%nat /\
  config <$> asg' = config <$> asg /\
  forall j', indicesOf asg' j' = indicesOf asg j' ++ (if decide (j' = j) then [i] else []).
Proof.
  unfold assignTo. destruct (asg !! j) as [b|] eqn:Hb; [|discriminate].
  intros [= <-]. split; [eapply lookup_lt_Some; exact Hb|]. split.
  - rewrite list_fmap_insert. simpl. apply list_insert_id.
    rewrite list_lookup_fmap, Hb. reflexivity.
  - intros j'. unfold indicesOf. destruct (decide (j' = j)) as [->|Hne].
    + rewrite list_lookup_insert_eq by (eapply lookup_lt_Some; exact Hb).
      rewrite Hb. reflexivity.
    + rewrite list_lookup_insert_ne by congruence. rewrite app_nil_r. reflexivity.
Qed.

Lemma assign_fold_spec entries : forall asg loss asg' loss',
  foldM assignOutcome entries (asg, loss) = Some (asg', loss') ->
  config <$> asg' = config <$> asg /\
  (forall j, indicesOf asg' j = indicesOf asg j ++ rowsOfBucket (config <$> asg) j entries) /\
  loss' = loss ++ lossRows entries.
Proof.
  induction entries as [|[i p] entries IH]; intros asg loss asg' loss' Hrun; simpl in Hrun.
  - injection Hrun as <- <-. split; [reflexivity|]. split.
    + intros j. unfold rowsOfBucket. simpl. rewrite app_nil_r. reflexivity.
    + unfold lossRows. simpl. rewrite app_nil_r. reflexivity.
  - unfold assignOutcome in Hrun at 1. simpl in Hrun.
    destruct (fleb p fzero) eqn:Hp.
    + apply IH in Hrun. destruct Hrun as (Hc & Hi & Hl).
      split; [exact Hc|]. split.
      * intros j. rewrite Hi. unfold rowsOfBucket. rewrite filter_cons. simpl.
        rewrite Hp. case_decide as Hd; [destruct Hd; discriminate|reflexivity].
      * rewrite Hl. unfold lossRows. rewrite filter_cons. simpl. rewrite Hp.
        case_decide as Hd; [|congruence].
        rewrite fmap_cons, <- app_assoc. reflexivity.
    + destruct (assignTo asg (targetBucket (map config asg) p) i p) as [asg1|] eqn:Ha;
        [|discriminate].
      apply assignTo_spec in Ha. destruct Ha as (_ & Hc1 & Hi1).
      apply IH in Hrun. destruct Hrun as (Hc & Hi & Hl). rewrite Hc1 in Hc, Hi.
      split; [exact Hc|]. split.
      * intros j. rewrite Hi, Hi1. unfold rowsOfBucket. rewrite filter_cons. simpl.
        rewrite Hp. change (map config asg) with (config <$> asg).
        destruct (decide (j = targetBucket (config <$> asg) p)) as [->|Hne].
        -- case_decide as Hd; [|exfalso; apply Hd; auto].
           rewrite fmap_cons, <- app_assoc. reflexivity.
        -- case_decide as Hd; [destruct Hd; congruence|].
           rewrite app_nil_r. reflexivity.
      * rewrite Hl. unfold lossRows. rewrite filter_cons. simpl. rewrite Hp.
        case_decide as Hd; [discriminate|reflexivity].
Qed.

(** Both searches answer with an index of the list they search. *)
Lemma firstInRange_lt nb p : forall (cs : list (BucketConfig F)) k j,
  firstInRange nb (combine (seq k (length cs)) cs) p = Some j ->
  (k <= j < k + length cs)%nat.
Proof.
  induction cs as [|c cs IH]; intros k j; simpl; [discriminate|].
  destruct (inRange nb k c p).
  - intros [= <-]. lia.
  - intros Hj. apply IH in Hj. lia.
Qed.

Lemma closestBucket_fold_lt p : forall (cs : list (BucketConfig F)) k best n,
  (fst best < n)%nat -> (k + length cs <= n)%nat ->
  (fst (fold_left (closerBucket p) (combine (seq k (length cs)) cs) best) < n)%nat.
Proof.
  induction cs as [|c cs IH]; intros k best n Hb Hn; simpl; [exact Hb|].
  simpl in Hn. apply IH; [|lia].
  unfold closerBucket. simpl. destruct (fltb _ _); simpl; lia.
Qed.

Lemma targetBucket_lt (cs : list (BucketConfig F)) p :
  cs <> [] -> (targetBucket cs p < length cs)%nat.
Proof.
  intros Hne. assert (0 < length cs)%nat by (destruct cs; [congruence|simpl; lia]).
  unfold targetBucket. destruct (firstInRange _ _ _) as [j|] eqn:Hj.
  - apply firstInRange_lt in Hj. lia.
  - unfold closestBucket, enumerate. apply closestBucket_fold_lt; simpl; lia.
Qed.

Lemma assign_fold_total entries : forall asg loss,
  asg <> [] -> is_Some (foldM assignOutcome entries (asg, loss)).
Proof.
  intros asg loss Hne.
  destruct (foldM_total (fun st : list (bucketAssignment F) * list nat => fst st <> [])
              assignOutcome entries) with (s := (asg, loss))
    as (st & Hst & _); [|exact Hne|eauto].
  intros [asg0 loss0] [i p] _ Hne0. simpl in Hne0. unfold assignOutcome. simpl.
  destruct (fleb p fzero); [eauto|].
  unfold assignTo. change (map config asg0) with (config <$> asg0).
  assert (Hlt : (targetBucket (config <$> asg0) p < length asg0)%nat).
  { rewrite <- (length_fmap config). apply targetBucket_lt.
    destruct asg0; [congruence|discriminate]. }
  destruct (lookup_lt_is_Some_2 _ _ Hlt) as [b ->].
  eexists. split; [reflexivity|]. simpl.
  intros E. apply (f_equal length) in E. rewrite length_insert in E.
  destruct asg0; [congruence|discriminate].
Qed.

Lemma indicesOf_setAvgPayout asg j :
  indicesOf (map setAvgPayout asg) j = indicesOf asg j.
Proof.
  unfold indicesOf. change (map setAvgPayout asg) with (setAvgPayout <$> asg).
  rewrite list_lookup_fmap. destruct (asg !! j) as [b|]; simpl; [|reflexivity].
  unfold setAvgPayout. destruct (0 <? length (payouts b))%nat; reflexivity.
Qed.

Lemma config_setAvgPayout (asg : list (bucketAssignment F)) :
  config <$> map setAvgPayout asg = config <$> asg.
Proof.
  change (map setAvgPayout asg) with (setAvgPayout <$> asg).
  rewrite <- list_fmap_compose. apply list_fmap_ext. intros _ b _. simpl.
  unfold setAvgPayout. destruct (0 <? length (payouts b))%nat; reflexivity.
Qed.

Lemma indicesOf_empty (cs : list (BucketConfig F)) j :
  indicesOf (map emptyAssignment cs) j = [].
Proof.
  unfold indicesOf. change (map emptyAssignment cs) with (emptyAssignment <$> cs).
  rewrite list_lookup_fmap. destruct (cs !! j); reflexivity.
Qed.

(** What [assignOutcomesToBuckets] returns, in closed form. *)
Lemma assignOutcomesToBuckets_spec cfg pays asg lossIndices :
  assignOutcomesToBuckets cfg pays = Some (asg, lossIndices) ->
  config <$> asg = Buckets cfg /\
  (forall j, indicesOf asg j = rowsOfBucket (Buckets cfg) j (enumerate pays)) /\
  lossIndices = lossRows (enumerate pays).
Proof.
  unfold assignOutcomesToBuckets.
  destruct (foldM _ _ _) as [[asg0 loss0]|] eqn:Hrun; [|discriminate].
  intros [= <- <-]. apply assign_fold_spec in Hrun.
  assert (Hcs : config <$> map emptyAssignment (Buckets cfg) = Buckets cfg).
  { change (map emptyAssignment (Buckets cfg)) with (emptyAssignment <$> Buckets cfg).
    rewrite <- list_fmap_compose. rewrite <- (list_fmap_id (Buckets cfg)) at 2.
    apply list_fmap_ext. reflexivity. }
  destruct Hrun as (Hc & Hi & Hl). rewrite Hcs in Hc, Hi.
  split; [rewrite config_setAvgPayout; exact Hc|]. split.
  - intros j. rewrite indicesOf_setAvgPayout, Hi, indicesOf_empty. reflexivity.
  - exact Hl.
Qed.

Lemma assignOutcomesToBuckets_total cfg pays :
  Buckets cfg <> [] -> is_Some (assignOutcomesToBuckets cfg pays).
Proof.
  intros Hne. unfold assignOutcomesToBuckets.
  destruct (assign_fold_total (enumerate pays) (map emptyAssignment (Buckets cfg)) [])
    as [[asg loss] ->]; [|eauto].
  destruct (Buckets cfg); [congruence|discriminate].
Qed.

(** Membership in the closed forms. *)
Lemma elem_of_rowsOfBucket cs j pays i :
  i ∈ rowsOfBucket cs j (enumerate pays) <->
  exists p, pays !! i = Some p /\ fleb p fzero = false /\ targetBucket cs p = j.
Proof.
  unfold rowsOfBucket. rewrite list_elem_of_fmap. split.
  - intros ([i' p] & -> & Hin). apply list_elem_of_filter in Hin.
    destruct Hin as [[Hp Ht] Hin]. apply elem_of_enumerate in Hin. eauto.
  - intros (p & Hp & Hl & Ht). exists (i, p). split; [reflexivity|].
    apply list_elem_of_filter. split; [auto|]. apply elem_of_enumerate, Hp.
Qed.

Lemma elem_of_lossRows pays i :
  i ∈ lossRows (enumerate pays) <-> exists p, pays !! i = Some p /\ fleb p fzero = true.
Proof.
  unfold lossRows. rewrite list_elem_of_fmap. split.
  - intros ([i' p] & -> & Hin). apply list_elem_of_filter in Hin.
    destruct Hin as [Hp Hin]. apply elem_of_enumerate in Hin. eauto.
  - intros (p & Hp & Hl). exists (i, p). split; [reflexivity|].
    apply list_elem_of_filter. split; [auto|]. apply elem_of_enumerate, Hp.
Qed.

Lemma NoDup_fst_filter_enumerate {A} (P : nat * A -> Prop) `{forall x, Decision (P x)}
    (l : list A) :
  NoDup (fst <$> filter P (enumerate l)).
Proof.
  unfold enumerate. generalize 0%nat. induction l as [|a l IH]; intros k; simpl.
  - constructor.
  - rewrite filter_cons. destruct (decide (P (k, a))); [|apply IH].
    rewrite fmap_cons. constructor; [|apply IH].
    simpl. intros Hin. apply list_elem_of_fmap in Hin.
    destruct Hin as ([i x] & Hk & Hin). simpl in Hk. subst i.
    apply list_elem_of_filter in Hin. destruct Hin as [_ Hin].
    apply elem_of_enumerate_from in Hin. lia.
Qed.

End AssignFacts.

(** The first bucket in range is the least index whose range holds [p]. *)
Section FirstInRange.
Context {F : Type} `{Float64Ops F}.

Lemma firstInRange_Some nb p : forall (cs : list (BucketConfig F)) k j,
  firstInRange nb (combine (seq k (length cs)) cs) p = Some j ->
  exists c, cs !! (j - k)%nat = Some c /\ (k <= j)%nat /\ inRange nb j c p = true /\
    forall j' c', (k <= j' < j)%nat -> cs !! (j' - k)%nat = Some c' ->
                  inRange nb j' c' p = false.
Proof.
  induction cs as [|c cs IH]; intros k j; simpl; [discriminate|].
  destruct (inRange nb k c p) eqn:Hk.
  - intros [= <-]. exists c. replace (k - k)%nat with 0%nat by lia.
    split; [reflexivity|]. split; [lia|]. split; [exact Hk|]. intros; lia.
  - intros Hj. apply IH in Hj. destruct Hj as (c0 & Hc0 & Hle & Hin & Hbefore).
    exists c0. replace (j - k)%nat with (S (j - S k)) by lia.
    split; [exact Hc0|]. split; [lia|]. split; [exact Hin|].
    intros j' c' Hj' Hc'. destruct (decide (j' = k)) as [->|Hne].
    + replace (k - k)%nat with 0%nat in Hc' by lia. simpl in Hc'. congruence.
    + apply Hbefore; [lia|]. replace (j' - k)%nat with (S (j' - S k)) in Hc' by lia.
      exact Hc'.
Qed.

Lemma firstInRange_None nb p : forall (cs : list (BucketConfig F)) k,
  firstInRange nb (combine (seq k (length cs)) cs) p = None ->
  forall j c, cs !! j = Some c -> inRange nb (k + j) c p = false.
Proof.
  induction cs as [|c cs IH]; intros k; simpl; [intros _ j c0 Hc; discriminate|].
  destruct (inRange nb k c p) eqn:Hk; [discriminate|].
  intros Hnone [|j] c0 Hc0; simpl in Hc0.
  - injection Hc0 as <-. replace (k + 0)%nat with k by lia. exact Hk.
  - replace (k + S j)%nat with (S k + j)%nat by lia. eapply IH; eauto.
Qed.

End FirstInRange.

(** ** Coverage of the winning outcomes (binary64) *)

(** [min <= p < max], or [min <= p <= max] for the last bucket. *)
Definition inBucketRange (last : bool) (c : BucketConfig float) (p : float) : bool :=
  PrimFloat.leb (MinPayout c) p &&
  (if last then PrimFloat.leb p (MaxPayout c) else PrimFloat.ltb p (MaxPayout c)).

(** The distance from [p] to the nearer endpoint of a bucket. *)
Definition endpointDistance (c : BucketConfig float) (p : float) : float :=
  b64_min (PrimFloat.abs (p - MinPayout c)) (PrimFloat.abs (p - MaxPayout c)).

(** A distance as the search sees it: its starting value math.MaxFloat64
    stands for every distance that is not below it. *)
Definition capped (d : float) : float :=
  if PrimFloat.ltb d b64_MaxFloat64 then d else b64_MaxFloat64.

Section Coverage.
Variable pow : float -> float -> float.
Local Hint Extern 0 (Float64Ops float) => exact (binary64 pow) : typeclass_instances.

Lemma ltb_irrefl x : PrimFloat.ltb x x = false.
Proof.
  destruct (PrimFloat.ltb x x) eqn:Hx; [|reflexivity].
  pose proof (ltb_not_leb _ _ Hx) as H1. pose proof (ltb_leb _ _ Hx) as H2. congruence.
Qed.

Lemma inRange_b64 (cs : list (BucketConfig float)) j c p :
  (j < length cs)%nat ->
  inRange (length cs) j c p = inBucketRange (S j =? length cs)%nat c p.
Proof.
  intros Hj. unfold inRange, inBucketRange.
  destruct (S j =? length cs)%nat eqn:Hl;
    destruct (Z.of_nat j <? Z.of_nat (length cs) - 1) eqn:Hz; try reflexivity.
  - apply Nat.eqb_eq in Hl. apply Z.ltb_lt in Hz. lia.
  - apply Nat.eqb_neq in Hl. apply Z.ltb_ge in Hz. lia.
Qed.

(** What the fallback search knows after the buckets [done]. *)
Definition closestInv (p : float) (done : list (BucketConfig float)) (best : nat * float)
  : Prop :=
  (snd best = b64_MaxFloat64 /\ fst best = 0%nat /\
   forall j c, done !! j = Some c ->
               PrimFloat.ltb (endpointDistance c p) b64_MaxFloat64 = false) \/
  (exists c0, done !! fst best = Some c0 /\ snd best = endpointDistance c0 p /\
     PrimFloat.ltb (snd best) b64_MaxFloat64 = true /\
     forall j c, done !! j = Some c ->
                 PrimFloat.ltb (endpointDistance c p) (snd best) = false).

Lemma closestInv_step p done c best :
  closestInv p done best ->
  closestInv p (done ++ [c]) (closerBucket p best (length done, c)).
Proof.
  intros Hinv. unfold closerBucket. cbn [fst snd].
  change (@fltb float (binary64 pow)) with PrimFloat.ltb.
  change (bucketDistance c p) with (endpointDistance c p).
  assert (Hsnoc : forall j c', (done ++ [c]) !! j = Some c' ->
            done !! j = Some c' \/ (j = length done /\ c' = c)).
  { intros j c' Hl. apply lookup_app_Some in Hl. destruct Hl as [Hl|[Hge Hl]]; [auto|].
    right. apply list_lookup_singleton_Some in Hl. destruct Hl as [Hj ->].
    split; [lia|reflexivity]. }
  destruct (PrimFloat.ltb (endpointDistance c p) (snd best)) eqn:Hlt.
  - right. exists c. simpl.
    split; [apply lookup_snoc_Some; right; split; reflexivity|].
    split; [reflexivity|].
    destruct Hinv as [(Hd & _ & Hall)|(c0 & Hc0 & Hd & HltM & Hall)].
    + rewrite Hd in Hlt. split; [exact Hlt|].
      intros j c' Hl. destruct (Hsnoc _ _ Hl) as [Hl'|[_ ->]]; [|apply ltb_irrefl].
      destruct (PrimFloat.ltb (endpointDistance c' p) (endpointDistance c p)) eqn:Hc;
        [|reflexivity].
      pose proof (Hall _ _ Hl') as Hno. rewrite (ltb_trans _ _ _ Hc Hlt) in Hno.
      discriminate.
    + split; [eapply ltb_trans; [exact Hlt|exact HltM]|].
      intros j c' Hl. destruct (Hsnoc _ _ Hl) as [Hl'|[_ ->]]; [|apply ltb_irrefl].
      destruct (PrimFloat.ltb (endpointDistance c' p) (endpointDistance c p)) eqn:Hc;
        [|reflexivity].
      pose proof (Hall _ _ Hl') as Hno. rewrite (ltb_trans _ _ _ Hc Hlt) in Hno.
      discriminate.
  - destruct Hinv as [(Hd & Hi & Hall)|(c0 & Hc0 & Hd & HltM & Hall)].
    + left. split; [exact Hd|]. split; [exact Hi|].
      intros j c' Hl. destruct (Hsnoc _ _ Hl) as [Hl'|[_ ->]]; [eauto|].
      rewrite <- Hd. exact Hlt.
    + right. exists c0. split; [apply lookup_app_l_Some, Hc0|].
      split; [exact Hd|]. split; [exact HltM|].
      intros j c' Hl. destruct (Hsnoc _ _ Hl) as [Hl'|[_ ->]]; [eauto|exact Hlt].
Qed.

Lemma closestInv_fold p : forall todo done best,
  closestInv p done best ->
  closestInv p (done ++ todo)
    (fold_left (closerBucket p) (combine (seq (length done) (length todo)) todo) best).
Proof.
  induction todo as [|c todo IH]; intros done best Hinv; simpl.
  - rewrite app_nil_r. exact Hinv.
  - replace (done ++ c :: todo) with ((done ++ [c]) ++ todo)
      by (rewrite <- app_assoc; reflexivity).
    replace (S (length done)) with (length (done ++ [c]))
      by (rewrite length_app; simpl; lia).
    apply IH, closestInv_step, Hinv.
Qed.

(** No bucket is closer than the one the fallback search returns. *)
Lemma closestBucket_minimal (cs : list (BucketConfig float)) (p : float) :
  cs <> [] ->
  exists c0, cs !! closestBucket cs p = Some c0 /\
    forall j c, cs !! j = Some c ->
      PrimFloat.ltb (capped (endpointDistance c p)) (capped (endpointDistance c0 p)) = false.
Proof.
  intros Hne.
  assert (Hinv : closestInv p cs
            (fold_left (closerBucket p) (enumerate cs) (0%nat, b64_MaxFloat64))).
  { apply (closestInv_fold p cs [] (0%nat, b64_MaxFloat64)).
    left. split; [reflexivity|]. split; [reflexivity|].
    intros j c Hl. destruct j; discriminate. }
  unfold closestBucket. change (@MaxFloat64 float (binary64 pow)) with b64_MaxFloat64.
  destruct Hinv as [(_ & Hi & Hall)|(c0 & Hc0 & Hd & HltM & Hall)].
  - rewrite Hi. destruct cs as [|c0 cs]; [congruence|]. exists c0.
    split; [reflexivity|]. intros j c Hl. unfold capped.
    rewrite (Hall _ _ Hl), (Hall 0%nat c0 eq_refl). apply ltb_irrefl.
  - exists c0. split; [exact Hc0|]. intros j c Hl. unfold capped. rewrite <- Hd, HltM.
    destruct (PrimFloat.ltb (endpointDistance c p) b64_MaxFloat64) eqn:Hc.
    + apply Hall with (j := j), Hl.
    + apply leb_not_ltb, ltb_leb, HltM.
Qed.

(** C6 (as amended): with at least one bucket, the assignment exists and
    every winning outcome (payout > 0) sits in exactly one bucket, once:
    the first bucket with [min <= payout < max] ([<= max] for the last
    bucket) or, when no bucket matches, a bucket no other bucket beats on
    the distance to its nearer endpoint, distances being capped at
    math.MaxFloat64; every losing outcome (payout <= 0) is in the loss set
    and in no bucket. *)
Theorem winners_assigned_to_one_bucket (cfg : BucketOptimizerConfig float)
    (pays : list float) :
  Buckets cfg <> [] ->
  exists asg lossIndices,
    assignOutcomesToBuckets cfg pays = Some (asg, lossIndices) /\
    length asg = length (Buckets cfg) /\
    forall i p, pays !! i = Some p ->
      (PrimFloat.ltb 0 p = true ->
       (i ∉ lossIndices) /\
       exists j c,
         Buckets cfg !! j = Some c /\
         (forall j', i ∈ indicesOf asg j' <-> j' = j) /\
         NoDup (indicesOf asg j) /\
         ((inBucketRange (S j =? length (Buckets cfg))%nat c p = true /\
           forall j' c', (j' < j)%nat -> Buckets cfg !! j' = Some c' ->
             inBucketRange (S j' =? length (Buckets cfg))%nat c' p = false) \/
          ((forall j' c', Buckets cfg !! j' = Some c' ->
              inBucketRange (S j' =? length (Buckets cfg))%nat c' p = false) /\
           forall j' c', Buckets cfg !! j' = Some c' ->
             PrimFloat.ltb (capped (endpointDistance c' p))
                           (capped (endpointDistance c p)) = false))) /\
      (PrimFloat.leb p 0 = true ->
       (i ∈ lossIndices) /\ forall j, i ∉ indicesOf asg j).
Proof.
  intros Hne.
  destruct (assignOutcomesToBuckets_total cfg pays Hne) as [[asg loss] Hrun].
  exists asg, loss. split; [exact Hrun|].
  apply assignOutcomesToBuckets_spec in Hrun. destruct Hrun as (Hc & Hi & Hl).
  split; [rewrite <- Hc; symmetry; apply length_fmap|].
  intros i p Hp. split.
  - intros Hpos.
    assert (Hnl : fleb p fzero = false) by (apply ltb_not_leb; exact Hpos).
    split.
    { rewrite Hl, elem_of_lossRows. intros (p' & Hp' & Hle). congruence. }
    set (cs := Buckets cfg) in *.
    assert (Hlt : (targetBucket cs p < length cs)%nat) by (apply targetBucket_lt, Hne).
    destruct (lookup_lt_is_Some_2 _ _ Hlt) as [c Hcj].
    exists (targetBucket cs p), c. split; [exact Hcj|]. split.
    { intros j'. rewrite Hi, elem_of_rowsOfBucket. split.
      - intros (p' & Hp' & _ & Ht). congruence.
      - intros ->. eauto. }
    split; [rewrite Hi; apply NoDup_fst_filter_enumerate|].
    revert Hlt c Hcj. unfold targetBucket.
    destruct (firstInRange (length cs) (enumerate cs) p) as [j|] eqn:Hfirst;
      intros Hlt c Hcj.
    + left. apply firstInRange_Some in Hfirst.
      destruct Hfirst as (c0 & Hc0 & _ & Hin & Hbefore).
      replace (j - 0)%nat with j in Hc0 by lia.
      assert (c0 = c) as -> by congruence.
      rewrite inRange_b64 in Hin by exact Hlt. split; [exact Hin|].
      intros j' c' Hj' Hc'. rewrite <- (inRange_b64 cs) by lia.
      apply Hbefore; [lia|]. replace (j' - 0)%nat with j' by lia. exact Hc'.
    + right. split.
      * intros j' c' Hc'. rewrite <- (inRange_b64 cs) by (eapply lookup_lt_Some; eauto).
        apply (firstInRange_None _ _ _ _ Hfirst j' c' Hc').
      * destruct (closestBucket_minimal cs p Hne) as (c0 & Hc0 & Hmin).
        assert (c0 = c) as -> by congruence. exact Hmin.
  - intros Hle. split.
    + rewrite Hl, elem_of_lossRows. eauto.
    + intros j. rewrite Hi, elem_of_rowsOfBucket. intros (p' & Hp' & Hnl & _).
      assert (p' = p) as -> by congruence.
      change (fleb p fzero) with (PrimFloat.leb p 0) in Hnl. congruence.
Qed.

End Coverage.

(** A bucket of the given range and constraint, for the concrete runs. *)
Definition bucketOf (name : string) (lo hi : float) (ty : string) (freq pct : float)
  : BucketConfig float :=
  {| Name := name; MinPayout := lo; MaxPayout := hi; Type_ := ty; Frequency := freq;
     RTPPercent := pct; AutoExponent := 0%float; MaxWinFrequency := 0%float;
     Priority := 0;
     IsMaxWinBucket := false |}.

Definition configOf (target : float) (buckets : list (BucketConfig float))
    (autoVoiding : bool) : BucketOptimizerConfig float :=
  {| TargetRTP := target; RTPTolerance := @flit float b64 1 3; Buckets := buckets;
     MinWeight := 1; EnableVoiding := false; VoidedBucketIndices := [];
     EnableAutoVoiding := autoVoiding |}.

Lemma winners_assigned_to_one_bucket_witness :
  let cfg := configOf (@flit float b64 5 1)
               [bucketOf "all" (@flit float b64 1 2) 10 ConstraintFrequency 2 0]%float false in
  Buckets cfg <> [] /\
  exists asg lossIndices,
    @assignOutcomesToBuckets float b64 cfg [0; 2; 5]%float = Some (asg, lossIndices) /\
    length asg = 1%nat.
Proof.
  intros cfg. split; [discriminate|].
  destruct (winners_assigned_to_one_bucket pow_special cfg [0; 2; 5]%float)
    as (asg & loss & Hrun & Hlen & _); [discriminate|].
  exists asg, loss. split; [exact Hrun|exact Hlen].
Defined.

(** C6, refuted as stated, twice over: with no bucket at all the
    assignment of a winning outcome panics; and with the unvalidated buckets
    [+Inf, +Inf] and [-MaxFloat64, -MaxFloat64] a payout of 5 matches
    neither and goes to the first, although the second is nearer. *)
Lemma coverage_needs_a_bucket_and_capped_distances :
  @assignOutcomesToBuckets float b64 (configOf 1%float [] false) [5%float] = None /\
  let far := bucketOf "far" infinity infinity ConstraintAuto 0%float 0%float in
  let near := bucketOf "near" (- b64_MaxFloat64)%float (- b64_MaxFloat64)%float
                ConstraintAuto 0%float 0%float in
  @firstInRange float b64 2 (enumerate [far; near]) 5%float = None /\
  @targetBucket float b64 [far; near] 5%float = 0%nat /\
  PrimFloat.ltb (endpointDistance near 5%float) (endpointDistance far 5%float) = true.
Proof.
  split; [reflexivity|]. cbv zeta. split; [reflexivity|]. split; reflexivity.
Qed.

(** ** What auto-voiding may void *)

Section AutoVoidFacts.
Context {F : Type} `{Float64Ops F}.

(** Row [idx] of the payouts is not a loss. *)
Definition winnerRow (pays : list F) (idx : nat) : Prop :=
  exists p, pays !! idx = Some p /\ fleb p fzero = false.

Variable V : nat -> Prop.

Definition groupsIn (m : list (payoutGroup F)) : Prop :=
  Forall (fun g => Forall V (indices g)) m.

Lemma payoutMap_add_in m p i sim : groupsIn m -> V i -> groupsIn (payoutMap_add m p i sim).
Proof.
  intros Hm Hi. induction m as [|g m IH]; simpl.
  - apply Forall_singleton. simpl. apply Forall_singleton. exact Hi.
  - apply Forall_cons in Hm. destruct Hm as [Hg Hm]. destruct (feqb (payout g) p).
    + apply Forall_cons. split; [|exact Hm]. simpl.
      apply Forall_app. split; [exact Hg|]. apply Forall_singleton. exact Hi.
    + apply Forall_cons. split; [exact Hg|]. apply IH, Hm.
Qed.

Lemma payoutMap_get_in m p g : groupsIn m -> payoutMap_get m p = Some g -> Forall V (indices g).
Proof.
  intros Hm. induction m as [|g0 m IH]; simpl; [discriminate|].
  apply Forall_cons in Hm. destruct Hm as [Hg Hm]. destruct (feqb (payout g0) p).
  - intros [= <-]. exact Hg.
  - apply IH, Hm.
Qed.

Lemma combine_fst_in {B} (l : list nat) (k : list B) :
  Forall V l -> Forall (fun m => V (fst m)) (combine l k).
Proof.
  revert k. induction l as [|a l IH]; intros k Hl; simpl; [constructor|].
  apply Forall_cons in Hl. destruct Hl as [Ha Hl].
  destruct k; [constructor|]. apply Forall_cons. split; [exact Ha|]. apply IH, Hl.
Qed.

Lemma voidOne_in st idx sim reason g :
  Forall V (voidedIndices st) -> V idx -> Forall V (voidedIndices (voidOne st idx sim reason g)).
Proof.
  intros Hst Hi. simpl. apply Forall_app. split; [exact Hst|]. apply Forall_singleton, Hi.
Qed.

Lemma voidDuplicates_in g rtpToRemove : forall members st,
  Forall (fun m => V (fst m)) members -> Forall V (voidedIndices st) ->
  Forall V (voidedIndices (voidDuplicates g members rtpToRemove st)).
Proof.
  induction members as [|[idx sim] members IH]; intros st Hm Hst; simpl; [exact Hst|].
  apply Forall_cons in Hm. destruct Hm as [Hi Hm].
  destruct (fleb rtpToRemove (removedRTP st)); [exact Hst|].
  apply IH; [exact Hm|]. apply voidOne_in; assumption.
Qed.

Lemma voidPhase1_in m rtpToRemove : forall sorted st st',
  groupsIn m -> Forall V (voidedIndices st) ->
  voidPhase1 m sorted rtpToRemove st = Some st' -> Forall V (voidedIndices st').
Proof.
  induction sorted as [|p sorted IH]; intros st st' Hm Hst; simpl.
  - intros [= <-]. exact Hst.
  - destruct (fleb rtpToRemove (removedRTP st)); [intros [= <-]; exact Hst|].
    destruct (payoutMap_get m p) as [g|] eqn:Hg; [|discriminate].
    apply IH; [exact Hm|].
    destruct (1 <? length (indices g))%nat; [|exact Hst].
    apply voidDuplicates_in; [|exact Hst].
    apply Forall_drop, combine_fst_in. eapply payoutMap_get_in; eauto.
Qed.

Lemma firstNotVoided_in voided : forall members idx sim,
  Forall (fun m => V (fst m)) members ->
  firstNotVoided voided members = Some (idx, sim) -> V idx.
Proof.
  induction members as [|[i s] members IH]; intros idx sim Hm; simpl; [discriminate|].
  apply Forall_cons in Hm. destruct Hm as [Hi Hm].
  destruct (memIndex voided i); [apply IH, Hm|].
  intros [= <- _]. exact Hi.
Qed.

Lemma voidPhase2_in m rtpToRemove : forall sorted st st',
  groupsIn m -> Forall V (voidedIndices st) ->
  voidPhase2 m sorted rtpToRemove st = Some st' -> Forall V (voidedIndices st').
Proof.
  induction sorted as [|p sorted IH]; intros st st' Hm Hst; simpl.
  - intros [= <-]. exact Hst.
  - destruct (fleb rtpToRemove (removedRTP st)); [intros [= <-]; exact Hst|].
    destruct (payoutMap_get m p) as [g|] eqn:Hg; [|discriminate].
    apply IH; [exact Hm|].
    destruct (alreadyVoided (voidedIndices st) g <? length (indices g))%nat; [|exact Hst].
    destruct (firstNotVoided _ _) as [[idx sim]|] eqn:Hf; [|exact Hst].
    apply voidOne_in; [exact Hst|].
    eapply firstNotVoided_in; [|exact Hf].
    apply combine_fst_in. eapply payoutMap_get_in; eauto.
Qed.

End AutoVoidFacts.

Section AutoVoidRows.
Context {F : Type} `{Float64Ops F}.

Lemma groupByPayout_in (pays : list F) (sims : list Z) m :
  groupByPayout pays sims = Some m -> groupsIn (winnerRow pays) m.
Proof.
  unfold groupByPayout.
  apply (foldM_invariant (groupsIn (winnerRow pays))); [|constructor].
  intros m0 [i p] m1 Hin Hm0. apply elem_of_enumerate in Hin.
  destruct (fleb p fzero) eqn:Hp; [intros [= <-]; exact Hm0|].
  destruct (sims !! i) as [sim|]; [|discriminate].
  intros [= <-]. apply payoutMap_add_in; [exact Hm0|]. exists p. auto.
Qed.

(** Auto-voiding voids rows of the table that are not losses. *)
Lemma autoSelectOutcomesToVoid_rows (pays : list F) sims target minRTP vi vo :
  autoSelectOutcomesToVoid pays sims target minRTP = Some (vi, vo) ->
  Forall (winnerRow pays) vi.
Proof.
  unfold autoSelectOutcomesToVoid.
  destruct (fleb minRTP target); [intros [= <- _]; constructor|].
  destruct (length pays =? 0)%nat; [intros [= <- _]; constructor|].
  unfold voidingPlan. destruct (groupByPayout pays sims) as [m|] eqn:Hm; [|discriminate].
  apply groupByPayout_in in Hm.
  assert (Hm' : groupsIn (winnerRow pays) (map (setRtpPerOutcome (length pays)) m)).
  { unfold groupsIn in *. change (map (setRtpPerOutcome (length pays)) m)
      with (setRtpPerOutcome (length pays) <$> m).
    apply Forall_fmap. eapply Forall_impl; [exact Hm|]. intros g Hg. exact Hg. }
  destruct (voidPhase1 _ _ _ _) as [st1|] eqn:H1; [|discriminate].
  destruct (voidPhase2 _ _ _ _) as [st2|] eqn:H2; [|discriminate].
  intros [= <- _].
  eapply voidPhase2_in; [exact Hm'| |exact H2].
  eapply voidPhase1_in; [exact Hm'| |exact H1]. constructor.
Qed.

(** With no winning row there is nothing to group, and nothing can go
    wrong. *)
Lemma autoSelectOutcomesToVoid_all_losses (pays : list F) sims target minRTP :
  Forall (fun p => fleb p fzero = true) pays ->
  autoSelectOutcomesToVoid pays sims target minRTP = Some ([], []).
Proof.
  intros Hloss. unfold autoSelectOutcomesToVoid.
  destruct (fleb minRTP target); [reflexivity|].
  destruct (length pays =? 0)%nat; [reflexivity|].
  assert (Hg : groupByPayout pays sims = Some []).
  { unfold groupByPayout.
    destruct (foldM_total (fun m : list (payoutGroup F) => m = [])
      (fun (m : list (payoutGroup F)) '(i, p) =>
         if fleb p fzero then Some m
         else match sims !! i with
              | Some sim => Some (payoutMap_add m p i sim)
              | None => None
              end) (enumerate pays)) with (s := @nil (payoutGroup F))
      as (m & Hm & ->); [|reflexivity|exact Hm].
    intros m [i p] Hin ->. apply elem_of_enumerate in Hin.
    rewrite Forall_lookup in Hloss. rewrite (Hloss _ _ Hin). eauto. }
  unfold voidingPlan. rewrite Hg. reflexivity.
Qed.

End AutoVoidRows.

(** ** Weight materialization *)

Section MaterializeFacts.
Context {F : Type} `{Float64Ops F}.
Variable BaseWeight : Z.
Variable cfg : BucketOptimizerConfig F.
Variable voided : list nat.

(** Slot [i] holds a weight of at least [min_weight]. *)
Definition floored (ws : list Z) (i : nat) : Prop :=
  exists w, ws !! i = Some w /\ MinWeight cfg <= w.

Lemma clampMin_ge (minWeight w : Z) : minWeight <= clampMin minWeight w.
Proof. unfold clampMin. destruct (w <? minWeight) eqn:Hw; [lia|]. apply Z.ltb_ge in Hw. lia. Qed.

Lemma inVoidedSet_true idx : inVoidedSet voided idx = true <-> idx ∈ voided.
Proof. unfold inVoidedSet. rewrite bool_decide_eq_true, elem_of_list_to_set. reflexivity. Qed.

Lemma inVoidedSet_false idx : inVoidedSet voided idx = false <-> idx ∉ voided.
Proof.
  rewrite <- inVoidedSet_true. destruct (inVoidedSet voided idx); split; congruence.
Qed.

Lemma fst_combine_same_length {A B} (l : list A) (k : list B) :
  length k = length l -> fst <$> combine l k = l.
Proof.
  revert k. induction l as [|a l IH]; intros [|b k] Hlen; simpl in *; try reflexivity;
    try discriminate.
  f_equal. apply IH. lia.
Qed.

(** A store loop whose values are 0 on voided rows and floored elsewhere. *)
Lemma floored_store_loop {X} (key : X -> nat) (val : X -> Z)
    (f : list Z -> X -> option (list Z)) (l : list X) (ws ws' : list Z) :
  (forall ws0 x, f ws0 x = store ws0 (key x) (val x)) ->
  (forall x, inVoidedSet voided (key x) = false -> MinWeight cfg <= val x) ->
  foldM f l ws = Some ws' ->
  length ws' = length ws /\
  (forall i, inVoidedSet voided i = false -> floored ws i -> floored ws' i) /\
  (forall i, i ∈ key <$> l -> inVoidedSet voided i = false -> floored ws' i).
Proof.
  intros Hf Hval Hrun.
  destruct (foldM_store_spec key val f Hf l ws ws' Hrun) as (Hlen & _ & Hslots).
  assert (Hin : forall i, i ∈ key <$> l -> inVoidedSet voided i = false -> floored ws' i).
  { intros i Hi Hnv. destruct (Hslots i) as [_ Hex].
    destruct (Hex Hi) as (x & _ & Hk & Hv). exists (val x). split; [exact Hv|].
    apply Hval. rewrite Hk. exact Hnv. }
  split; [exact Hlen|]. split; [|exact Hin].
  intros i Hnv Hfl. destruct (decide (i ∈ key <$> l)) as [Hi|Hni]; [auto|].
  destruct (Hslots i) as [Hsame _]. unfold floored. rewrite (Hsame Hni). exact Hfl.
Qed.

Lemma materializeBucket_spec ws b ws' :
  materializeBucket BaseWeight cfg voided ws b = Some ws' ->
  length ws' = length ws /\
  (forall i, inVoidedSet voided i = false -> floored ws i -> floored ws' i) /\
  (isVoided b = false ->
   forall i, i ∈ outcomeIndices b -> inVoidedSet voided i = false -> floored ws' i).
Proof.
  unfold materializeBucket.
  destruct (length (outcomeIndices b) =? 0)%nat eqn:Hempty; simpl.
  { intros [= <-]. split; [reflexivity|]. split; [auto|].
    apply Nat.eqb_eq in Hempty. destruct (outcomeIndices b); [|discriminate].
    intros _ i Hi. inversion Hi. }
  destruct (isVoided b) eqn:Hv.
  { intros [= <-]. split; [reflexivity|]. split; [auto|discriminate]. }
  destruct (isAuto b && (length (outcomeProbs b) =? length (outcomeIndices b))%nat)
    eqn:Hauto.
  - apply andb_true_iff in Hauto. destruct Hauto as [_ Hlen]. apply Nat.eqb_eq in Hlen.
    unfold materializeAuto. intros Hrun.
    apply (floored_store_loop fst
             (fun x => if inVoidedSet voided (fst x) then 0
                       else clampMin (MinWeight cfg)
                              (to_uint64 (fmul (snd x) (of_int BaseWeight))))) in Hrun.
    + rewrite fst_combine_same_length in Hrun by exact Hlen.
      destruct Hrun as (Hl & Hkeep & Hnew). auto.
    + intros ws0 [idx prob]. simpl. destruct (inVoidedSet voided idx); reflexivity.
    + intros [idx prob] Hnv. simpl in *. rewrite Hnv. apply clampMin_ge.
  - unfold materializeEven.
    destruct (0 <? length (List.filter _ (outcomeIndices b)))%nat eqn:Hcount.
    + intros Hrun.
      apply (floored_store_loop (fun idx : nat => idx)
               (fun idx => if inVoidedSet voided idx then 0
                           else clampMin (MinWeight cfg)
                                  (to_uint64 (fmul (targetProb b) (of_int BaseWeight))
                                   / Z.of_nat (length (List.filter
                                        (fun idx => negb (inVoidedSet voided idx))
                                        (outcomeIndices b)))))) in Hrun.
      * rewrite list_fmap_id in Hrun. destruct Hrun as (Hl & Hkeep & Hnew). auto.
      * intros ws0 idx. destruct (inVoidedSet voided idx); reflexivity.
      * intros idx Hnv. rewrite Hnv. apply clampMin_ge.
    + intros [= <-]. split; [reflexivity|]. split; [auto|].
      intros _ i Hi Hnv. exfalso. apply Nat.ltb_ge in Hcount.
      assert (Hin : In i (List.filter (fun idx => negb (inVoidedSet voided idx))
                                      (outcomeIndices b))).
      { apply filter_In. split; [apply list_elem_of_In, Hi|]. rewrite Hnv. reflexivity. }
      destruct (List.filter _ (outcomeIndices b)); [destruct Hin|simpl in Hcount; lia].
Qed.

Lemma materializeBucket_total ws b :
  Forall (fun i => (i < length ws)%nat) (outcomeIndices b) ->
  is_Some (materializeBucket BaseWeight cfg voided ws b).
Proof.
  intros Hb. rewrite Forall_forall in Hb. unfold materializeBucket.
  destruct (_ || _); [eauto|].
  destruct (_ && _).
  - unfold materializeAuto.
    apply (foldM_store_total fst
             (fun x => if inVoidedSet voided (fst x) then 0
                       else clampMin (MinWeight cfg)
                              (to_uint64 (fmul (snd x) (of_int BaseWeight))))).
    + intros ws0 [idx prob]. simpl. destruct (inVoidedSet voided idx); reflexivity.
    + intros [idx prob] Hin. simpl. apply Hb.
      apply list_elem_of_In in Hin. apply in_combine_l in Hin.
      apply list_elem_of_In, Hin.
  - unfold materializeEven. destruct (0 <? _)%nat; [|eauto].
    apply (foldM_store_total (fun idx : nat => idx)
             (fun idx => if inVoidedSet voided idx then 0
                         else clampMin (MinWeight cfg)
                                (to_uint64 (fmul (targetProb b) (of_int BaseWeight))
                                 / Z.of_nat (length (List.filter
                                      (fun idx => negb (inVoidedSet voided idx))
                                      (outcomeIndices b)))))).
    + intros ws0 idx. destruct (inVoidedSet voided idx); reflexivity.
    + intros idx Hin. apply Hb, Hin.
Qed.

(** The loop over the buckets. *)
Lemma materializeBuckets_spec : forall asg ws ws',
  foldM (materializeBucket BaseWeight cfg voided) asg ws = Some ws' ->
  length ws' = length ws /\
  (forall i, inVoidedSet voided i = false -> floored ws i -> floored ws' i) /\
  (forall b i, b ∈ asg -> isVoided b = false -> i ∈ outcomeIndices b ->
               inVoidedSet voided i = false -> floored ws' i).
Proof.
  induction asg as [|b asg IH]; intros ws ws' Hrun; simpl in Hrun.
  - injection Hrun as <-. split; [reflexivity|]. split; [auto|].
    intros b i Hb. inversion Hb.
  - destruct (materializeBucket BaseWeight cfg voided ws b) as [ws1|] eqn:Hb; [|discriminate].
    apply materializeBucket_spec in Hb. destruct Hb as (Hl1 & Hkeep1 & Hnew1).
    apply IH in Hrun. destruct Hrun as (Hl & Hkeep & Hnew).
    split; [congruence|]. split; [auto|].
    intros b0 i Hb0 Hv Hi Hnv. apply elem_of_cons in Hb0. destruct Hb0 as [->|Hb0].
    + apply Hkeep; [exact Hnv|]. apply Hnew1; assumption.
    + eapply Hnew; eauto.
Qed.

Lemma materializeBuckets_total : forall asg ws,
  Forall (fun b => Forall (fun i => (i < length ws)%nat) (outcomeIndices b)) asg ->
  is_Some (foldM (materializeBucket BaseWeight cfg voided) asg ws).
Proof.
  intros asg ws Hasg.
  destruct (foldM_total (fun ws0 : list Z => length ws0 = length ws)
              (materializeBucket BaseWeight cfg voided) asg) with (s := ws)
    as (ws' & Hrun & _); [|reflexivity|eauto].
  intros ws0 b Hb Hlen. rewrite Forall_forall in Hasg.
  destruct (materializeBucket_total ws0 b) as [ws1 Hws1].
  { rewrite Hlen. apply Hasg, Hb. }
  exists ws1. split; [exact Hws1|].
  apply materializeBucket_spec in Hws1. destruct Hws1 as [Hl _]. congruence.
Qed.

(** The weights of the winning rows: voided rows hold 0, rows of a bucket
    that is not voided hold at least [min_weight]. *)
Lemma winWeights_spec (pays : list F) asg ws :
  winWeights BaseWeight cfg pays asg voided = Some ws ->
  length ws = length pays /\
  Forall (fun i => (i < length pays)%nat) voided /\
  (forall i, i ∈ voided -> ws !! i = Some 0) /\
  (forall b i, b ∈ asg -> isVoided b = false -> i ∈ outcomeIndices b -> i ∉ voided ->
               floored ws i).
Proof.
  unfold winWeights.
  destruct (foldM (materializeBucket BaseWeight cfg voided) asg _) as [ws1|] eqn:H1;
    [|discriminate].
  intros H2. apply materializeBuckets_spec in H1. destruct H1 as (Hl1 & _ & Hnew).
  rewrite length_replicate in Hl1.
  destruct (foldM_store_spec (fun idx : nat => idx) (fun _ => 0)
              (fun ws0 idx => store ws0 idx 0) (fun _ _ => eq_refl) _ _ _ H2)
    as (Hl2 & Hkeys & Hslots).
  rewrite list_fmap_id in Hslots.
  split; [congruence|]. split.
  - apply Forall_forall. intros i Hi. rewrite <- Hl1. apply Hkeys, Hi.
  - split.
    + intros i Hi. destruct (Hslots i) as [_ Hex].
      destruct (Hex Hi) as (x & _ & _ & Hv). exact Hv.
    + intros b i Hb Hv Hi Hnv. destruct (Hslots i) as [Hsame _].
      unfold floored. rewrite (Hsame Hnv).
      apply (Hnew b i Hb Hv Hi). apply inVoidedSet_false, Hnv.
Qed.

Lemma winWeights_total (pays : list F) asg :
  Forall (fun b => Forall (fun i => (i < length pays)%nat) (outcomeIndices b)) asg ->
  Forall (fun i => (i < length pays)%nat) voided ->
  is_Some (winWeights BaseWeight cfg pays asg voided).
Proof.
  intros Hasg Hvoided. unfold winWeights.
  destruct (materializeBuckets_total asg (replicate (length pays) 0)) as [ws1 Hws1].
  { rewrite length_replicate. exact Hasg. }
  rewrite Hws1. apply materializeBuckets_spec in Hws1. destruct Hws1 as [Hl _].
  rewrite length_replicate in Hl.
  apply (foldM_store_total (fun idx : nat => idx) (fun _ => 0)); [reflexivity|].
  intros i Hi. rewrite Hl. rewrite Forall_forall in Hvoided. apply Hvoided, Hi.
Qed.

(** The loss rows all receive the one weight handed to the loop. *)
Lemma writeLossWeights_spec lossIndices w ws ws' :
  writeLossWeights lossIndices w ws = Some ws' ->
  length ws' = length ws /\
  Forall (fun i => (i < length ws)%nat) lossIndices /\
  (forall i, i ∈ lossIndices -> ws' !! i = Some w) /\
  (forall i, i ∉ lossIndices -> ws' !! i = ws !! i).
Proof.
  unfold writeLossWeights. intros Hrun.
  destruct (foldM_store_spec (fun idx : nat => idx) (fun _ => w)
              (fun ws0 idx => store ws0 idx w) (fun _ _ => eq_refl) _ _ _ Hrun)
    as (Hl & Hkeys & Hslots).
  rewrite list_fmap_id in Hslots.
  split; [exact Hl|]. split; [apply Forall_forall, Hkeys|]. split.
  - intros i Hi. destruct (Hslots i) as [_ Hex].
    destruct (Hex Hi) as (x & _ & _ & Hv). exact Hv.
  - intros i Hi. destruct (Hslots i) as [Hsame _]. auto.
Qed.

Lemma writeLossWeights_total lossIndices w ws :
  Forall (fun i => (i < length ws)%nat) lossIndices ->
  is_Some (writeLossWeights lossIndices w ws).
Proof.
  intros Hl. apply (foldM_store_total (fun idx : nat => idx) (fun _ => w)); [reflexivity|].
  apply Forall_forall, Hl.
Qed.

(** [calculateWeightsWithVoiding], by stage: the weights of the winning
    rows, then one weight on every loss row. *)
Lemma calculateWeightsWithVoiding_spec (pays : list F) asg lossIndices ws :
  calculateWeightsWithVoiding BaseWeight cfg pays asg lossIndices voided = Some ws ->
  exists ws1,
    winWeights BaseWeight cfg pays asg voided = Some ws1 /\
    length ws = length pays /\
    (forall i, i ∈ lossIndices ->
       ws !! i = Some (lossWeightPerOutcome cfg (requiredLossWeight cfg pays ws1)
                         (length lossIndices))) /\
    (forall i, i ∉ lossIndices -> ws !! i = ws1 !! i).
Proof.
  unfold calculateWeightsWithVoiding.
  destruct (winWeights BaseWeight cfg pays asg voided) as [ws1|] eqn:H1; [|discriminate].
  intros Hrun. exists ws1. split; [reflexivity|].
  pose proof (winWeights_spec _ _ _ H1) as (Hl1 & _).
  destruct (0 <? length lossIndices)%nat eqn:Hn.
  - apply writeLossWeights_spec in Hrun. destruct Hrun as (Hl & _ & Hin & Hout).
    split; [congruence|]. split; assumption.
  - injection Hrun as <-. split; [exact Hl1|].
    apply Nat.ltb_ge in Hn. destruct lossIndices; [|simpl in Hn; lia].
    split; [intros i Hi; inversion Hi|reflexivity].
Qed.

Lemma lossWeightPerOutcome_ge required nloss :
  MinWeight cfg <= lossWeightPerOutcome cfg required nloss.
Proof. apply clampMin_ge. Qed.

Lemma fineTuneLossWeightWithVoiding_spec (pays : list F) lossIndices ws ws' :
  fineTuneLossWeightWithVoiding cfg ws pays lossIndices voided = Some ws' ->
  length ws' = length ws /\
  (forall i, i ∈ lossIndices -> floored ws' i) /\
  (forall i, i ∉ lossIndices -> ws' !! i = ws !! i).
Proof.
  unfold fineTuneLossWeightWithVoiding.
  destruct (fineTuneSums pays voided ws) as [sums|]; [|discriminate].
  intros Hrun. apply writeLossWeights_spec in Hrun.
  destruct Hrun as (Hl & _ & Hin & Hout).
  split; [exact Hl|]. split; [|exact Hout].
  intros i Hi. eexists. split; [apply Hin, Hi|apply lossWeightPerOutcome_ge].
Qed.

Lemma fineTuneSums_total (pays : list F) ws :
  length ws = length pays -> is_Some (fineTuneSums pays voided ws).
Proof.
  intros Hlen. unfold fineTuneSums.
  destruct (foldM_total (fun _ : F * Z => True)
    (fun (acc : F * Z) '(i, p) =>
       if fltb fzero p then
         match ws !! i with
         | None => None
         | Some w =>
             if (0 <? w) && negb (inVoidedSet voided i)
             then Some (fadd (fst acc) (fmul (of_int w) p), uint64_add (snd acc) w)
             else Some acc
         end
       else Some acc) (enumerate pays)) with (s := (fzero, 0))
    as (s' & Hs' & _); [|exact I|eauto].
  intros acc [i p] Hin _. apply elem_of_enumerate in Hin.
  destruct (fltb fzero p); [|eauto].
  destruct (lookup_lt_is_Some_2 ws i) as [w ->].
  { rewrite Hlen. eapply lookup_lt_Some, Hin. }
  destruct (_ && _); eauto.
Qed.

Lemma fineTuneLossWeightWithVoiding_total (pays : list F) lossIndices ws :
  length ws = length pays ->
  Forall (fun i => (i < length ws)%nat) lossIndices ->
  is_Some (fineTuneLossWeightWithVoiding cfg ws pays lossIndices voided).
Proof.
  intros Hlen Hloss. unfold fineTuneLossWeightWithVoiding.
  destruct (fineTuneSums_total pays ws Hlen) as [sums ->].
  apply writeLossWeights_total, Hloss.
Qed.

End MaterializeFacts.

(** ** From the table to the weight calculation *)

Section PrepareFacts.
Context {F : Type} `{Float64Ops F}.

(** Two assignments with the same rows and the same voided flag. *)
Definition sameRows (b b' : bucketAssignment F) : Prop :=
  outcomeIndices b' = outcomeIndices b /\ isVoided b' = isVoided b.

Lemma firstPassBucket_rows cfg b usedRTP : sameRows b (fst (firstPassBucket cfg b usedRTP)).
Proof.
  unfold firstPassBucket, sameRows.
  destruct (length (outcomeIndices b) =? 0)%nat; [auto|].
  destruct (String.eqb _ ConstraintFrequency); [auto|].
  destruct (String.eqb _ ConstraintRTPPercent); [destruct (_ && _); auto|].
  destruct (String.eqb _ ConstraintAuto); auto.
Qed.

Lemma firstPass_rows cfg : forall bs usedRTP,
  Forall2 sameRows bs (fst (firstPass cfg bs usedRTP)).
Proof.
  induction bs as [|b bs IH]; intros usedRTP; simpl; constructor.
  - apply firstPassBucket_rows.
  - apply IH.
Qed.

Lemma calculateTargetProbabilities_rows cfg asg :
  Forall2 sameRows asg (fst (calculateTargetProbabilities cfg asg)).
Proof.
  unfold calculateTargetProbabilities.
  pose proof (firstPass_rows cfg asg fzero) as H1.
  destruct (_ && _); simpl; [|exact H1].
  apply (Forall2_trans sameRows sameRows sameRows) with (k := fst (firstPass cfg asg fzero));
    [|exact H1|].
  - intros b1 b2 b3 [Hi1 Hv1] [Hi2 Hv2]. split; congruence.
  - apply Forall2_fmap_r. apply Forall_Forall2_diag. apply Forall_forall.
    intros b _. unfold sameRows, compose. destruct (isActiveAuto b); simpl; auto.
Qed.

Lemma markVoidedBuckets_lookup cfg (asg : list (bucketAssignment F)) j :
  markVoidedBuckets cfg asg !! j =
  (fun b => if isVoidedBucket cfg j then markVoided b else b) <$> asg !! j.
Proof.
  unfold markVoidedBuckets, enumerate.
  assert (Hgen : forall k,
    map (fun '(i, b) => if isVoidedBucket cfg i then markVoided b else b)
        (combine (seq k (length asg)) asg) !! j =
    (fun b => if isVoidedBucket cfg (k + j) then markVoided b else b) <$> asg !! j).
  { revert j. induction asg as [|b asg IH]; intros j k; simpl; [reflexivity|].
    destruct j as [|j]; simpl.
    - replace (k + 0)%nat with k by lia. reflexivity.
    - rewrite IH. replace (S k + j)%nat with (k + S j)%nat by lia. reflexivity. }
  apply (Hgen 0%nat).
Qed.

(** Assignment never sets the voided flag. *)
Lemma assignOutcomesToBuckets_not_voided cfg (pays : list F) asg lossIndices :
  assignOutcomesToBuckets cfg pays = Some (asg, lossIndices) ->
  Forall (fun b => isVoided b = false) asg.
Proof.
  unfold assignOutcomesToBuckets.
  destruct (foldM _ _ _) as [[asg0 loss0]|] eqn:Hrun; [|discriminate].
  intros [= <- <-].
  assert (H0 : Forall (fun b : bucketAssignment F => isVoided b = false) asg0).
  { apply (foldM_invariant
             (fun st : list (bucketAssignment F) * list nat =>
                Forall (fun b => isVoided b = false) (fst st))
             assignOutcome (enumerate pays)) with (s := (map emptyAssignment (Buckets cfg), []))
      (s' := (asg0, loss0)) in Hrun; [exact Hrun| |].
    - intros [a l] [i p] [a' l'] _ Ha. unfold assignOutcome. simpl in *.
      destruct (fleb p fzero); [intros [= <- _]; exact Ha|].
      unfold assignTo. destruct (a !! _) as [b|] eqn:Hb; [|discriminate].
      intros [= <- _]. apply Forall_insert; [exact Ha|].
      simpl. eapply Forall_lookup_1 in Ha; eauto.
    - simpl. apply Forall_forall. intros b Hb.
      apply list_elem_of_fmap in Hb. destruct Hb as (c & -> & _). reflexivity. }
  apply Forall_forall. intros b Hb. apply list_elem_of_fmap in Hb.
  destruct Hb as (b0 & -> & Hb0). rewrite Forall_forall in H0.
  unfold setAvgPayout. destruct (0 <? _)%nat; simpl; apply H0, Hb0.
Qed.

(** The rows and the voided flags of the assignments [prepare] hands on,
    and the rows it voids, in terms of the bucket each row goes to. *)
Lemma prepare_spec cfg (table : LookupTable F) pr :
  prepare cfg table = Some pr ->
  let pays := normalizedPayouts table in
  prPayouts pr = pays /\
  prLossIndices pr = lossRows (enumerate pays) /\
  (forall j b, prAssignments pr !! j = Some b ->
     outcomeIndices b = rowsOfBucket (Buckets cfg) j (enumerate pays) /\
     isVoided b = isVoidedBucket cfg j) /\
  (forall i p, pays !! i = Some p -> fleb p fzero = false ->
     exists j b, prAssignments pr !! j = Some b /\ i ∈ outcomeIndices b) /\
  (forall j b i, prAssignments pr !! j = Some b -> isVoided b = true ->
     i ∈ outcomeIndices b -> i ∈ prVoidedOutcomeIndices pr) /\
  Forall (winnerRow pays) (prVoidedOutcomeIndices pr).
Proof.
  unfold prepare. intros Hpr. set (pays := normalizedPayouts table) in *.
  destruct (autoVoid cfg pays _) as [[autoIdx autoOut]|] eqn:Hauto; [|discriminate].
  destruct (assignOutcomesToBuckets cfg pays) as [[asg0 loss]|] eqn:Hasg; [|discriminate].
  injection Hpr as <-. simpl.
  pose proof (assignOutcomesToBuckets_not_voided _ _ _ _ Hasg) as Hnv.
  apply assignOutcomesToBuckets_spec in Hasg. destruct Hasg as (Hc & Hi & Hl).
  pose proof (calculateTargetProbabilities_rows cfg (markVoidedBuckets cfg asg0)) as Hrows.
  set (asgP := fst (calculateTargetProbabilities cfg (markVoidedBuckets cfg asg0))) in *.
  assert (Hlook : forall j b, asgP !! j = Some b ->
            exists b0, asg0 !! j = Some b0 /\ outcomeIndices b = outcomeIndices b0 /\
                       isVoided b = isVoidedBucket cfg j).
  { intros j b Hb. destruct (Forall2_lookup_r _ _ _ _ _ Hrows Hb) as (b1 & Hb1 & Hi1 & Hv1).
    rewrite markVoidedBuckets_lookup in Hb1.
    destruct (asg0 !! j) as [b0|] eqn:Hb0; [|discriminate]. simpl in Hb1.
    injection Hb1 as <-. exists b0. split; [reflexivity|].
    rewrite Hi1, Hv1. pose proof (Forall_lookup_1 _ _ _ _ Hnv Hb0) as Hf.
    destruct (isVoidedBucket cfg j); simpl; auto. }
  assert (Hlook' : forall j b0, asg0 !! j = Some b0 ->
            exists b, asgP !! j = Some b /\ outcomeIndices b = outcomeIndices b0).
  { intros j b0 Hb0.
    assert (Hm : markVoidedBuckets cfg asg0 !! j =
                 Some (if isVoidedBucket cfg j then markVoided b0 else b0))
      by (rewrite markVoidedBuckets_lookup, Hb0; reflexivity).
    destruct (Forall2_lookup_l _ _ _ _ _ Hrows Hm) as (b & Hb & Hi1 & _).
    exists b. split; [exact Hb|]. rewrite Hi1. destruct (isVoidedBucket cfg j); reflexivity. }
  assert (Hrow : forall j b0, asg0 !! j = Some b0 ->
            outcomeIndices b0 = rowsOfBucket (Buckets cfg) j (enumerate pays)).
  { intros j b0 Hb0. rewrite <- Hi. unfold indicesOf. rewrite Hb0. reflexivity. }
  split; [reflexivity|]. split; [exact Hl|]. split; [|split; [|split]].
  - intros j b Hb. destruct (Hlook j b Hb) as (b0 & Hb0 & Hi0 & Hv0).
    split; [rewrite Hi0; apply Hrow, Hb0|exact Hv0].
  - intros i p Hp Hwin.
    assert (Hin : i ∈ indicesOf asg0 (targetBucket (Buckets cfg) p)).
    { rewrite Hi. apply elem_of_rowsOfBucket. eauto. }
    unfold indicesOf in Hin.
    destruct (asg0 !! targetBucket (Buckets cfg) p) as [b0|] eqn:Hb0; [|inversion Hin].
    destruct (Hlook' _ _ Hb0) as (b & Hb & Hib).
    exists (targetBucket (Buckets cfg) p), b. split; [exact Hb|]. rewrite Hib. exact Hin.
  - intros j b i Hb Hv Hin. destruct (Hlook j b Hb) as (b0 & Hb0 & Hi0 & Hv0).
    apply elem_of_app. left. apply list_elem_of_In, in_concat.
    exists (outcomeIndices b0). split; [|apply list_elem_of_In; rewrite <- Hi0; exact Hin].
    apply in_map_iff. exists (j, b0). split; [reflexivity|].
    unfold voidedBucketsOf. apply filter_In. split.
    + apply list_elem_of_In, elem_of_enumerate, Hb0.
    + simpl. congruence.
  - apply Forall_app. split.
    + apply Forall_forall. intros i Hin. apply list_elem_of_In, in_concat in Hin.
      destruct Hin as (l & Hl0 & Hil). apply in_map_iff in Hl0.
      destruct Hl0 as ([j b0] & <- & Hjb). unfold voidedBucketsOf in Hjb.
      apply filter_In in Hjb. destruct Hjb as [Hjb _].
      apply list_elem_of_In, elem_of_enumerate in Hjb. simpl in Hil.
      rewrite (Hrow _ _ Hjb) in Hil. apply list_elem_of_In, elem_of_rowsOfBucket in Hil.
      destruct Hil as (p & Hp & Hw & _). exists p. auto.
    + unfold autoVoid in Hauto. destruct (EnableAutoVoiding cfg).
      * eapply autoSelectOutcomesToVoid_rows, Hauto.
      * injection Hauto as <- <-. constructor.
Qed.

End PrepareFacts.

(** ** Invariants of the optimizer's weights *)

Section WeightInvariants.
Context {F : Type} `{Float64Ops F}.
Variable BaseWeight : Z.
Variable calculateRTPFromWeights : list Z -> list F -> F.

Lemma NewBucketOptimizer_MinWeight (config : option (BucketOptimizerConfig F)) :
  1 <= MinWeight (NewBucketOptimizer config).
Proof.
  unfold NewBucketOptimizer. simpl.
  destruct (MinWeight _ <? 1) eqn:Hm; [lia|]. apply Z.ltb_ge in Hm. exact Hm.
Qed.

(** Voided rows hold 0 and every other row at least [min_weight]. *)
Definition weightsOk (cfg : BucketOptimizerConfig F) (pr : prepared F) (ws : list Z)
  : Prop :=
  length ws = length (prPayouts pr) /\
  forall i, (i < length (prPayouts pr))%nat ->
    (i ∈ prVoidedOutcomeIndices pr -> ws !! i = Some 0) /\
    (i ∉ prVoidedOutcomeIndices pr -> floored cfg ws i).

Lemma calculateWeightsWithVoiding_ok cfg table pr ws :
  prepare cfg table = Some pr ->
  calculateWeightsWithVoiding BaseWeight cfg (prPayouts pr) (prAssignments pr)
    (prLossIndices pr) (prVoidedOutcomeIndices pr) = Some ws ->
  weightsOk cfg pr ws.
Proof.
  intros Hpr Hws. apply prepare_spec in Hpr.
  destruct Hpr as (Hpays & Hloss & _ & Hcover & Hvoid & Hwin).
  apply calculateWeightsWithVoiding_spec in Hws.
  destruct Hws as (ws1 & Hws1 & Hlen & Hin & Hout).
  apply winWeights_spec in Hws1. destruct Hws1 as (_ & _ & Hzero & Hfloor).
  split; [exact Hlen|]. intros i Hi.
  destruct (lookup_lt_is_Some_2 _ _ Hi) as [p Hp].
  rewrite Forall_forall in Hwin. rewrite Hpays in *.
  destruct (fleb p fzero) eqn:Hle.
  - assert (HiL : i ∈ prLossIndices pr) by (rewrite Hloss; apply elem_of_lossRows; eauto).
    split.
    + intros Hv. destruct (Hwin i Hv) as (p' & Hp' & Hw). congruence.
    + intros _. eexists. split; [apply Hin, HiL|apply lossWeightPerOutcome_ge].
  - assert (HiL : i ∉ prLossIndices pr).
    { rewrite Hloss, elem_of_lossRows. intros (p' & Hp' & Hw). congruence. }
    unfold floored. rewrite (Hout i HiL). split; [apply Hzero|].
    intros Hnv. destruct (Hcover i p Hp Hle) as (j & b & Hb & Hib).
    apply (Hfloor b i); [eapply list_elem_of_lookup_2; exact Hb| |exact Hib|exact Hnv].
    destruct (isVoided b) eqn:Hv; [|reflexivity].
    exfalso. apply Hnv. eapply Hvoid; eauto.
Qed.

Lemma fineTune_ok cfg table pr ws ws' :
  prepare cfg table = Some pr ->
  weightsOk cfg pr ws ->
  fineTuneLossWeightWithVoiding cfg ws (prPayouts pr) (prLossIndices pr)
    (prVoidedOutcomeIndices pr) = Some ws' ->
  weightsOk cfg pr ws'.
Proof.
  intros Hpr [Hlen Hok] Hft. apply prepare_spec in Hpr.
  destruct Hpr as (Hpays & Hloss & _ & _ & _ & Hwin).
  apply fineTuneLossWeightWithVoiding_spec in Hft. destruct Hft as (Hl & Hin & Hout).
  split; [congruence|]. intros i Hi. destruct (Hok i Hi) as [Hz Hf].
  rewrite Forall_forall in Hwin.
  destruct (decide (i ∈ prLossIndices pr)) as [HiL|HiL].
  - split; [|intros _; apply Hin, HiL].
    intros Hv. exfalso. destruct (Hwin i Hv) as (p & Hp & Hw).
    rewrite Hloss in HiL. apply elem_of_lossRows in HiL.
    destruct HiL as (p' & Hp' & Hw'). rewrite Hpays in *. congruence.
  - unfold floored. rewrite (Hout i HiL). split; assumption.
Qed.

Lemma finalWeights_ok cfg table pr ws :
  prepare cfg table = Some pr ->
  finalWeights BaseWeight calculateRTPFromWeights cfg pr = Some ws ->
  weightsOk cfg pr ws.
Proof.
  intros Hpr. unfold finalWeights.
  destruct (calculateWeightsWithVoiding _ _ _ _ _ _) as [ws0|] eqn:Hws0; [|discriminate].
  pose proof (calculateWeightsWithVoiding_ok _ _ _ _ Hpr Hws0) as Hok0.
  destruct (_ && _).
  - intros Hft. eapply fineTune_ok; eauto.
  - intros [= <-]. exact Hok0.
Qed.

(** C5: whenever the optimizer (as NewBucketOptimizer builds it) returns a
    result, [new_weights] has one entry per outcome, [min_weight >= 1],
    every row among the voided outcome indices has weight exactly 0 and
    every other row has a weight of at least [min_weight]. *)
Theorem optimizer_weight_invariants (config : option (BucketOptimizerConfig F))
    (table : LookupTable F) (res : BucketOptimizerResult F) :
  let cfg := NewBucketOptimizer config in
  OptimizeTable BaseWeight calculateRTPFromWeights cfg table = Some (Ok res) ->
  length (NewWeights res) = length (Outcomes table) /\
  1 <= MinWeight cfg /\
  exists pr,
    prepare cfg table = Some pr /\
    forall i, (i < length (Outcomes table))%nat ->
      (i ∈ prVoidedOutcomeIndices pr -> NewWeights res !! i = Some 0) /\
      (i ∉ prVoidedOutcomeIndices pr ->
       exists w, NewWeights res !! i = Some w /\ MinWeight cfg <= w).
Proof.
  intros cfg. unfold OptimizeTable.
  destruct (length (Outcomes table) =? 0)%nat; [discriminate|].
  destruct (prepare cfg table) as [pr|] eqn:Hpr; [|discriminate].
  destruct (finalWeights _ _ cfg pr) as [ws|] eqn:Hws; [|discriminate].
  intros [= <-]. simpl.
  destruct (finalWeights_ok _ _ _ _ Hpr Hws) as [Hlen Hok].
  pose proof (prepare_spec _ _ _ Hpr) as (Hpays & _).
  assert (Hn : length (prPayouts pr) = length (Outcomes table)).
  { rewrite Hpays. unfold normalizedPayouts. apply length_map. }
  split; [congruence|]. split; [apply NewBucketOptimizer_MinWeight|].
  exists pr. split; [reflexivity|]. intros i Hi. apply Hok. lia.
Qed.

End WeightInvariants.

(** ** When the optimizer returns *)

Section Returns.
Context {F : Type} `{Float64Ops F}.
Variable BaseWeight : Z.
Variable calculateRTPFromWeights : list Z -> list F -> F.

(** Once [prepare] has succeeded no store is out of range. *)
Lemma finalWeights_total cfg (table : LookupTable F) pr :
  prepare cfg table = Some pr ->
  is_Some (finalWeights BaseWeight calculateRTPFromWeights cfg pr).
Proof.
  intros Hpr. pose proof (prepare_spec _ _ _ Hpr) as (Hpays & Hloss & Hrows & _ & _ & Hwin).
  set (pays := normalizedPayouts table) in *.
  assert (Hasg : Forall (fun b => Forall (fun i => (i < length (prPayouts pr))%nat)
                                         (outcomeIndices b)) (prAssignments pr)).
  { apply Forall_lookup. intros j b Hb. destruct (Hrows j b Hb) as [-> _].
    apply Forall_forall. intros i Hi. apply elem_of_rowsOfBucket in Hi.
    destruct Hi as (p & Hp & _). rewrite Hpays. eapply lookup_lt_Some, Hp. }
  assert (Hvoid : Forall (fun i => (i < length (prPayouts pr))%nat)
                         (prVoidedOutcomeIndices pr)).
  { eapply Forall_impl; [exact Hwin|]. intros i (p & Hp & _).
    rewrite Hpays. eapply lookup_lt_Some, Hp. }
  assert (HlossIn : Forall (fun i => (i < length (prPayouts pr))%nat) (prLossIndices pr)).
  { apply Forall_forall. intros i Hi. rewrite Hloss in Hi. apply elem_of_lossRows in Hi.
    destruct Hi as (p & Hp & _). rewrite Hpays. eapply lookup_lt_Some, Hp. }
  unfold finalWeights, calculateWeightsWithVoiding.
  destruct (winWeights_total BaseWeight cfg _ _ _ Hasg Hvoid) as [ws1 Hws1].
  rewrite Hws1. apply winWeights_spec in Hws1. destruct Hws1 as (Hl1 & _).
  assert (Hstage : exists ws0,
    (if (0 <? length (prLossIndices pr))%nat
     then writeLossWeights (prLossIndices pr)
            (lossWeightPerOutcome cfg (requiredLossWeight cfg (prPayouts pr) ws1)
               (length (prLossIndices pr))) ws1
     else Some ws1) = Some ws0 /\ length ws0 = length (prPayouts pr)).
  { destruct (0 <? length (prLossIndices pr))%nat; [|eauto].
    destruct (writeLossWeights_total (prLossIndices pr)
                (lossWeightPerOutcome cfg (requiredLossWeight cfg (prPayouts pr) ws1)
                   (length (prLossIndices pr))) ws1) as [ws0 Hws0].
    { rewrite Hl1. exact HlossIn. }
    exists ws0. split; [exact Hws0|].
    apply writeLossWeights_spec in Hws0. destruct Hws0 as [Hl _]. congruence. }
  destruct Hstage as (ws0 & -> & Hl0).
  destruct (_ && _); [|eauto].
  apply fineTuneLossWeightWithVoiding_total; [exact Hl0|]. rewrite Hl0. exact HlossIn.
Qed.

(** A table of losses only passes [prepare] whatever the buckets. *)
Lemma prepare_all_losses cfg (table : LookupTable F) :
  Forall (fun p => fleb p fzero = true) (normalizedPayouts table) ->
  is_Some (prepare cfg table).
Proof.
  intros Hloss. unfold prepare.
  assert (Hauto : autoVoid cfg (normalizedPayouts table) (map SimID (Outcomes table))
                  = Some ([], [])).
  { unfold autoVoid. destruct (EnableAutoVoiding cfg); [|reflexivity].
    apply autoSelectOutcomesToVoid_all_losses, Hloss. }
  rewrite Hauto.
  assert (Hasg : is_Some (assignOutcomesToBuckets cfg (normalizedPayouts table))).
  { unfold assignOutcomesToBuckets.
    destruct (foldM_total (fun _ : list (bucketAssignment F) * list nat => True)
                assignOutcome (enumerate (normalizedPayouts table)))
      with (s := (map emptyAssignment (Buckets cfg), @nil nat))
      as ([asg loss] & -> & _); [|exact I|eauto].
    intros st [i p] Hin _. apply elem_of_enumerate in Hin.
    unfold assignOutcome. simpl. rewrite Forall_lookup in Hloss.
    rewrite (Hloss _ _ Hin). eauto. }
  destruct Hasg as [[asg loss] ->]. eauto.
Qed.

(** [OptimizeTable] returns an error on the empty table and only there. *)
Lemma OptimizeTable_error cfg (table : LookupTable F) :
  (exists e, OptimizeTable BaseWeight calculateRTPFromWeights cfg table = Some (Err e)) <->
  Outcomes table = [].
Proof.
  unfold OptimizeTable. split.
  - intros [e He]. destruct (Outcomes table); [reflexivity|]. simpl in He.
    destruct (prepare cfg _); [|discriminate].
    destruct (finalWeights _ _ _ _); discriminate.
  - intros ->. simpl. eauto.
Qed.

Lemma OptimizeTable_returns cfg (table : LookupTable F) :
  Outcomes table <> [] -> is_Some (prepare cfg table) ->
  exists res, OptimizeTable BaseWeight calculateRTPFromWeights cfg table = Some (Ok res).
Proof.
  intros Hne [pr Hpr]. unfold OptimizeTable.
  destruct (length (Outcomes table) =? 0)%nat eqn:Hn.
  { apply Nat.eqb_eq in Hn. destruct (Outcomes table); [congruence|discriminate]. }
  rewrite Hpr. destruct (finalWeights_total _ _ _ Hpr) as [ws ->]. eauto.
Qed.

End Returns.

(** ** Errors of the optimizer and of the analyzer (binary64) *)

Section ErrorCases.
Variable pow : float -> float -> float.
Local Hint Extern 0 (Float64Ops float) => exact (binary64 pow) : typeclass_instances.
Variable BaseWeight : Z.
Variable calculateRTPFromWeights : list Z -> list float -> float.

(** C10: [OptimizeTable] returns an error exactly when the table has no
    outcome; a non-empty table whose outcomes are all losses gets a
    result, although [AnalyzeTable] rejects it for having no winner. *)
Theorem optimizer_errors_only_on_empty_table (cfg : BucketOptimizerConfig float)
    (table : LookupTable float) :
  ((exists e, OptimizeTable BaseWeight calculateRTPFromWeights cfg table = Some (Err e))
   <-> Outcomes table = []) /\
  (Outcomes table <> [] ->
   Forall (fun p => PrimFloat.leb p 0 = true) (normalizedPayouts table) ->
   (exists res, OptimizeTable BaseWeight calculateRTPFromWeights cfg table = Some (Ok res)) /\
   forall mode target,
     AnalyzeTable table mode target = Err "no winning outcomes in table").
Proof.
  split; [apply OptimizeTable_error|].
  intros Hne Hloss. split.
  - apply OptimizeTable_returns; [exact Hne|]. apply prepare_all_losses. exact Hloss.
  - intros mode target. unfold AnalyzeTable.
    destruct (length (Outcomes table) =? 0)%nat eqn:Hn.
    { apply Nat.eqb_eq in Hn. destruct (Outcomes table); [congruence|discriminate]. }
    destruct (collectStats_spec pow table) as [-> _].
    assert (Hnone : winningPayouts table = []).
    { unfold winningPayouts. induction (normalizedPayouts table) as [|p l IH]; [reflexivity|].
      apply Forall_cons in Hloss. destruct Hloss as [Hp Hl]. simpl.
      rewrite (leb_not_ltb _ _ Hp). apply IH, Hl. }
    rewrite Hnone. reflexivity.
Qed.

End ErrorCases.

(** An all-loss table of two rows, optimized with no bucket at all: the
    optimizer returns a result, the analyzer an error. *)
Lemma optimizer_errors_only_on_empty_table_witness :
  let cfg := configOf (@flit float b64 5 1) [] false in
  let table := tableOf 1 [0; 0] in
  Outcomes table <> [] /\
  Forall (fun p => PrimFloat.leb p 0 = true) (@normalizedPayouts float b64 table) /\
  (exists res, @OptimizeTable float b64 (2 ^ 40) (@rtpFromWeights float b64) cfg table
               = Some (Ok res)) /\
  @AnalyzeTable float b64 table "base" (@flit float b64 96 2)
  = Err "no winning outcomes in table".
Proof.
  intros cfg table.
  assert (Hne : Outcomes table <> []) by discriminate.
  assert (Hloss : Forall (fun p => PrimFloat.leb p 0 = true)
                         (@normalizedPayouts float b64 table)).
  { apply List.Forall_cons; [reflexivity|].
    apply List.Forall_cons; [reflexivity|]. apply List.Forall_nil. }
  destruct (optimizer_errors_only_on_empty_table pow_special (2 ^ 40)
              (@rtpFromWeights float b64) cfg table) as [_ Hrun].
  destruct (Hrun Hne Hloss) as [Hres Han].
  split; [exact Hne|]. split; [exact Hloss|]. split; [exact Hres|]. apply Han.
Defined.

(** Two payouts of 5, one of 1 and a loss, target 0.5 with auto-voiding:
    both rows paying 5 are voided and get weight 0. *)
Lemma optimizer_weight_invariants_witness :
  let config := Some (configOf (@flit float b64 5 1)
                        [bucketOf "all" (@flit float b64 1 2) 10 ConstraintFrequency 2 0]%float
                        true) in
  let table := tableOf 1 [500; 500; 100; 0] in
  exists res,
    @OptimizeTable float b64 (2 ^ 40) (@rtpFromWeights float b64)
      (@NewBucketOptimizer float b64 config) table = Some (Ok res) /\
    length (NewWeights res) = length (Outcomes table) /\
    1 <= MinWeight (@NewBucketOptimizer float b64 config) /\
    NewWeights res !! 0%nat = Some 0.
Proof.
  intros config table.
  let r := eval vm_compute in
    (@OptimizeTable float b64 (2 ^ 40) (@rtpFromWeights float b64)
       (@NewBucketOptimizer float b64 config) table) in
  match r with
  | Some (Ok ?res) =>
      assert (Hrun : @OptimizeTable float b64 (2 ^ 40) (@rtpFromWeights float b64)
                       (@NewBucketOptimizer float b64 config) table
                     = Some (Ok res)) by (vm_compute; reflexivity);
      exists res
  end.
  split; [exact Hrun|].
  pose proof (@optimizer_weight_invariants float b64 (2 ^ 40) (@rtpFromWeights float b64)
                config table _ Hrun) as (Hlen & Hmin & _).
  split; [exact Hlen|]. split; [exact Hmin|]. vm_compute. reflexivity.
Defined.

(** ** The loss-weight closed form *)

Section ClosedForm.
Context {F : Type} `{Float64Ops F}.

(** The rows that win and are not voided, each with its weight and its
    payout. *)
Definition winningNonVoided (pays : list F) (voided : list nat) (weights : list Z)
  : list (nat * (Z * F)) :=
  List.filter (fun '(i, (_, p)) => fltb fzero p && negb (inVoidedSet voided i))
              (enumerate (combine weights pays)).

(** [S = Σ(w_i · p_i)] over the given rows, in float64 and in row order. *)
Definition sumWeightTimesPayout (rows : list (nat * (Z * F))) : F :=
  fold_left (fun acc '(_, (w, p)) => fadd acc (fmul (of_int w) p)) rows fzero.

(** [W = Σ(w_i)] over the given rows, in uint64. *)
Definition sumWeight (rows : list (nat * (Z * F))) : Z :=
  fold_left (fun acc '(_, (w, _)) => uint64_add acc w) rows 0.

(** [L = S / target_rtp − W], clamped up to [min_weight], spread evenly
    over [nloss] loss outcomes, rounded and floored at [min_weight]. *)
Definition closedFormLossWeight (cfg : BucketOptimizerConfig F)
    (rows : list (nat * (Z * F))) (nloss : nat) : Z :=
  let S := sumWeightTimesPayout rows in
  let W := sumWeight rows in
  let L0 := fsub (fdiv S (TargetRTP cfg)) (of_int W) in
  let L := if fltb L0 (of_int (MinWeight cfg)) then of_int (MinWeight cfg) else L0 in
  Z.max (MinWeight cfg) (to_uint64 (fround (fdiv L (of_int (Z.of_nat nloss))))).

Lemma clampMin_max (minWeight w : Z) : clampMin minWeight w = Z.max minWeight w.
Proof.
  unfold clampMin. destruct (w <? minWeight) eqn:Hw.
  - apply Z.ltb_lt in Hw. lia.
  - apply Z.ltb_ge in Hw. lia.
Qed.

Lemma lookup_combine_Some {A B} (l : list A) (k : list B) i a b :
  combine l k !! i = Some (a, b) -> l !! i = Some a /\ k !! i = Some b.
Proof.
  revert k i. induction l as [|x l IH]; intros [|y k] [|i]; simpl; try discriminate.
  - intros [= -> ->]. split; reflexivity.
  - apply IH.
Qed.

(** The code's test [p > 0 && w > 0] selects the rows that win and are
    not voided as soon as the two tests agree on every winning row. *)
Lemma fold_winning_rows {B} (g : B -> Z -> F -> B) (voided : list nat)
    (l : list (Z * F)) : forall k acc,
  (forall j w p, l !! j = Some (w, p) -> fltb fzero p = true ->
                 (0 <? w) = negb (inVoidedSet voided (k + j))) ->
  fold_left (fun acc '(w, p) => if fltb fzero p && (0 <? w) then g acc w p else acc) l acc =
  fold_left (fun acc '(_, (w, p)) => g acc w p)
            (List.filter (fun '(i, (_, p)) => fltb fzero p && negb (inVoidedSet voided i))
                         (combine (seq k (length l)) l)) acc.
Proof.
  induction l as [|[w p] l IH]; intros k acc Hagree; [reflexivity|].
  assert (Htl : forall j w' p', l !! j = Some (w', p') -> fltb fzero p' = true ->
                  (0 <? w') = negb (inVoidedSet voided (S k + j))).
  { intros j w' p' Hj Hp'. replace (S k + j)%nat with (k + S j)%nat by lia.
    apply (Hagree (S j) w' p' Hj Hp'). }
  simpl. destruct (fltb fzero p) eqn:Hp; simpl.
  - rewrite (Hagree 0%nat w p eq_refl Hp). rewrite Nat.add_0_r.
    destruct (negb (inVoidedSet voided k)); simpl; apply IH, Htl.
  - apply IH, Htl.
Qed.

Variable BaseWeight : Z.

(** The loss weight of [calculateWeightsWithVoiding] in closed form, for
    an arithmetic in which a payout above zero is not at most zero. *)
Lemma lossWeight_closed_form (config : option (BucketOptimizerConfig F))
    (table : LookupTable F) pr ws :
  (forall p : F, fltb fzero p = true -> fleb p fzero = false) ->
  let cfg := NewBucketOptimizer config in
  prepare cfg table = Some pr ->
  calculateWeightsWithVoiding BaseWeight cfg (prPayouts pr) (prAssignments pr)
    (prLossIndices pr) (prVoidedOutcomeIndices pr) = Some ws ->
  exists ws1,
    winWeights BaseWeight cfg (prPayouts pr) (prAssignments pr) (prVoidedOutcomeIndices pr)
    = Some ws1 /\
    forall i, i ∈ prLossIndices pr ->
      ws !! i = Some (closedFormLossWeight cfg
                        (winningNonVoided (prPayouts pr) (prVoidedOutcomeIndices pr) ws1)
                        (length (prLossIndices pr))).
Proof.
  intros Hlaw cfg Hpr Hws. apply prepare_spec in Hpr.
  destruct Hpr as (Hpays & _ & _ & Hcover & Hvoid & _).
  apply calculateWeightsWithVoiding_spec in Hws.
  destruct Hws as (ws1 & Hws1 & _ & Hin & _).
  exists ws1. split; [exact Hws1|].
  apply winWeights_spec in Hws1. destruct Hws1 as (_ & _ & Hzero & Hfloor).
  assert (Hagree : forall j w p, combine ws1 (prPayouts pr) !! j = Some (w, p) ->
            fltb fzero p = true ->
            (0 <? w) = negb (inVoidedSet (prVoidedOutcomeIndices pr) (0 + j))).
  { intros j w p Hj Hp. simpl. apply lookup_combine_Some in Hj. destruct Hj as [Hw Hpj].
    destruct (inVoidedSet (prVoidedOutcomeIndices pr) j) eqn:Hv; simpl.
    - apply inVoidedSet_true in Hv. rewrite (Hzero j Hv) in Hw.
      injection Hw as <-. reflexivity.
    - apply inVoidedSet_false in Hv. rewrite Hpays in Hpj.
      destruct (Hcover j p Hpj (Hlaw p Hp)) as (jb & b & Hb & Hib).
      assert (Hnb : isVoided b = false).
      { destruct (isVoided b) eqn:Hvb; [|reflexivity].
        exfalso. apply Hv. eapply Hvoid; eauto. }
      destruct (Hfloor b j (list_elem_of_lookup_2 _ _ _ Hb) Hnb Hib Hv) as (w' & Hw' & Hge).
      pose proof (NewBucketOptimizer_MinWeight config) as Hmin. fold cfg in Hmin.
      assert (w' = w) by congruence. subst w'. apply Z.ltb_lt. lia. }
  intros i Hi. rewrite (Hin i Hi). f_equal.
  unfold lossWeightPerOutcome, closedFormLossWeight, requiredLossWeight.
  rewrite clampMin_max. unfold weightedPayoutSum, totalWinWeight.
  rewrite (fold_winning_rows (fun acc w p => fadd acc (fmul (of_int w) p))
             (prVoidedOutcomeIndices pr) (combine ws1 (prPayouts pr)) 0%nat fzero Hagree).
  rewrite (fold_winning_rows (fun acc w (_ : F) => uint64_add acc w)
             (prVoidedOutcomeIndices pr) (combine ws1 (prPayouts pr)) 0%nat 0 Hagree).
  reflexivity.
Qed.

End ClosedForm.

(** ** Loss weights on binary64 *)

(** Round half to even ([math.RoundToEven]), the rounding the loss-weight
    distribution is documented with. *)
Definition roundHalfToEven (x : float) : float :=
  match Prim2SF x with
  | S754_finite s m e =>
      if 0 <=? e then x
      else
        let d := 2 ^ (- e) in
        let q := Z.pos m / d in
        let r := Z.pos m mod d in
        let n := if 2 * r <? d then q
                 else if d <? 2 * r then q + 1
                 else if Z.even q then q else q + 1 in
        if s then PrimFloat.opp (b64_of_int n) else b64_of_int n
  | _ => x
  end.

(** The per-outcome loss weight as documented: [L / |loss|] rounded half
    to even, then floored at [min_weight]. *)
Definition lossWeightHalfToEven (cfg : BucketOptimizerConfig float) (required : float)
    (nloss : nat) : Z :=
  Z.max (MinWeight cfg)
        (b64_to_uint64 (roundHalfToEven (required / b64_of_int (Z.of_nat nloss)))).

(** One winning row paying 3 in a bucket of type max_win_freq, two loss
    rows, target 0.5. *)
Definition tieTable : LookupTable float := tableOf 1 [300; 0; 0].

Definition tieConfig : BucketOptimizerConfig float :=
  @NewBucketOptimizer float b64
    (Some (configOf (@flit float b64 5 1)
             [bucketOf "wins" (@flit float b64 1 2) 10 ConstraintMaxWinFreq 0 0]%float
             false)).

Section LossWeights.
Variable pow : float -> float -> float.
Local Hint Extern 0 (Float64Ops float) => exact (binary64 pow) : typeclass_instances.
Variable BaseWeight : Z.

(** C3: the loss rows of the materialized weights all hold the closed
    form: with S and W summed over the winning rows that are not voided,
    [L = S / target_rtp - W] clamped up to [min_weight], then
    [round(L / |loss|)] floored at [min_weight]. *)
Theorem loss_weight_closed_form (config : option (BucketOptimizerConfig float))
    (table : LookupTable float) (pr : prepared float) (ws : list Z) :
  let cfg := NewBucketOptimizer config in
  prepare cfg table = Some pr ->
  calculateWeightsWithVoiding BaseWeight cfg (prPayouts pr) (prAssignments pr)
    (prLossIndices pr) (prVoidedOutcomeIndices pr) = Some ws ->
  exists ws1,
    winWeights BaseWeight cfg (prPayouts pr) (prAssignments pr) (prVoidedOutcomeIndices pr)
    = Some ws1 /\
    forall i, i ∈ prLossIndices pr ->
      ws !! i = Some (closedFormLossWeight cfg
                        (winningNonVoided (prPayouts pr) (prVoidedOutcomeIndices pr) ws1)
                        (length (prLossIndices pr))).
Proof.
  intros cfg. apply lossWeight_closed_form.
  intros p Hp. apply ltb_not_leb. exact Hp.
Qed.

(** On an exact tie [math.Round] takes the integer of larger magnitude. *)
Lemma b64_round_tie x s m e :
  Prim2SF x = S754_finite s m e -> e < 0 ->
  Z.pos m mod 2 ^ (- e) = 2 ^ (- e - 1) ->
  b64_round x = let n := b64_of_int (Z.pos m / 2 ^ (- e) + 1) in
                if s then PrimFloat.opp n else n.
Proof.
  intros Hx He Htie. unfold b64_round. rewrite Hx.
  destruct (0 <=? e) eqn:H0; [apply Z.leb_le in H0; lia|].
  assert (Hd : 2 ^ (- e) = 2 * 2 ^ (- e - 1)).
  { replace (- e) with (Z.succ (- e - 1)) at 1 by lia. apply Z.pow_succ_r. lia. }
  assert (Hpos : 0 < 2 ^ (- e - 1)) by (apply Z.pow_pos_nonneg; lia).
  assert (Hq : (Z.pos m + 2 ^ (- e - 1)) / 2 ^ (- e) = Z.pos m / 2 ^ (- e) + 1).
  { symmetry. apply (Z.div_unique _ _ _ 0); [lia|].
    pose proof (Z.div_mod (Z.pos m) (2 ^ (- e))) as Hdm. lia. }
  rewrite Hq. reflexivity.
Qed.

(** C4, as the code has it: the per-outcome loss weight is
    [L / |loss|] rounded by [math.Round] and then floored at [min_weight],
    and [math.Round] rounds an exact half away from zero. *)
Theorem loss_weight_rounds_half_away (cfg : BucketOptimizerConfig float)
    (pays : list float) (asg : list (bucketAssignment float))
    (lossIndices voided : list nat) (ws : list Z) :
  calculateWeightsWithVoiding BaseWeight cfg pays asg lossIndices voided = Some ws ->
  (exists ws1,
     winWeights BaseWeight cfg pays asg voided = Some ws1 /\
     forall i, i ∈ lossIndices ->
       ws !! i = Some (Z.max (MinWeight cfg)
                         (b64_to_uint64
                            (b64_round (requiredLossWeight cfg pays ws1
                                        / b64_of_int (Z.of_nat (length lossIndices))))))) /\
  (forall x s m e,
     Prim2SF x = S754_finite s m e -> e < 0 ->
     Z.pos m mod 2 ^ (- e) = 2 ^ (- e - 1) ->
     b64_round x = let n := b64_of_int (Z.pos m / 2 ^ (- e) + 1) in
                   if s then PrimFloat.opp n else n).
Proof.
  intros Hws. split; [|apply b64_round_tie].
  apply calculateWeightsWithVoiding_spec in Hws.
  destruct Hws as (ws1 & Hws1 & _ & Hin & _).
  exists ws1. split; [exact Hws1|]. intros i Hi. rewrite (Hin i Hi).
  unfold lossWeightPerOutcome. rewrite clampMin_max. reflexivity.
Qed.

End LossWeights.

(** The prepared state of the tie table. *)
Definition tiePrepared : option (prepared float) :=
  @prepare float b64 tieConfig tieTable.

Definition tieWeights : option (list Z) :=
  match tiePrepared with
  | Some pr =>
      @calculateWeightsWithVoiding float b64 (2 ^ 40) tieConfig (prPayouts pr)
        (prAssignments pr) (prLossIndices pr) (prVoidedOutcomeIndices pr)
  | None => None
  end.

Lemma loss_weight_closed_form_witness :
  exists pr ws ws1,
    tiePrepared = Some pr /\ tieWeights = Some ws /\
    @winWeights float b64 (2 ^ 40) tieConfig (prPayouts pr) (prAssignments pr)
      (prVoidedOutcomeIndices pr) = Some ws1 /\
    ws !! 1%nat
    = Some (@closedFormLossWeight float b64 tieConfig
              (@winningNonVoided float b64 (prPayouts pr) (prVoidedOutcomeIndices pr) ws1)
              (length (prLossIndices pr))).
Proof.
  assert (Hws : tieWeights = Some [1; 3; 3]) by (vm_compute; reflexivity).
  let r := eval vm_compute in tiePrepared in
  match r with
  | Some ?pr => assert (Hpr : tiePrepared = Some pr) by (vm_compute; reflexivity)
  end.
  pose proof Hws as Hrun. unfold tieWeights in Hrun. rewrite Hpr in Hrun.
  unfold tiePrepared in Hpr.
  destruct (loss_weight_closed_form pow_special (2 ^ 40)
              (Some (configOf (@flit float b64 5 1)
                 [bucketOf "wins" (@flit float b64 1 2) 10 ConstraintMaxWinFreq 0 0]%float
                 false)) tieTable _ _ Hpr Hrun)
    as (ws1 & Hw1 & Hloss).
  eexists _, _, ws1. split; [exact Hpr|]. split; [exact Hws|]. split; [exact Hw1|].
  apply Hloss. simpl. apply list_elem_of_here.
Defined.

Lemma loss_weight_rounds_half_away_witness :
  exists pr ws ws1,
    tiePrepared = Some pr /\ tieWeights = Some ws /\
    @winWeights float b64 (2 ^ 40) tieConfig (prPayouts pr) (prAssignments pr)
      (prVoidedOutcomeIndices pr) = Some ws1 /\
    ws !! 1%nat
    = Some (Z.max (MinWeight tieConfig)
              (b64_to_uint64
                 (b64_round (@requiredLossWeight float b64 tieConfig (prPayouts pr) ws1
                             / b64_of_int (Z.of_nat (length (prLossIndices pr))))))).
Proof.
  assert (Hws : tieWeights = Some [1; 3; 3]) by (vm_compute; reflexivity).
  let r := eval vm_compute in tiePrepared in
  match r with
  | Some ?pr => assert (Hpr : tiePrepared = Some pr) by (vm_compute; reflexivity)
  end.
  pose proof Hws as Hrun. unfold tieWeights in Hrun. rewrite Hpr in Hrun.
  destruct (loss_weight_rounds_half_away pow_special (2 ^ 40) tieConfig _ _ _ _ _ Hrun)
    as [(ws1 & Hw1 & Hloss) _].
  eexists _, _, ws1. split; [exact Hpr|]. split; [exact Hws|]. split; [exact Hw1|].
  apply Hloss. simpl. apply list_elem_of_here.
Defined.

(** C4, refuted as stated: on the tie table the winning row gets weight 1,
    the required loss weight is [3 / 0.5 - 1 = 5], so each of the two loss
    rows is due 2.5; the code stores 3 where rounding half to even gives
    2. *)
Lemma loss_weight_tie_not_half_to_even :
  tieWeights = Some [1; 3; 3] /\
  @requiredLossWeight float b64 tieConfig [3; 0; 0]%float [1; 0; 0] = 5%float /\
  (5 / b64_of_int 2 = 0x1.4p+1)%float /\
  lossWeightHalfToEven tieConfig 5%float 2 = 2.
Proof.
  split; [vm_compute; reflexivity|]. split; [vm_compute; reflexivity|].
  split; vm_compute; reflexivity.
Qed.

(** ** The inverse-payout rule, in exact arithmetic *)

Section InversePayout.
Local Open Scope R_scope.





























End InversePayout.




(** * Further properties of the code *)

(** ** The watcher over a run of events *)

Section WatcherRuns.
Variable Base : string -> string.

(** Change times that [time.Sub] subtracts without saturating. *)
Definition timesInRange (fw : FileWatcher) : Prop :=
  map_Forall (fun _ t => 0 <= t < 2 ^ 62) (lastChange fw).

Lemma time_Sub_in_range t u :
  0 <= t < 2 ^ 62 -> 0 <= u < 2 ^ 62 -> time_Sub t u = t - u.
Proof. intros Ht Hu. unfold time_Sub. lia. Qed.

(** What an event never changes. *)
Lemma handleEvent_frame fw e now :
  let fw1 := fst (handleEvent Base fw e now) in
  baseDir fw1 = baseDir fw /\ files fw1 = files fw /\ debounce fw1 = debounce fw /\
  enabled fw1 = enabled fw.
Proof.
  unfold handleEvent.
  destruct (negb (enabled fw)); [auto|].
  destruct (negb (Has e OpWrite) && negb (Has e OpCreate)); [auto|].
  destruct (files fw !! Base (evName e)); [|auto].
  destruct (lastChange fw !! Base (evName e)); [|simpl; auto].
  destruct (time_Sub now z <? debounce fw); simpl; auto.
Qed.

(** A started goroutine, read back from the event and the state. *)
Lemma handleEvent_started fw e now fw1 task :
  handleEvent Base fw e now = (fw1, Some task) ->
  enabled fw = true /\
  (Has e OpWrite = true \/ Has e OpCreate = true) /\
  files fw !! Base (evName e) = Some (rtMode task) /\
  rtFile task = Base (evName e) /\ rtPath task = evName e /\
  lastChange fw1 = <[Base (evName e) := now]> (lastChange fw) /\
  (forall t0, lastChange fw !! Base (evName e) = Some t0 ->
              debounce fw <= time_Sub now t0).
Proof.
  unfold handleEvent.
  destruct (enabled fw) eqn:Hen; simpl; [|discriminate].
  destruct (Has e OpWrite) eqn:Hw, (Has e OpCreate) eqn:Hc; simpl; try discriminate;
    (destruct (files fw !! Base (evName e)) as [mode|]; [|discriminate];
     destruct (lastChange fw !! Base (evName e)) as [t1|];
     [destruct (time_Sub now t1 <? debounce fw) eqn:Hd; [discriminate|];
      apply Z.ltb_ge in Hd|];
     intros [= <- <-]; simpl; repeat split; auto; try congruence;
     intros t0 [= <-]; exact Hd).
Qed.

Lemma handleEvent_timesInRange fw e now :
  0 <= now < 2 ^ 62 -> timesInRange fw -> timesInRange (fst (handleEvent Base fw e now)).
Proof.
  intros Hnow Hfw. destruct (handleEvent Base fw e now) as [fw1 [task|]] eqn:Hr.
  - apply handleEvent_started in Hr. destruct Hr as (_ & _ & _ & _ & _ & Hlast & _).
    simpl. unfold timesInRange. rewrite Hlast. apply map_Forall_insert_2; assumption.
  - pose proof (handleEvent_dropped_state Base fw e now) as Hsame.
    rewrite Hr in Hsame. simpl in *. rewrite (Hsame eq_refl). exact Hfw.
Qed.

(** Every goroutine of a run starts at least [debounce] after the last
    change the state records for its file. *)
Lemma run_after_lastChange : forall events fw t task t0,
  0 <= debounce fw -> timesInRange fw ->
  Forall (fun et => 0 <= snd et < 2 ^ 62) events ->
  (t, task) ∈ snd (run Base fw events) ->
  lastChange fw !! rtFile task = Some t0 ->
  debounce fw <= t - t0.
Proof.
  induction events as [|[e now] events IH]; intros fw t task t0 Hd Hfw Hev Hin Hlast.
  - simpl in Hin. inversion Hin.
  - apply Forall_cons in Hev. destruct Hev as [Hnow Hev]. simpl in Hnow.
    pose proof (handleEvent_frame fw e now) as (_ & _ & Hdeb & _).
    pose proof (handleEvent_timesInRange fw e now Hnow Hfw) as Hfw1.
    simpl in Hin.
    destruct (handleEvent Base fw e now) as [fw1 [task1|]] eqn:Hr; simpl in *.
    + pose proof (handleEvent_started _ _ _ _ _ Hr)
        as (_ & _ & _ & Hfile & _ & Hlast1 & Hgap).
      assert (Ht0 : 0 <= t0 < 2 ^ 62) by (apply (Hfw _ _ Hlast)).
      destruct (decide (rtFile task = Base (evName e))) as [Hsame|Hother].
      * rewrite Hsame in Hlast. specialize (Hgap t0 Hlast).
        rewrite (time_Sub_in_range now t0 Hnow Ht0) in Hgap.
        apply elem_of_cons in Hin. destruct Hin as [[= -> ->]|Hin]; [exact Hgap|].
        assert (Hnew : lastChange fw1 !! rtFile task = Some now).
        { rewrite Hlast1, Hsame. apply lookup_insert_eq. }
        pose proof (IH fw1 t task now ltac:(lia) Hfw1 Hev Hin Hnew). lia.
      * apply elem_of_cons in Hin. destruct Hin as [[= -> ->]|Hin]; [congruence|].
        assert (Hold : lastChange fw1 !! rtFile task = Some t0).
        { rewrite Hlast1. rewrite lookup_insert_ne; [exact Hlast|congruence]. }
        pose proof (IH fw1 t task t0 ltac:(lia) Hfw1 Hev Hin Hold). lia.
    + pose proof (handleEvent_dropped_state Base fw e now) as Hsame.
      rewrite Hr in Hsame. simpl in Hsame. rewrite (Hsame eq_refl) in *.
      apply (IH fw t task t0 Hd Hfw Hev Hin Hlast).
Qed.

(** X1: in any run of events, two reloads started for the same file are
    at least [debounce] apart, whatever the order and the times of the
    events in between. *)
Theorem reloads_of_a_file_are_spaced (fw : FileWatcher) (events : list (Event * Z)) :
  0 <= debounce fw -> timesInRange fw ->
  Forall (fun et => 0 <= snd et < 2 ^ 62) events ->
  forall i j ti tj taski taskj,
    (i < j)%nat ->
    snd (run Base fw events) !! i = Some (ti, taski) ->
    snd (run Base fw events) !! j = Some (tj, taskj) ->
    rtFile taski = rtFile taskj ->
    debounce fw <= tj - ti.
Proof.
  revert fw. induction events as [|[e now] events IH]; intros fw Hd Hfw Hev.
  - intros i j ti tj taski taskj _ Hi. simpl in Hi. rewrite lookup_nil in Hi. discriminate.
  - apply Forall_cons in Hev. destruct Hev as [Hnow Hev]. simpl in Hnow.
    pose proof (handleEvent_frame fw e now) as (_ & _ & Hdeb & _).
    pose proof (handleEvent_timesInRange fw e now Hnow Hfw) as Hfw1.
    simpl.
    destruct (handleEvent Base fw e now) as [fw1 [task1|]] eqn:Hr; simpl in *.
    + intros i j ti tj taski taskj Hij Hi Hj Hsame.
      destruct j as [|j]; [lia|]. simpl in Hj.
      destruct i as [|i].
      * simpl in Hi. injection Hi as <- <-.
        pose proof (handleEvent_started _ _ _ _ _ Hr)
          as (_ & _ & _ & Hfile & _ & Hlast1 & _).
        assert (Hnew : lastChange fw1 !! rtFile taskj = Some now).
        { rewrite Hlast1, <- Hsame, Hfile. apply lookup_insert_eq. }
        pose proof (run_after_lastChange events fw1 tj taskj now ltac:(lia) Hfw1 Hev
                      (list_elem_of_lookup_2 _ _ _ Hj) Hnew). lia.
      * simpl in Hi. rewrite <- Hdeb.
        apply (IH fw1 ltac:(lia) Hfw1 Hev i j ti tj taski taskj); [lia|assumption..].
    + pose proof (handleEvent_dropped_state Base fw e now) as Hsame.
      rewrite Hr in Hsame. simpl in Hsame. rewrite (Hsame eq_refl) in *.
      apply (IH fw Hd Hfw Hev).
Qed.

(** X2: a run never changes the tracked files, the debounce interval or
    the enabled flag, and every reload it starts is for a file that is
    tracked, with the mode registered for it, on a write or create event
    of the run, while the watcher is enabled. *)
Theorem run_reloads_only_tracked_files (fw : FileWatcher) (events : list (Event * Z)) :
  let fw' := fst (run Base fw events) in
  (files fw' = files fw /\ debounce fw' = debounce fw /\ enabled fw' = enabled fw) /\
  forall t task, (t, task) ∈ snd (run Base fw events) ->
    enabled fw = true /\
    files fw !! rtFile task = Some (rtMode task) /\
    exists e, (e, t) ∈ events /\
              (Has e OpWrite = true \/ Has e OpCreate = true) /\
              rtFile task = Base (evName e) /\ rtPath task = evName e.
Proof.
  revert fw. induction events as [|[e now] events IH]; intros fw; simpl.
  - split; [auto|]. intros t task Hin. inversion Hin.
  - pose proof (handleEvent_frame fw e now) as (_ & Hfiles & Hdeb & Hen).
    destruct (IH (fst (handleEvent Base fw e now))) as [(Hf & Hd & He) Hrest].
    split; [repeat split; congruence|].
    intros t task Hin.
    assert (Hlater : (t, task) ∈ snd (run Base (fst (handleEvent Base fw e now)) events) ->
              enabled fw = true /\ files fw !! rtFile task = Some (rtMode task) /\
              exists e0, (e0, t) ∈ (e, now) :: events /\
                (Has e0 OpWrite = true \/ Has e0 OpCreate = true) /\
                rtFile task = Base (evName e0) /\ rtPath task = evName e0).
    { intros Hin'. destruct (Hrest t task Hin') as (Hen' & Hfile & e0 & He0 & Hrest0).
      split; [congruence|]. split; [congruence|].
      exists e0. split; [apply list_elem_of_further, He0|exact Hrest0]. }
    destruct (handleEvent Base fw e now) as [fw1 [task1|]] eqn:Hr; simpl in *;
      [|exact (Hlater Hin)].
    apply elem_of_cons in Hin. destruct Hin as [[= -> ->]|Hin]; [|exact (Hlater Hin)].
    pose proof (handleEvent_started _ _ _ _ _ Hr) as (Hen1 & Hop & Hmode & Hfile & Hpath & _).
    split; [exact Hen1|]. split; [rewrite Hfile; exact Hmode|].
    exists e. split; [apply list_elem_of_here|auto].
Qed.

End WatcherRuns.

(** ** Waiting for a file to become stable *)

Section FileStable.

(** The poll comes no later than the 30 seconds of [maxWait]. *)
Definition withinMaxWait (poll : Z * option Z) : Prop := fst poll <= 30 * second.

Lemma waitForFileStable_counting : forall polls lastSize stableCount,
  Forall withinMaxWait polls -> 0 <= stableCount ->
  Z.of_nat (length polls) + stableCount < 3 ->
  waitForFileStable polls lastSize stableCount = None.
Proof.
  induction polls as [|[elapsed stat] polls IH]; intros lastSize stableCount Hin Hc0 Hlen;
    [reflexivity|].
  apply Forall_cons in Hin. destruct Hin as [Hel Hin]. unfold withinMaxWait in Hel.
  simpl in Hel. simpl.
  destruct (30 * second <? elapsed) eqn:Ht; [apply Z.ltb_lt in Ht; unfold second in *; lia|].
  rewrite length_cons, Nat2Z.inj_succ in Hlen.
  destruct stat as [currentSize|]; [|apply IH; [exact Hin|lia|lia]].
  destruct ((currentSize =? lastSize) && (0 <? currentSize)).
  - destruct (3 <=? stableCount + 1) eqn:Hc; [apply Z.leb_le in Hc; lia|].
    apply IH; [exact Hin|lia|lia].
  - apply IH; [exact Hin|lia|lia].
Qed.

(** X3: the wait never ends on fewer than four polls made within the
    maximum wait: the first poll only records a size, and three more must
    agree with it. *)
Theorem waitForFileStable_needs_four_polls (polls : list (Z * option Z)) :
  Forall withinMaxWait polls -> (length polls < 4)%nat ->
  waitForFileStable polls (-1) 0 = None.
Proof.
  intros Hin Hlen. destruct polls as [|[elapsed stat] polls]; [reflexivity|].
  apply Forall_cons in Hin. destruct Hin as [Hel Hin]. unfold withinMaxWait in Hel.
  simpl in Hel, Hlen. simpl.
  destruct (30 * second <? elapsed) eqn:Ht; [apply Z.ltb_lt in Ht; unfold second in *; lia|].
  destruct stat as [currentSize|].
  - assert (Hfirst : (currentSize =? -1) && (0 <? currentSize) = false).
    { destruct (currentSize =? -1) eqn:He; [|reflexivity].
      apply Z.eqb_eq in He. subst. reflexivity. }
    rewrite Hfirst. apply waitForFileStable_counting; [exact Hin|lia|lia].
  - apply waitForFileStable_counting; [exact Hin|lia|lia].
Qed.

(** The file is missing or empty at this poll. *)
Definition missingOrEmpty (poll : Z * option Z) : Prop :=
  match snd poll with
  | None => True
  | Some size => size <= 0
  end.

(** X4: a file that is missing or empty at every poll is never taken
    for stable: within the maximum wait the wait does not end. *)
Theorem waitForFileStable_never_on_empty_file (polls : list (Z * option Z))
    (lastSize stableCount : Z) :
  Forall withinMaxWait polls -> Forall missingOrEmpty polls ->
  waitForFileStable polls lastSize stableCount = None.
Proof.
  revert lastSize stableCount.
  induction polls as [|[elapsed stat] polls IH]; intros lastSize stableCount Hin Hempty;
    [reflexivity|].
  apply Forall_cons in Hin. destruct Hin as [Hel Hin]. unfold withinMaxWait in Hel.
  apply Forall_cons in Hempty. destruct Hempty as [Hsz Hempty]. unfold missingOrEmpty in Hsz.
  simpl in Hel, Hsz. simpl.
  destruct (30 * second <? elapsed) eqn:Ht; [apply Z.ltb_lt in Ht; unfold second in *; lia|].
  destruct stat as [currentSize|]; [|apply IH; assumption].
  assert (Hpos : (0 <? currentSize) = false) by (apply Z.ltb_ge; lia).
  rewrite Hpos, andb_false_r. apply IH; assumption.
Qed.

(** Four polls that all find the size [size]. *)
Definition fourPolls (size : Z) (t1 t2 t3 t4 : Z) : list (Z * option Z) :=
  [(t1, Some size); (t2, Some size); (t3, Some size); (t4, Some size)].

(** X5: the wait ends, with no error, as soon as a poll comes after the
    maximum wait, and at the latest on the fourth of four polls in a row
    that find the same positive size. *)
Theorem waitForFileStable_ends (polls rest : list (Z * option Z)) (size t1 t2 t3 t4 : Z)
    (late : Z * option Z) :
  0 < size -> 30 * second < fst late ->
  waitForFileStable (polls ++ fourPolls size t1 t2 t3 t4 ++ rest) (-1) 0 = Some tt /\
  waitForFileStable (polls ++ late :: rest) (-1) 0 = Some tt.
Proof.
  intros Hsize Hlate.
  assert (Hfour : forall lastSize stableCount, 0 <= stableCount ->
            waitForFileStable (fourPolls size t1 t2 t3 t4 ++ rest) lastSize stableCount
            = Some tt).
  { intros lastSize stableCount Hc. unfold fourPolls. simpl.
    assert (Hpos : (0 <? size) = true) by (apply Z.ltb_lt; lia).
    rewrite Z.eqb_refl, Hpos. simpl.
    destruct (30 * second <? t1); [reflexivity|].
    destruct (30 * second <? t2), (30 * second <? t3), (30 * second <? t4);
      destruct (size =? lastSize); simpl;
      repeat match goal with
             | |- context [3 <=? ?c] => destruct (3 <=? c) eqn:?
             end; try reflexivity;
      repeat match goal with
             | Hle : (3 <=? _) = false |- _ => apply Z.leb_gt in Hle
             end; lia. }
  assert (Hgo : forall tail, (forall lastSize stableCount, 0 <= stableCount ->
            waitForFileStable tail lastSize stableCount = Some tt) ->
            forall lastSize stableCount, 0 <= stableCount ->
            waitForFileStable (polls ++ tail) lastSize stableCount = Some tt).
  { intros tail Htail. induction polls as [|[elapsed stat] polls IH];
      intros lastSize stableCount Hc; [apply Htail, Hc|].
    simpl. destruct (30 * second <? elapsed); [reflexivity|].
    destruct stat as [currentSize|]; [|apply IH; lia].
    destruct ((currentSize =? lastSize) && (0 <? currentSize)).
    - destruct (3 <=? stableCount + 1); [reflexivity|]. apply IH. lia.
    - apply IH. lia. }
  split.
  - apply Hgo; [exact Hfour|lia].
  - apply Hgo; [|lia]. intros lastSize stableCount _. simpl.
    destruct late as [elapsed stat]. simpl in Hlate.
    assert (Ht : (30 * second <? elapsed) = true) by (apply Z.ltb_lt; unfold second in *; lia).
    rewrite Ht. reflexivity.
Qed.

End FileStable.

(** ** Paths, routes and mode names *)

Section Paths.

(** No byte of the string is a slash. *)
Fixpoint noSlash (s : string) : bool :=
  match s with
  | EmptyString => true
  | String c rest => negb (String.eqb (String c "") "/") && noSlash rest
  end.

Lemma splitSlash_piece (piece rest : string) :
  noSlash piece = true ->
  splitSlash (String.append piece (String.append "/" rest)) = piece :: splitSlash rest.
Proof.
  induction piece as [|c piece IH]; intros Hno.
  - reflexivity.
  - change (noSlash (String c piece))
      with (negb (String.eqb (String c "") "/") && noSlash piece) in Hno.
    apply andb_true_iff in Hno. destruct Hno as [Hc Hno].
    apply negb_true_iff in Hc.
    change (splitSlash (String.append (String c piece) (String.append "/" rest)))
      with (if String.eqb (String c "") "/"
            then EmptyString :: splitSlash (String.append piece (String.append "/" rest))
            else match splitSlash (String.append piece (String.append "/" rest)) with
                 | [] => [String c EmptyString]
                 | p :: ps => String c p :: ps
                 end).
    rewrite Hc, (IH Hno). reflexivity.
Qed.

Lemma length_append (a b : string) :
  String.length (String.append a b) = (String.length a + String.length b)%nat.
Proof. induction a as [|c a IH]; simpl; [reflexivity|rewrite IH; reflexivity]. Qed.

Lemma substring_append_skip (a b : string) k n :
  String.substring (String.length a + k) n (String.append a b) = String.substring k n b.
Proof. induction a as [|c a IH]; simpl; [reflexivity|exact IH]. Qed.

Lemma substring_all (s : string) : String.substring 0 (String.length s) s = s.
Proof. induction s as [|c s IH]; simpl; [reflexivity|rewrite IH; reflexivity]. Qed.

(** A suffix no longer than the tail is looked for in the tail alone. *)
Lemma HasSuffix_append (a b suffix : string) :
  (String.length suffix <= String.length b)%nat ->
  HasSuffix (String.append a b) suffix = HasSuffix b suffix.
Proof.
  intros Hlen. unfold HasSuffix. rewrite length_append.
  replace (String.length a + String.length b - String.length suffix)%nat
    with (String.length a + (String.length b - String.length suffix))%nat by lia.
  rewrite substring_append_skip.
  destruct (Nat.leb_spec (String.length suffix) (String.length b)); [|lia].
  destruct (Nat.leb_spec (String.length suffix) (String.length a + String.length b));
    [reflexivity|lia].
Qed.

Lemma HasSuffix_refl (s : string) : HasSuffix s s = true.
Proof.
  unfold HasSuffix. rewrite Nat.leb_refl, Nat.sub_diag, substring_all.
  apply String.eqb_refl.
Qed.

Lemma append_inv_tail (s : string) : forall p q, String.append p s = String.append q s -> p = q.
Proof.
  induction p as [|c p IH]; intros [|d q] Heq; simpl in Heq.
  - reflexivity.
  - apply (f_equal String.length) in Heq. simpl in Heq.
    rewrite !length_append in Heq. simpl in Heq. lia.
  - apply (f_equal String.length) in Heq. simpl in Heq.
    rewrite !length_append in Heq. simpl in Heq. lia.
  - injection Heq as -> Heq. f_equal. apply IH, Heq.
Qed.

(** The path of a request for a mode: [/api/optimizer/<mode>/<action>]. *)
Definition requestPath (mode action : string) : string :=
  String.append "/api/optimizer/" (String.append mode (String.append "/" action)).

(** The names [extractMode] refuses as a mode. *)
Definition reservedModes : list string :=
  ["bucket-presets"; "profiles"; "generate-configs"; "generate-config"].

(** X6: [extractMode] reads the mode back from the path
    [/api/optimizer/<mode>/<action>], for every mode name without a slash
    that is neither the action nor one of the four reserved names; and
    for those names the answer is the empty string, so that a mode called
    like that cannot be addressed. *)
Theorem extractMode_round_trip (mode action : string) :
  noSlash mode = true ->
  extractMode (requestPath mode action) action
  = if bool_decide (mode = action \/ mode ∈ reservedModes) then "" else mode.
Proof.
  intros Hno.
  assert (Hparts : splitSlash (TrimPrefix (requestPath mode action) "/")
                   = "api" :: "optimizer" :: mode :: splitSlash action).
  { unfold TrimPrefix, requestPath. simpl. rewrite substring_all.
    rewrite <- (splitSlash_piece mode action Hno). reflexivity. }
  assert (Hreserved : forall name, In name reservedModes -> name ∈ reservedModes).
  { intros name Hin. apply list_elem_of_In, Hin. }
  unfold extractMode. rewrite Hparts. simpl.
  destruct (String.eqb_spec mode action) as [->|Ha].
  { simpl. rewrite bool_decide_eq_true_2; [reflexivity|left; reflexivity]. }
  destruct (String.eqb_spec mode "bucket-presets") as [->|H1].
  { simpl. rewrite bool_decide_eq_true_2; [reflexivity|right; apply Hreserved; simpl; auto]. }
  destruct (String.eqb_spec mode "profiles") as [->|H2].
  { simpl. rewrite bool_decide_eq_true_2; [reflexivity|right; apply Hreserved; simpl; auto]. }
  destruct (String.eqb_spec mode "generate-configs") as [->|H3].
  { simpl. rewrite bool_decide_eq_true_2; [reflexivity|right; apply Hreserved; simpl; auto]. }
  destruct (String.eqb_spec mode "generate-config") as [->|H4].
  { simpl. rewrite bool_decide_eq_true_2; [reflexivity|right; apply Hreserved; simpl; auto]. }
  simpl. rewrite bool_decide_eq_false_2; [reflexivity|].
  intros [Heq|Hin]; [contradiction|].
  apply list_elem_of_In in Hin. simpl in Hin. intuition congruence.
Qed.

(** X7: every path that ends in [/<action>], for the action of one of
    the eight per-mode handlers, is dispatched to that handler, whatever
    comes before; the one exception is [/api/optimizer/generate-configs]
    itself, which goes to the handler without a mode. *)
Theorem RegisterRoutes_by_action (r : Route) (action before : string) :
  actionOf r = Some action ->
  (r = RouteGenerateConfigsForMode /\ before = "/api/optimizer" ->
   RegisterRoutes (String.append before (String.append "/" action)) = RouteGenerateConfigs) /\
  (~ (r = RouteGenerateConfigsForMode /\ before = "/api/optimizer") ->
   RegisterRoutes (String.append before (String.append "/" action)) = r).
Proof.
  intros Hact. split.
  { intros [-> ->]. injection Hact as <-. reflexivity. }
  intros Hnot.
  assert (Hexact : forall literal,
            HasSuffix literal (String.append "/" action) = false ->
            String.eqb (String.append before (String.append "/" action)) literal = false).
  { intros literal Hsuf.
    destruct (String.eqb_spec (String.append before (String.append "/" action)) literal)
      as [Heq|]; [|reflexivity].
    rewrite <- Heq, HasSuffix_append, HasSuffix_refl in Hsuf; [discriminate|lia]. }
  unfold RegisterRoutes.
  destruct r; simpl in Hact; try discriminate; injection Hact as <-;
    repeat match goal with
           | |- context [HasSuffix (String.append before ?tail) ?suffix] =>
               rewrite (HasSuffix_append before tail suffix) by (simpl; lia);
               let v := eval vm_compute in (HasSuffix tail suffix) in
               change (HasSuffix tail suffix) with v; cbv iota
           end;
    try reflexivity.
  change (String.append "/" "generate-configs") with "/generate-configs" in *.
  rewrite (Hexact "/api/optimizer/bucket-presets") by reflexivity.
  rewrite (Hexact "/api/optimizer/generate-config") by reflexivity.
  rewrite (Hexact "/api/optimizer/profiles") by reflexivity.
  destruct (String.eqb_spec (String.append before "/generate-configs")
              "/api/optimizer/generate-configs") as [Heq|]; [|reflexivity].
  exfalso. apply Hnot. split; [reflexivity|].
  apply (append_inv_tail "/generate-configs"). exact Heq.
Qed.

End Paths.

(** ** The analyzer's percentiles *)

Section PercentileFacts.
Context {F : Type} `{Float64Ops F}.
Variable to_int : F -> Z.

(** The clamps of [getPercentile] keep its index inside a slice that is
    not empty, whatever the conversion to [int] yields. *)
Lemma getPercentile_in (sorted : list F) (p : F) :
  sorted <> [] -> exists v, getPercentile to_int sorted p = Some v /\ v ∈ sorted.
Proof.
  intros Hne. unfold getPercentile.
  assert (Hn : 0 < Z.of_nat (length sorted)) by (destruct sorted; [congruence|simpl; lia]).
  set (n := Z.of_nat (length sorted)) in *.
  set (raw := to_int (fmul (of_int (n - 1)) p)).
  set (idx0 := if raw <? 0 then 0 else raw).
  set (idx := if n <=? idx0 then n - 1 else idx0).
  assert (Hidx : 0 <= idx < n).
  { unfold idx, idx0. destruct (raw <? 0) eqn:Hr.
    - destruct (n <=? 0) eqn:Hc; [apply Z.leb_le in Hc|apply Z.leb_gt in Hc]; lia.
    - apply Z.ltb_ge in Hr.
      destruct (n <=? raw) eqn:Hc; [apply Z.leb_le in Hc|apply Z.leb_gt in Hc]; lia. }
  destruct (idx <? 0) eqn:Hneg; [apply Z.ltb_lt in Hneg; lia|].
  destruct (lookup_lt_is_Some_2 sorted (Z.to_nat idx)) as [v Hv]; [unfold n in Hidx; lia|].
  exists v. split; [exact Hv|]. eapply list_elem_of_lookup_2, Hv.
Qed.

(** X8: [calculatePercentiles] never panics: of an empty slice it returns
    the nil map, and of any other a map with exactly the seven keys p10 to
    p99, each bound to an element of the slice. *)
Theorem calculatePercentiles_reports_payouts (sorted : list F) :
  (sorted = [] -> calculatePercentiles to_int sorted = Some None) /\
  (sorted <> [] ->
   exists m, calculatePercentiles to_int sorted = Some (Some m) /\
     dom m = list_to_set ["p10"; "p25"; "p50"; "p75"; "p90"; "p95"; "p99"] /\
     forall key v, m !! key = Some v -> v ∈ sorted).
Proof.
  split; [intros ->; reflexivity|].
  intros Hne. unfold calculatePercentiles.
  destruct sorted as [|x sorted'] eqn:Hs; [congruence|]. rewrite <- Hs in *. clear Hs.
  assert (Hlen : (length sorted =? 0)%nat = false).
  { destruct sorted; [congruence|reflexivity]. }
  rewrite Hlen. unfold percentileKeys. simpl.
  destruct (getPercentile_in sorted (flit 10 2) Hne) as (v1 & -> & H1).
  destruct (getPercentile_in sorted (flit 25 2) Hne) as (v2 & -> & H2).
  destruct (getPercentile_in sorted (flit 50 2) Hne) as (v3 & -> & H3).
  destruct (getPercentile_in sorted (flit 75 2) Hne) as (v4 & -> & H4).
  destruct (getPercentile_in sorted (flit 90 2) Hne) as (v5 & -> & H5).
  destruct (getPercentile_in sorted (flit 95 2) Hne) as (v6 & -> & H6).
  destruct (getPercentile_in sorted (flit 99 2) Hne) as (v7 & -> & H7).
  eexists. split; [reflexivity|]. split.
  - rewrite !dom_insert_L, dom_empty_L. simpl. set_solver.
  - intros key v Hkv.
    repeat (apply lookup_insert_Some in Hkv; destruct Hkv as [[_ <-]|[_ Hkv]];
            [assumption|]).
    rewrite lookup_empty in Hkv. discriminate.
Qed.

End PercentileFacts.

(** ** Validated buckets (binary64) *)

(** More order facts of the binary64 comparisons. *)
Lemma leb_ordered_l x y : PrimFloat.leb x y = true -> ordered x.
Proof.
  rewrite leb_fcmp. unfold fcmp, ordered. intros [Hc|Hc]; eapply SFcompare_Some_l, Hc.
Qed.

Lemma leb_ordered_r x y : PrimFloat.leb x y = true -> ordered y.
Proof.
  rewrite leb_fcmp. unfold fcmp, ordered. intros [Hc|Hc]; eapply SFcompare_Some_r, Hc.
Qed.

Lemma leb_trans x y z :
  PrimFloat.leb x y = true -> PrimFloat.leb y z = true -> PrimFloat.leb x z = true.
Proof.
  intros Hxy Hyz. apply not_ltb_leb.
  - eapply leb_ordered_r, Hyz.
  - eapply leb_ordered_l, Hxy.
  - destruct (PrimFloat.ltb z x) eqn:Hzx; [|reflexivity].
    pose proof (ltb_leb_trans _ _ _ Hzx Hxy) as Hzy.
    pose proof (leb_not_ltb _ _ Hyz) as Hno. congruence.
Qed.

Lemma ltb_asym x y : PrimFloat.ltb x y = true -> PrimFloat.ltb y x = false.
Proof. intros Hxy. apply leb_not_ltb, ltb_leb, Hxy. Qed.

Lemma not_ltb_eqb x y :
  ordered x -> ordered y ->
  PrimFloat.ltb x y = false -> PrimFloat.ltb y x = false -> PrimFloat.eqb x y = true.
Proof.
  intros Hx Hy Hxy Hyx. apply eqb_fcmp.
  destruct (SFcompare_total _ _ Hx Hy) as [c Hc]. fold (fcmp x y) in Hc.
  destruct c; [exact Hc| |].
  - apply ltb_fcmp in Hc. congruence.
  - pose proof (fcmp_antisym x y) as Ha. rewrite Hc in Ha. simpl in Ha.
    apply ltb_fcmp in Ha. congruence.
Qed.

Lemma ordered_zero : ordered 0%float.
Proof. unfold ordered. vm_compute. discriminate. Qed.

(** The buckets are listed by strictly increasing [MinPayout]. *)
Fixpoint ascending (buckets : list (BucketConfig float)) : bool :=
  match buckets with
  | a :: ((b :: _) as rest) => PrimFloat.ltb (MinPayout a) (MinPayout b) && ascending rest
  | _ => true
  end.

(** No bound of a bucket is NaN. *)
Definition boundsOrdered (b : BucketConfig float) : Prop :=
  ordered (MinPayout b) /\ ordered (MaxPayout b).

(** [less] never holds from a later element to an earlier one. *)
Definition sortedByMinPayout (l : list (BucketConfig float)) : Prop :=
  forall i j a b, (i < j)%nat -> l !! i = Some a -> l !! j = Some b ->
                  PrimFloat.ltb (MinPayout b) (MinPayout a) = false.

Lemma ascending_lookup : forall buckets i j a b,
  ascending buckets = true -> (i < j)%nat ->
  buckets !! i = Some a -> buckets !! j = Some b ->
  PrimFloat.ltb (MinPayout a) (MinPayout b) = true.
Proof.
  induction buckets as [|x l IH]; intros i j a b Hasc Hij Ha Hb; [discriminate|].
  destruct l as [|y l]; [destruct j as [|[|j]]; simpl in Hb; try discriminate; lia|].
  change (ascending (x :: y :: l))
    with (PrimFloat.ltb (MinPayout x) (MinPayout y) && ascending (y :: l)) in Hasc.
  apply andb_true_iff in Hasc. destruct Hasc as [Hxy Hasc].
  destruct j as [|j]; [lia|]. simpl in Hb.
  destruct i as [|i].
  - simpl in Ha. injection Ha as <-.
    destruct j as [|j].
    + simpl in Hb. injection Hb as <-. exact Hxy.
    + eapply ltb_trans; [exact Hxy|].
      apply (IH 0%nat (S j) y b Hasc); [lia|reflexivity|exact Hb].
  - simpl in Ha. apply (IH i j a b Hasc); [lia|exact Ha|exact Hb].
Qed.

(** A list in strictly increasing order has one sorted arrangement. *)
Lemma sorted_permutation_unique : forall l l' : list (BucketConfig float),
  ascending l = true -> sortedByMinPayout l' -> l' ≡ₚ l -> l' = l.
Proof.
  induction l as [|x xs IH]; intros l' Hasc Hsorted Hperm.
  - apply Permutation_nil_r in Hperm. exact Hperm.
  - destruct l' as [|y ys]; [apply Permutation_nil_l in Hperm; discriminate|].
    assert (Hy : y = x).
    { assert (Hyin : y ∈ x :: xs) by (rewrite <- Hperm; apply list_elem_of_here).
      apply elem_of_cons in Hyin. destruct Hyin as [Hyx|Hyin]; [exact Hyx|].
      assert (Hxin : x ∈ y :: ys) by (rewrite Hperm; apply list_elem_of_here).
      apply elem_of_cons in Hxin. destruct Hxin as [Hxy|Hxin]; [congruence|].
      exfalso. apply list_elem_of_lookup in Hyin. destruct Hyin as [k Hk].
      apply list_elem_of_lookup in Hxin. destruct Hxin as [k' Hk'].
      pose proof (ascending_lookup (x :: xs) 0%nat (S k) x y Hasc ltac:(lia) eq_refl Hk)
        as Hlt.
      pose proof (Hsorted 0%nat (S k') y x ltac:(lia) eq_refl Hk') as Hno.
      congruence. }
    subst y. f_equal. apply IH.
    + destruct xs as [|z xs]; [reflexivity|].
      change (ascending (x :: z :: xs))
        with (PrimFloat.ltb (MinPayout x) (MinPayout z) && ascending (z :: xs)) in Hasc.
      apply andb_true_iff in Hasc. apply Hasc.
    + intros i j a b Hij Ha Hb. apply (Hsorted (S i) (S j) a b); [lia|exact Ha|exact Hb].
    + eapply Permutation_cons_inv, Hperm.
Qed.

Section Validated.
Variable pow : float -> float -> float.
Local Hint Extern 0 (Float64Ops float) => exact (binary64 pow) : typeclass_instances.

(** What [sort.Slice] promises: a rearrangement of the slice, sorted by
    [less] when [less] orders the elements (no [MinPayout] is NaN). *)
Variable sortByMinPayout : list (BucketConfig float) -> list (BucketConfig float).
Hypothesis sort_permutation : forall l, sortByMinPayout l ≡ₚ l.
Hypothesis sort_sorted : forall l,
  Forall (fun b => ordered (MinPayout b)) l -> sortedByMinPayout (sortByMinPayout l).

Lemma sort_ascending (l : list (BucketConfig float)) :
  ascending l = true -> sortByMinPayout l = l.
Proof.
  intros Hasc. destruct l as [|x [|y l]].
  - apply Permutation_nil_r, sort_permutation.
  - apply Permutation_singleton_r, sort_permutation.
  - apply sorted_permutation_unique; [exact Hasc| |apply sort_permutation].
    apply sort_sorted. apply Forall_lookup. intros i b Hb.
    destruct i as [|i].
    + simpl in Hb. injection Hb as <-.
      eapply ltb_ordered_l.
      apply (ascending_lookup (x :: y :: l) 0%nat 1%nat x y Hasc); [lia|reflexivity..].
    + eapply ltb_ordered_r.
      apply (ascending_lookup (x :: y :: l) 0%nat (S i) x b Hasc); [lia|reflexivity|exact Hb].
Qed.

(** Neighbours that pass the gap and overlap checks. *)
Lemma checkNeighbours_lookup : forall (sorted : list (BucketConfig float)) i a b,
  checkNeighbours sorted = None ->
  sorted !! i = Some a -> sorted !! S i = Some b ->
  PrimFloat.ltb (MaxPayout a) (MinPayout b) = false /\
  PrimFloat.ltb (MinPayout b) (MaxPayout a) = false.
Proof.
  induction sorted as [|x l IH]; intros i a b Hcheck Ha Hb; [discriminate|].
  destruct l as [|y l]; [discriminate|].
  change (checkNeighbours (x :: y :: l))
    with (if PrimFloat.ltb (MaxPayout x) (MinPayout y) then Some (ErrGap x y)
          else if PrimFloat.ltb (MinPayout y) (MaxPayout x) then Some (ErrOverlap x y)
          else checkNeighbours (y :: l)) in Hcheck.
  destruct (PrimFloat.ltb (MaxPayout x) (MinPayout y)) eqn:Hgap; [discriminate|].
  destruct (PrimFloat.ltb (MinPayout y) (MaxPayout x)) eqn:Hover; [discriminate|].
  destruct i as [|i].
  - simpl in Ha, Hb. injection Ha as <-. injection Hb as <-. split; assumption.
  - apply (IH i a b Hcheck); assumption.
Qed.

Lemma checkBuckets_Forall : forall buckets : list (BucketConfig float),
  checkBuckets buckets = None -> Forall (fun b => checkBucket b = None) buckets.
Proof.
  induction buckets as [|b l IH]; simpl; intros Hcheck; [constructor|].
  destruct (checkBucket b) eqn:Hb; [discriminate|].
  apply List.Forall_cons; [exact Hb|apply IH, Hcheck].
Qed.

(** The constraint types [ValidateBuckets] knows. *)
Definition knownTypes : list string :=
  [ConstraintFrequency; ConstraintRTPPercent; ConstraintAuto; ConstraintMaxWinFreq;
   ConstraintOutcomeFreq].

(** X9: buckets that [ValidateBuckets] accepts and whose bounds are not
    NaN tile the payout axis: in the order of their minimum payouts each
    bucket ends exactly where the next one begins, every bucket has
    [0 <= min <= max], a constraint type the optimizer knows and a
    priority of 0, 1 or 2. *)
Theorem validated_buckets_tile (buckets : list (BucketConfig float)) :
  ValidateBuckets sortByMinPayout buckets = None ->
  Forall boundsOrdered buckets ->
  buckets <> [] /\
  (forall i a b, sortByMinPayout buckets !! i = Some a ->
                 sortByMinPayout buckets !! S i = Some b ->
                 PrimFloat.eqb (MaxPayout a) (MinPayout b) = true) /\
  Forall (fun b => PrimFloat.leb 0 (MinPayout b) = true /\
                   PrimFloat.leb (MinPayout b) (MaxPayout b) = true /\
                   Type_ b ∈ knownTypes /\ 0 <= Priority b <= 2) buckets.
Proof.
  unfold ValidateBuckets. intros Hvalid Hbounds.
  destruct (length buckets =? 0)%nat eqn:Hlen; [discriminate|].
  destruct (checkNeighbours (sortByMinPayout buckets)) eqn:Hn; [discriminate|].
  split; [intros ->; discriminate|]. split.
  - intros i a b Ha Hb.
    destruct (checkNeighbours_lookup _ i a b Hn Ha Hb) as [Hgap Hover].
    assert (Hin : forall c k, sortByMinPayout buckets !! k = Some c -> boundsOrdered c).
    { intros c k Hc. rewrite Forall_forall in Hbounds. apply Hbounds.
      rewrite <- (sort_permutation buckets). eapply list_elem_of_lookup_2, Hc. }
    apply not_ltb_eqb; [apply (Hin a i Ha)|apply (Hin b (S i) Hb)|exact Hgap|exact Hover].
  - apply checkBuckets_Forall in Hvalid.
    eapply Forall_impl; [apply Forall_and; split; [exact Hvalid|exact Hbounds]|].
    intros b [Hb [Hmin Hmax]]. unfold checkBucket in Hb.
    change (@fltb float (binary64 pow)) with PrimFloat.ltb in Hb.
    change (@fzero float (binary64 pow)) with 0%float in Hb.
    destruct (PrimFloat.ltb (MinPayout b) 0) eqn:Hneg; [discriminate|].
    destruct (PrimFloat.ltb (MaxPayout b) (MinPayout b)) eqn:Hinv; [discriminate|].
    split; [apply not_ltb_leb; [exact Hmin|exact ordered_zero|exact Hneg]|].
    split; [apply not_ltb_leb; assumption|].
    assert (Hreason : forall ty, In ty knownTypes -> ty ∈ knownTypes).
    { intros ty Hty. apply list_elem_of_In, Hty. }
    assert (Hprio : forall e : option (BucketError float),
              match e with
              | Some e0 => Some e0
              | None => if negb (Priority b =? 0) && negb (Priority b =? PriorityHard)
                           && negb (Priority b =? PrioritySoft)
                        then Some (ErrPriority (Name b) (Priority b)) else None
              end = None -> 0 <= Priority b <= 2).
    { intros [e|]; [discriminate|]. unfold PriorityHard, PrioritySoft.
      destruct (Priority b =? 0) eqn:H0; [apply Z.eqb_eq in H0; lia|].
      destruct (Priority b =? 1) eqn:H1; [apply Z.eqb_eq in H1; lia|].
      destruct (Priority b =? 2) eqn:H2; [apply Z.eqb_eq in H2; lia|]. discriminate. }
    split; [|eapply Hprio, Hb].
    destruct (String.eqb_spec (Type_ b) ConstraintFrequency) as [->|];
      [apply Hreason; simpl; auto|].
    destruct (String.eqb_spec (Type_ b) ConstraintRTPPercent) as [->|];
      [apply Hreason; simpl; auto|].
    destruct (String.eqb_spec (Type_ b) ConstraintAuto) as [->|];
      [apply Hreason; simpl; auto|].
    destruct (String.eqb_spec (Type_ b) ConstraintMaxWinFreq) as [->|];
      [apply Hreason; simpl; auto|].
    destruct (String.eqb_spec (Type_ b) ConstraintOutcomeFreq) as [->|];
      [apply Hreason; simpl; auto 10|].
    discriminate.
Qed.

(** Buckets without gaps take every payout between the first minimum and
    the last maximum by range. *)
Lemma firstInRange_covers (nb : nat) (p : float) : forall (cs : list (BucketConfig float)) k,
  cs <> [] -> (k + length cs = nb)%nat ->
  Forall boundsOrdered cs ->
  (forall i a b, cs !! i = Some a -> cs !! S i = Some b ->
                 PrimFloat.ltb (MaxPayout a) (MinPayout b) = false) ->
  (forall first, cs !! 0%nat = Some first -> PrimFloat.leb (MinPayout first) p = true) ->
  (forall final, last cs = Some final -> PrimFloat.leb p (MaxPayout final) = true) ->
  is_Some (firstInRange nb (combine (seq k (length cs)) cs) p).
Proof.
  induction cs as [|a cs IH]; intros k Hne Hnb Hbounds Hgap Hfirst Hlast; [congruence|].
  simpl. unfold inRange.
  change (@fleb float (binary64 pow)) with PrimFloat.leb.
  change (@fltb float (binary64 pow)) with PrimFloat.ltb.
  rewrite (Hfirst a eq_refl). simpl.
  destruct cs as [|b cs].
  - simpl in Hnb.
    destruct (Z.of_nat k <? Z.of_nat nb - 1) eqn:Hk; [apply Z.ltb_lt in Hk; lia|].
    rewrite (Hlast a eq_refl). eauto.
  - destruct (Z.of_nat k <? Z.of_nat nb - 1) eqn:Hk;
      [|apply Z.ltb_ge in Hk; simpl in Hnb; lia].
    destruct (PrimFloat.ltb p (MaxPayout a)) eqn:Hin; [eauto|].
    apply Forall_cons in Hbounds. destruct Hbounds as [[_ Hmax] Hbounds].
    pose proof Hbounds as Hb. apply Forall_cons in Hb. destruct Hb as [[Hmin _] _].
    apply (IH (S k)); [discriminate|simpl in *; lia|exact Hbounds| | |].
    + intros i x y Hx Hy. apply (Hgap (S i) x y); assumption.
    + intros first [= <-].
      apply leb_trans with (y := MaxPayout a).
      * apply not_ltb_leb; [exact Hmax|exact Hmin|].
        apply (Hgap 0%nat a b); reflexivity.
      * apply not_ltb_leb; [eapply leb_ordered_r, (Hfirst a eq_refl)|exact Hmax|exact Hin].
    + intros final Hfinal. apply Hlast. exact Hfinal.
Qed.

(** The search of the assignment finds, for every payout between the
    first minimum and the last maximum, a bucket whose range holds it. *)
Lemma targetBucket_covers (buckets : list (BucketConfig float))
    (first final : BucketConfig float) (p : float) :
  ValidateBuckets sortByMinPayout buckets = None ->
  ascending buckets = true -> Forall boundsOrdered buckets ->
  buckets !! 0%nat = Some first -> last buckets = Some final ->
  PrimFloat.leb (MinPayout first) p = true -> PrimFloat.leb p (MaxPayout final) = true ->
  exists c, buckets !! targetBucket buckets p = Some c /\
            inBucketRange (S (targetBucket buckets p) =? length buckets)%nat c p = true.
Proof.
  intros Hvalid Hasc Hbounds Hfirst Hfinal Hlo Hhi.
  unfold ValidateBuckets in Hvalid.
  destruct (length buckets =? 0)%nat eqn:Hlen; [discriminate|].
  rewrite (sort_ascending buckets Hasc) in Hvalid.
  destruct (checkNeighbours buckets) eqn:Hn; [discriminate|].
  destruct (firstInRange_covers (length buckets) p buckets 0) as [j Hj].
  - intros ->. discriminate.
  - reflexivity.
  - exact Hbounds.
  - intros i a b Ha Hb. apply (checkNeighbours_lookup buckets i a b Hn Ha Hb).
  - intros f Hf. rewrite Hfirst in Hf. injection Hf as <-. exact Hlo.
  - intros f Hf. rewrite Hfinal in Hf. injection Hf as <-. exact Hhi.
  - unfold targetBucket, enumerate. rewrite Hj.
    apply firstInRange_Some in Hj. destruct Hj as (c & Hc & _ & Hin & _).
    rewrite Nat.sub_0_r in Hc. exists c. split; [exact Hc|].
    rewrite <- (inRange_b64 pow buckets); [exact Hin|]. eapply lookup_lt_Some, Hc.
Qed.

(** X10: when the buckets of the configuration are listed by increasing
    minimum payout, have no NaN bound and pass [ValidateBuckets],
    [assignOutcomesToBuckets] returns, and it puts every winning outcome
    (payout above zero) whose payout lies between the first minimum and
    the last maximum into a bucket whose range holds the payout, never
    into the closest bucket of the fallback. *)
Theorem validated_buckets_cover (cfg : BucketOptimizerConfig float)
    (first final : BucketConfig float) (pays : list float) :
  ValidateBuckets sortByMinPayout (Buckets cfg) = None ->
  ascending (Buckets cfg) = true -> Forall boundsOrdered (Buckets cfg) ->
  Buckets cfg !! 0%nat = Some first -> last (Buckets cfg) = Some final ->
  exists asg lossIndices,
    assignOutcomesToBuckets cfg pays = Some (asg, lossIndices) /\
    forall i p, pays !! i = Some p -> PrimFloat.ltb 0 p = true ->
      PrimFloat.leb (MinPayout first) p = true ->
      PrimFloat.leb p (MaxPayout final) = true ->
      exists j c,
        Buckets cfg !! j = Some c /\ i ∈ indicesOf asg j /\ (i ∉ lossIndices) /\
        inBucketRange (S j =? length (Buckets cfg))%nat c p = true.
Proof.
  intros Hvalid Hasc Hbounds Hfirst Hfinal.
  assert (Hne : Buckets cfg <> []) by (intros Hnil; rewrite Hnil in Hfirst; discriminate).
  destruct (assignOutcomesToBuckets_total cfg pays Hne) as [[asg loss] Hrun].
  exists asg, loss. split; [exact Hrun|].
  apply assignOutcomesToBuckets_spec in Hrun. destruct Hrun as (_ & Hrows & Hloss).
  intros i p Hp Hpos Hlo Hhi.
  destruct (targetBucket_covers (Buckets cfg) first final p Hvalid Hasc Hbounds Hfirst Hfinal
              Hlo Hhi) as (c & Hc & Hin).
  exists (targetBucket (Buckets cfg) p), c.
  split; [exact Hc|]. split; [|split; [|exact Hin]].
  - rewrite Hrows. apply elem_of_rowsOfBucket. exists p.
    split; [exact Hp|]. split; [apply ltb_not_leb, Hpos|reflexivity].
  - rewrite Hloss. intros Hl. apply elem_of_lossRows in Hl.
    destruct Hl as (q & Hq & Hle). rewrite Hp in Hq. injection Hq as <-.
    change (@fleb float (binary64 pow) p fzero) with (PrimFloat.leb p 0) in Hle.
    rewrite (ltb_not_leb _ _ Hpos) in Hle. discriminate.
Qed.

(** The buckets of [DefaultBucketConfig] pass [ValidateBuckets]. *)
Theorem default_buckets_are_valid :
  ValidateBuckets sortByMinPayout (Buckets DefaultBucketConfig) = None.
Proof.
  unfold ValidateBuckets.
  rewrite sort_ascending by (vm_compute; reflexivity).
  vm_compute. reflexivity.
Qed.

End Validated.

(** ** Suggested buckets *)

Section MaxWinBucket.
Context {F : Type} `{Float64Ops F}.

Lemma containingIndex_lookup (maxPayout : F) : forall (buckets : list (BucketConfig F)) k i,
  containingIndex buckets maxPayout k = Some i ->
  (k <= i)%nat /\ is_Some (buckets !! (i - k)%nat).
Proof.
  induction buckets as [|b l IH]; intros k i; simpl; [discriminate|].
  destruct (fleb (MinPayout b) maxPayout && fleb maxPayout (MaxPayout b)).
  - intros [= <-]. rewrite Nat.sub_diag. simpl. eauto.
  - intros Hi. apply IH in Hi. destruct Hi as [Hk Hi].
    split; [lia|]. replace (i - k)%nat with (S (i - S k)) by lia. exact Hi.
Qed.

(** X11: given at least one bucket and a maximum payout above zero,
    [ensureMaxWinBucket] drops no bucket, adds at most one, and returns a
    list that holds a bucket flagged as the max-win bucket. *)
Theorem ensureMaxWinBucket_flags_a_bucket (buckets : list (BucketConfig F))
    (maxPayout : F) :
  buckets <> [] -> fleb maxPayout fzero = false ->
  let result := ensureMaxWinBucket buckets maxPayout in
  (length buckets <= length result <= S (length buckets))%nat /\
  exists b, b ∈ result /\ IsMaxWinBucket b = true.
Proof.
  intros Hne Hpos result. unfold result, ensureMaxWinBucket.
  assert (Hlen : (length buckets =? 0)%nat = false).
  { destruct buckets; [congruence|reflexivity]. }
  rewrite Hlen, Hpos. simpl.
  assert (Happend : forall l : list (BucketConfig F),
            length l = length buckets ->
            (length buckets
             <= length (l ++ [maxwinBucket (maxWinThresholdOf maxPayout) maxPayout])
             <= S (length buckets))%nat /\
            exists b, b ∈ l ++ [maxwinBucket (maxWinThresholdOf maxPayout) maxPayout] /\
                      IsMaxWinBucket b = true).
  { intros l Hl. rewrite length_app, Hl. simpl. split; [lia|].
    eexists. split; [apply elem_of_app; right; apply list_elem_of_here|reflexivity]. }
  destruct (containingIndex buckets maxPayout 0) as [i|] eqn:Hi; [|apply Happend; reflexivity].
  destruct (buckets !! i) as [bucket|] eqn:Hb; [|apply Happend; reflexivity].
  destruct (IsMaxWinBucket bucket) eqn:Hflag.
  - split; [lia|]. exists bucket. split; [eapply list_elem_of_lookup_2, Hb|exact Hflag].
  - destruct (fleb (maxWinThresholdOf maxPayout) (MinPayout bucket)).
    + rewrite length_insert. split; [lia|].
      exists (markMaxWin bucket). split; [|reflexivity].
      eapply list_elem_of_lookup_2. apply list_lookup_insert_eq. eapply lookup_lt_Some, Hb.
    + apply Happend. apply length_insert.
Qed.

End MaxWinBucket.

Section Suggested.
Variable pow : float -> float -> float.
Local Hint Extern 0 (Float64Ops float) => exact (binary64 pow) : typeclass_instances.

(** The largest payout [SuggestBuckets] finds is zero when no payout is
    above zero, and above zero otherwise. *)
Lemma payoutBounds_max : forall (pays : list float) (maxPayout minPayout : float),
  maxPayout = 0%float \/ PrimFloat.ltb 0 maxPayout = true ->
  let result := fold_left (fun '(maxPayout, minPayout) payout =>
                  (if PrimFloat.ltb maxPayout payout then payout else maxPayout,
                   if PrimFloat.ltb 0 payout && PrimFloat.ltb payout minPayout
                   then payout else minPayout)) pays (maxPayout, minPayout) in
  (fst result = 0%float /\ maxPayout = 0%float /\
   Forall (fun p => PrimFloat.ltb 0 p = false) pays) \/
  PrimFloat.ltb 0 (fst result) = true.
Proof.
  induction pays as [|p pays IH]; intros maxPayout minPayout Hmax.
  - simpl. destruct Hmax as [->|Hmax]; [left; auto|right; exact Hmax].
  - simpl.
    destruct (PrimFloat.ltb maxPayout p) eqn:Hp.
    + right.
      assert (Hpos : PrimFloat.ltb 0 p = true).
      { destruct Hmax as [->|Hmax]; [exact Hp|eapply ltb_trans; eassumption]. }
      destruct (IH p (if PrimFloat.ltb 0 p && PrimFloat.ltb p minPayout then p
                      else minPayout) (or_intror Hpos)) as [(Hz & -> & _)|Hr].
      * pose proof (ltb_irrefl 0%float). congruence.
      * exact Hr.
    + destruct (IH maxPayout (if PrimFloat.ltb 0 p && PrimFloat.ltb p minPayout then p
                              else minPayout) Hmax) as [(Hz & Hm & Hall)|Hr].
      * left. split; [exact Hz|]. split; [exact Hm|].
        apply List.Forall_cons; [|exact Hall]. rewrite Hm in Hp. exact Hp.
      * right. exact Hr.
Qed.

Lemma suggestStandardBuckets_nonempty (maxPayout : float) :
  suggestStandardBuckets maxPayout <> [].
Proof. unfold suggestStandardBuckets. discriminate. Qed.

Lemma suggestBonusBuckets_nonempty (minPayout maxPayout targetRTP : float) :
  suggestBonusBuckets minPayout maxPayout targetRTP <> [].
Proof. unfold suggestBonusBuckets. discriminate. Qed.

(** X12: [SuggestBuckets] returns no bucket exactly when the table has no
    outcome with a payout above zero. *)
Theorem SuggestBuckets_empty_iff_no_winner (table : LookupTable float) (targetRTP : float) :
  SuggestBuckets table targetRTP = [] <->
  Forall (fun p => PrimFloat.ltb 0 p = false) (normalizedPayouts table).
Proof.
  unfold SuggestBuckets, payoutBounds.
  pose proof (payoutBounds_max (normalizedPayouts table) 0%float b64_MaxFloat64
                (or_introl eq_refl)) as Hmax. cbv zeta in Hmax.
  change (@fltb float (binary64 pow)) with PrimFloat.ltb.
  change (@fzero float (binary64 pow)) with 0%float.
  change (@MaxFloat64 float (binary64 pow)) with b64_MaxFloat64.
  destruct (fold_left _ (normalizedPayouts table) (0%float, b64_MaxFloat64))
    as [maxPayout minPayout] eqn:Hfold.
  simpl in Hmax. change (@fleb float (binary64 pow)) with PrimFloat.leb.
  destruct Hmax as [(-> & _ & Hall)|Hpos].
  - change (PrimFloat.leb 0 0) with true. simpl. split; [intros _; exact Hall|reflexivity].
  - rewrite (ltb_not_leb _ _ Hpos). split.
    + intros Hnil. exfalso.
      assert (Hne : (if PrimFloat.ltb (@flit float (binary64 pow) 15 1) (tableCost table)
                     then suggestBonusBuckets minPayout maxPayout targetRTP
                     else suggestStandardBuckets maxPayout) <> []).
      { destruct (PrimFloat.ltb _ (tableCost table));
          [apply suggestBonusBuckets_nonempty|apply suggestStandardBuckets_nonempty]. }
      destruct (@ensureMaxWinBucket_flags_a_bucket float (binary64 pow) _ maxPayout Hne
                  (ltb_not_leb _ _ Hpos))
        as [_ (b & Hb & _)].
      rewrite Hnil in Hb. inversion Hb.
    + intros Hall. exfalso.
      pose proof (payoutBounds_max (normalizedPayouts table) 0%float b64_MaxFloat64
                    (or_introl eq_refl)) as Hmax. cbv zeta in Hmax.
      rewrite Hfold in Hmax. simpl in Hmax.
      assert (Hcontra : forall (l : list float) mx mn,
                Forall (fun p => PrimFloat.ltb 0 p = false) l ->
                fst (fold_left (fun '(maxPayout, minPayout) payout =>
                       (if PrimFloat.ltb maxPayout payout then payout else maxPayout,
                        if PrimFloat.ltb 0 payout && PrimFloat.ltb payout minPayout
                        then payout else minPayout)) l (0%float, mn)) = mx ->
                mx = 0%float).
      { induction l as [|p l IHl]; intros mx mn Hl; simpl; [congruence|].
        apply Forall_cons in Hl. destruct Hl as [Hp Hl]. rewrite Hp. simpl.
        apply IHl, Hl. }
      pose proof (Hcontra _ maxPayout b64_MaxFloat64 Hall) as Hzero.
      rewrite Hfold in Hzero. specialize (Hzero eq_refl). subst maxPayout.
      pose proof (ltb_irrefl 0%float). congruence.
Qed.

End Suggested.

(** ** Suggested buckets against the validation *)

(** The integers [lo], [lo + 1], ... ([n] of them). *)
Definition zrange (lo : Z) (n : nat) : list Z := map (fun k => lo + Z.of_nat k) (seq 0 n).

Lemma In_zrange lo n z : lo <= z < lo + Z.of_nat n -> In z (zrange lo n).
Proof.
  intros Hz. unfold zrange. apply in_map_iff. exists (Z.to_nat (z - lo)).
  split; [lia|]. apply in_seq. lia.
Qed.

(** The normalized payout of [c] hundredths at cost 1. *)
Definition centsPayout (c : Z) : float :=
  (b64_of_int c / b64_of_int 100 / 1)%float.

Lemma centsPayout_step :
  forallb (fun z => PrimFloat.ltb (centsPayout z) (centsPayout (z + 1)))
          (zrange 0 (Z.to_nat 9999)) = true.
Proof. vm_compute. reflexivity. Qed.

Lemma centsPayout_increasing (a b : Z) :
  0 <= a -> a < b -> b <= 9999 ->
  PrimFloat.ltb (centsPayout a) (centsPayout b) = true.
Proof.
  intros Ha Hab Hb.
  assert (Hstep : forall z, 0 <= z < 9999 ->
            PrimFloat.ltb (centsPayout z) (centsPayout (z + 1)) = true).
  { intros z Hz. pose proof centsPayout_step as Hall.
    rewrite forallb_forall in Hall. apply Hall. apply In_zrange. lia. }
  assert (Hgo : forall n : nat, a + 1 + Z.of_nat n <= 9999 ->
            PrimFloat.ltb (centsPayout a) (centsPayout (a + 1 + Z.of_nat n)) = true).
  { induction n as [|n IH]; intros Hn.
    - replace (a + 1 + Z.of_nat 0) with (a + 1) by lia. apply Hstep. lia.
    - eapply ltb_trans; [apply IH; lia|].
      replace (a + 1 + Z.of_nat (S n)) with (a + 1 + Z.of_nat n + 1) by lia.
      apply Hstep. lia. }
  replace b with (a + 1 + Z.of_nat (Z.to_nat (b - a - 1))) by lia. apply Hgo. lia.
Qed.

Section SuggestedAgainstValidation.
Variable pow : float -> float -> float.
Local Hint Extern 0 (Float64Ops float) => exact (binary64 pow) : typeclass_instances.

Variable sortByMinPayout : list (BucketConfig float) -> list (BucketConfig float).
Hypothesis sort_permutation : forall l, sortByMinPayout l ≡ₚ l.
Hypothesis sort_sorted : forall l,
  Forall (fun b => ordered (MinPayout b)) l -> sortedByMinPayout (sortByMinPayout l).

(** What [SuggestBuckets] returns for a table of cost 1 whose largest
    payout is [c] hundredths. *)
Definition standardSuggestion (c : Z) : list (BucketConfig float) :=
  ensureMaxWinBucket (suggestStandardBuckets (centsPayout c)) (centsPayout c).

(** The suggestion is in increasing order and two of its neighbours leave
    a gap or overlap. *)
Definition gapOrOverlap (buckets : list (BucketConfig float)) : bool :=
  ascending buckets &&
  match checkNeighbours buckets with
  | Some (ErrGap _ _) | Some (ErrOverlap _ _) => true
  | _ => false
  end.

(** The largest payouts between 1.02 and 99.99 whose suggestion tiles. *)
Definition tilingPayouts : list Z := [200; 500; 501; 1000; 2500; 5000].

Lemma standardSuggestion_checked :
  forallb (fun c => gapOrOverlap (standardSuggestion c)
                    || existsb (Z.eqb c) tilingPayouts)
          (zrange 102 (Z.to_nat 9898)) = true.
Proof. vm_compute. reflexivity. Qed.

Lemma largest_payout_fold : forall (cents : list Z) (m : Z) (minPayout : float),
  0 <= m <= 9999 -> Forall (fun z => 0 <= z <= 9999) cents ->
  fst (fold_left (fun '(maxPayout, minPayout) payout =>
                    (if PrimFloat.ltb maxPayout payout then payout else maxPayout,
                     if PrimFloat.ltb 0 payout && PrimFloat.ltb payout minPayout
                     then payout else minPayout))
                 (map centsPayout cents) (centsPayout m, minPayout))
  = centsPayout (fold_left Z.max cents m).
Proof.
  induction cents as [|z cents IH]; intros m minPayout Hm Hall; [reflexivity|].
  apply Forall_cons in Hall. destruct Hall as [Hz Hall]. simpl.
  destruct (Z.lt_ge_cases m z) as [Hlt|Hge].
  - rewrite (centsPayout_increasing m z) by lia.
    rewrite IH; [|lia|exact Hall]. f_equal. f_equal. lia.
  - assert (Hno : PrimFloat.ltb (centsPayout m) (centsPayout z) = false).
    { destruct (Z.eq_dec z m) as [->|Hne]; [apply ltb_irrefl|].
      apply ltb_asym, centsPayout_increasing; lia. }
    rewrite Hno. rewrite IH; [|lia|exact Hall]. f_equal. f_equal. lia.
Qed.

Lemma fold_max_largest (c : Z) : forall (cents : list Z) (m : Z),
  m <= c -> Forall (fun z => z <= c) cents ->
  m = c \/ Exists (fun z => z = c) cents ->
  fold_left Z.max cents m = c.
Proof.
  induction cents as [|z cents IH]; intros m Hm Hall Hex; simpl.
  - destruct Hex as [->|Hex]; [reflexivity|inversion Hex].
  - apply Forall_cons in Hall. destruct Hall as [Hz Hall].
    apply IH; [lia|exact Hall|].
    destruct Hex as [->|Hex]; [left; lia|].
    apply Exists_cons in Hex. destruct Hex as [->|Hex]; [left; lia|right; exact Hex].
Qed.

(** X13: for every table of cost 1 whose largest payout lies between
    1.02 and 99.99 times the bet and is none of 2, 5, 5.01, 10, 25 and 50,
    the buckets [SuggestBuckets] returns are rejected by [ValidateBuckets]:
    the max-win bucket it appends leaves a gap to, or overlaps, the last
    bucket of the ladder. *)
Theorem suggested_buckets_fail_validation (table : LookupTable float) (targetRTP : float)
    (c : Z) :
  Cost table = 1%float ->
  Forall (fun o => 0 <= Payout o <= c) (Outcomes table) ->
  Exists (fun o => Payout o = c) (Outcomes table) ->
  102 <= c <= 9999 -> ~ In c tilingPayouts ->
  exists a b,
    ValidateBuckets sortByMinPayout (SuggestBuckets table targetRTP) = Some (ErrGap a b) \/
    ValidateBuckets sortByMinPayout (SuggestBuckets table targetRTP) = Some (ErrOverlap a b).
Proof.
  intros Hcost Hall Hex Hc Hnot.
  assert (Htable : tableCost table = 1%float).
  { unfold tableCost. rewrite Hcost. reflexivity. }
  assert (Hpays : normalizedPayouts table = map centsPayout (map Payout (Outcomes table))).
  { unfold normalizedPayouts. rewrite Htable, map_map. reflexivity. }
  assert (Hmax : fst (payoutBounds (normalizedPayouts table)) = centsPayout c).
  { unfold payoutBounds. rewrite Hpays.
    change (@fltb float (binary64 pow)) with PrimFloat.ltb.
    change (@fzero float (binary64 pow)) with (centsPayout 0).
    rewrite (largest_payout_fold (map Payout (Outcomes table)) 0);
      [|lia|apply Forall_fmap; eapply Forall_impl; [exact Hall|]; simpl; intros; lia].
    f_equal. apply fold_max_largest; [lia| |right].
    - apply Forall_fmap. eapply Forall_impl; [exact Hall|]. simpl. intros; lia.
    - apply Exists_fmap. exact Hex. }
  assert (Hsuggest : SuggestBuckets table targetRTP = standardSuggestion c).
  { unfold SuggestBuckets. destruct (payoutBounds (normalizedPayouts table))
      as [maxPayout minPayout]. simpl in Hmax. subst maxPayout.
    change (@fleb float (binary64 pow)) with PrimFloat.leb.
    change (@fzero float (binary64 pow)) with (centsPayout 0).
    rewrite (ltb_not_leb _ _ (centsPayout_increasing 0 c ltac:(lia) ltac:(lia) ltac:(lia))).
    rewrite Htable. reflexivity. }
  rewrite Hsuggest.
  pose proof standardSuggestion_checked as Hchecked.
  rewrite forallb_forall in Hchecked.
  specialize (Hchecked c (In_zrange 102 (Z.to_nat 9898) c ltac:(lia))).
  apply orb_true_iff in Hchecked. destruct Hchecked as [Hbad|Htiles].
  - unfold gapOrOverlap in Hbad. apply andb_true_iff in Hbad. destruct Hbad as [Hasc Hbad].
    unfold ValidateBuckets.
    rewrite (sort_ascending sortByMinPayout sort_permutation sort_sorted _ Hasc).
    destruct (standardSuggestion c) as [|x l] eqn:Hs; [discriminate|]. simpl length.
    change (S (length l) =? 0)%nat with false. cbv iota.
    destruct (checkNeighbours (x :: l)) as [[]|]; try discriminate; eauto.
  - exfalso. apply Hnot. apply existsb_exists in Htiles.
    destruct Htiles as (z & Hz & Heq). apply Z.eqb_eq in Heq. subst z. exact Hz.
Qed.

End SuggestedAgainstValidation.

(** ** The loss outcomes in the optimizer's result *)

Section LossRows.
Context {F : Type} `{Float64Ops F}.
Variable BaseWeight : Z.
Variable calculateRTPFromWeights : list Z -> list F -> F.

(** X14: fine-tuning keeps the length of the weights, leaves every
    weight outside the loss outcomes as it was and writes one weight, at
    least [min_weight], on all loss outcomes; it returns whenever the
    weights are as many as the payouts and the loss indices are in
    range. *)
Theorem fine_tuning_rewrites_only_loss_weights (cfg : BucketOptimizerConfig F)
    (weights : list Z) (pays : list F) (lossIndices voided : list nat) :
  (length weights = length pays ->
   Forall (fun i => (i < length weights)%nat) lossIndices ->
   is_Some (fineTuneLossWeightWithVoiding cfg weights pays lossIndices voided)) /\
  forall result,
    fineTuneLossWeightWithVoiding cfg weights pays lossIndices voided = Some result ->
    length result = length weights /\
    (forall i, i ∉ lossIndices -> result !! i = weights !! i) /\
    exists w, MinWeight cfg <= w /\ forall i, i ∈ lossIndices -> result !! i = Some w.
Proof.
  split; [apply fineTuneLossWeightWithVoiding_total|].
  intros result. unfold fineTuneLossWeightWithVoiding.
  destruct (fineTuneSums pays voided weights) as [sums|]; [|discriminate].
  intros Hrun. apply writeLossWeights_spec in Hrun. destruct Hrun as (Hl & _ & Hin & Hout).
  split; [exact Hl|]. split; [exact Hout|].
  eexists. split; [apply lossWeightPerOutcome_ge|exact Hin].
Qed.

(** X15: in every result of the optimizer, all loss outcomes (payout at
    most zero) carry one and the same weight, and it is at least 1: a loss
    outcome is never voided. *)
Theorem loss_outcomes_share_one_weight (config : option (BucketOptimizerConfig F))
    (table : LookupTable F) (res : BucketOptimizerResult F) :
  OptimizeTable BaseWeight calculateRTPFromWeights (NewBucketOptimizer config) table
  = Some (Ok res) ->
  exists w, 1 <= w /\
    forall i p, normalizedPayouts table !! i = Some p -> fleb p fzero = true ->
                NewWeights res !! i = Some w.
Proof.
  set (cfg := NewBucketOptimizer config). unfold OptimizeTable.
  destruct (length (Outcomes table) =? 0)%nat; [discriminate|].
  destruct (prepare cfg table) as [pr|] eqn:Hpr; [|discriminate].
  destruct (finalWeights _ _ cfg pr) as [ws|] eqn:Hws; [|discriminate].
  intros [= <-]. simpl.
  pose proof (prepare_spec _ _ _ Hpr) as (Hpays & Hloss & _).
  pose proof (NewBucketOptimizer_MinWeight config) as Hmin. fold cfg in Hmin.
  assert (Hrows : forall i p, normalizedPayouts table !! i = Some p ->
            fleb p fzero = true -> i ∈ prLossIndices pr).
  { intros i p Hp Hle. rewrite Hloss. apply elem_of_lossRows. eauto. }
  assert (Huniform : exists w, MinWeight cfg <= w /\
            forall i, i ∈ prLossIndices pr -> ws !! i = Some w).
  { unfold finalWeights in Hws.
    destruct (calculateWeightsWithVoiding _ _ _ _ _ _) as [ws0|] eqn:Hws0; [|discriminate].
    destruct (_ && _).
    - destruct (fine_tuning_rewrites_only_loss_weights cfg ws0 (prPayouts pr)
                  (prLossIndices pr) (prVoidedOutcomeIndices pr)) as [_ Hft].
      destruct (Hft ws Hws) as (_ & _ & Hw). exact Hw.
    - injection Hws as <-. apply calculateWeightsWithVoiding_spec in Hws0.
      destruct Hws0 as (ws1 & _ & _ & Hin & _).
      eexists. split; [apply lossWeightPerOutcome_ge|exact Hin]. }
  destruct Huniform as (w & Hw & Hall).
  exists w. split; [lia|]. intros i p Hp Hle. apply Hall. eapply Hrows; eauto.
Qed.

End LossRows.

(** ** The configuration of the optimizer (binary64) *)

Section Normalized.
Variable pow : float -> float -> float.
Local Hint Extern 0 (Float64Ops float) => exact (binary64 pow) : typeclass_instances.

(** X16: whatever configuration [NewBucketOptimizer] is given, nil
    included, the optimizer works with a minimum weight of at least 1 and
    a tolerance that is not at most 0; a configuration that comes out of
    [NewBucketOptimizer] passes through it unchanged. *)
Theorem NewBucketOptimizer_normalizes (config : option (BucketOptimizerConfig float)) :
  let cfg := NewBucketOptimizer config in
  1 <= MinWeight cfg /\
  PrimFloat.leb (RTPTolerance cfg) 0 = false /\
  NewBucketOptimizer (Some cfg) = cfg.
Proof.
  intros cfg.
  assert (Hmin : 1 <= MinWeight cfg) by apply NewBucketOptimizer_MinWeight.
  assert (Htol : PrimFloat.leb (RTPTolerance cfg) 0 = false).
  { unfold cfg, NewBucketOptimizer.
    set (c := match config with Some c => c | None => DefaultBucketConfig end).
    simpl.
    change (@fleb float (binary64 pow)) with PrimFloat.leb.
    change (@fzero float (binary64 pow)) with 0%float.
    change (b64_of_int 0) with 0%float.
    destruct (PrimFloat.leb (RTPTolerance c) 0) eqn:Ht; [reflexivity|exact Ht]. }
  split; [exact Hmin|]. split; [exact Htol|].
  unfold NewBucketOptimizer at 1. cbv zeta.
  change (@fleb float (binary64 pow)) with PrimFloat.leb.
  change (@fzero float (binary64 pow)) with 0%float.
  change (b64_of_int 0) with 0%float.
  rewrite Htol.
  assert (Hm : (MinWeight cfg <? 1) = false) by (apply Z.ltb_ge; lia).
  rewrite Hm. destruct cfg. reflexivity.
Qed.

End Normalized.

(** ** The report of the auto-voiding *)

Section AutoVoidReport.
Context {F : Type} `{Float64Ops F}.
Variable n : nat.

(** A group whose [rtpPerOutcome] is its payout over the number of
    outcomes. *)
Definition rated (g : payoutGroup F) : Prop :=
  rtpPerOutcome g = fdiv (payout g) (of_int (Z.of_nat n)).

(** One report per voided index, each with a reason the source writes
    and the RTP loss of its payout. *)
Definition reported (st : voidState F) : Prop :=
  length (voidedIndices st) = length (voidedOutcomes st) /\
  Forall (fun o => (Reason o = "duplicate" \/ Reason o = "high_payout") /\
                   RTPLoss o = fdiv (voPayout o) (of_int (Z.of_nat n)))
         (voidedOutcomes st).

Lemma voidOne_reported st idx sim reason g :
  reported st -> rated g -> reason = "duplicate" \/ reason = "high_payout" ->
  reported (voidOne st idx sim reason g).
Proof.
  intros [Hlen Hall] Hg Hreason. unfold reported, voidOne. simpl. split.
  - rewrite !length_app, Hlen. reflexivity.
  - apply Forall_app. split; [exact Hall|].
    apply Forall_singleton. simpl. split; [exact Hreason|exact Hg].
Qed.

Lemma voidDuplicates_reported g : forall members rtpToRemove st,
  reported st -> rated g -> reported (voidDuplicates g members rtpToRemove st).
Proof.
  induction members as [|[idx sim] members IH]; intros rtpToRemove st Hst Hg; simpl;
    [exact Hst|].
  destruct (fleb rtpToRemove (removedRTP st)); [exact Hst|].
  apply IH; [|exact Hg]. apply voidOne_reported; auto.
Qed.

Lemma payoutMap_get_elem : forall (m : list (payoutGroup F)) p g,
  payoutMap_get m p = Some g -> g ∈ m.
Proof.
  induction m as [|g0 m IH]; intros p g; simpl; [discriminate|].
  destruct (feqb (payout g0) p).
  - intros [= <-]. apply list_elem_of_here.
  - intros Hg. apply list_elem_of_further. eapply IH, Hg.
Qed.

Lemma voidPhase1_reported m : forall sortedPayouts rtpToRemove st st',
  Forall rated m -> reported st ->
  voidPhase1 m sortedPayouts rtpToRemove st = Some st' -> reported st'.
Proof.
  induction sortedPayouts as [|p rest IH]; intros rtpToRemove st st' Hm Hst; simpl.
  - intros [= <-]. exact Hst.
  - destruct (fleb rtpToRemove (removedRTP st)); [intros [= <-]; exact Hst|].
    destruct (payoutMap_get m p) as [g|] eqn:Hg; [|discriminate].
    assert (Hrated : rated g).
    { rewrite Forall_forall in Hm. eapply Hm, payoutMap_get_elem, Hg. }
    apply IH; [exact Hm|].
    destruct (1 <? length (indices g))%nat; [|exact Hst].
    apply voidDuplicates_reported; assumption.
Qed.

Lemma voidPhase2_reported m : forall sortedPayouts rtpToRemove st st',
  Forall rated m -> reported st ->
  voidPhase2 m sortedPayouts rtpToRemove st = Some st' -> reported st'.
Proof.
  induction sortedPayouts as [|p rest IH]; intros rtpToRemove st st' Hm Hst; simpl.
  - intros [= <-]. exact Hst.
  - destruct (fleb rtpToRemove (removedRTP st)); [intros [= <-]; exact Hst|].
    destruct (payoutMap_get m p) as [g|] eqn:Hg; [|discriminate].
    assert (Hrated : rated g).
    { rewrite Forall_forall in Hm. eapply Hm, payoutMap_get_elem, Hg. }
    apply IH; [exact Hm|].
    destruct (_ <? _)%nat; [|exact Hst].
    destruct (firstNotVoided _ _) as [[idx sim]|]; [|exact Hst].
    apply voidOne_reported; auto.
Qed.

End AutoVoidReport.

Section AutoVoidReported.
Context {F : Type} `{Float64Ops F}.

(** X17: auto-voiding reports one outcome per voided index; every voided
    index is a row with a payout above zero (a loss is never voided),
    every report gives "duplicate" or "high_payout" as its reason and, as
    its RTP loss, its payout divided by the number of outcomes. *)
Theorem auto_voiding_reports_what_it_voids (pays : list F) (sims : list Z)
    (targetRTP currentMinRTP : F) (voided : list nat)
    (reports : list (VoidedOutcomeInfo F)) :
  autoSelectOutcomesToVoid pays sims targetRTP currentMinRTP = Some (voided, reports) ->
  length voided = length reports /\
  Forall (fun i => exists p, pays !! i = Some p /\ fleb p fzero = false) voided /\
  Forall (fun o => (Reason o = "duplicate" \/ Reason o = "high_payout") /\
                   RTPLoss o = fdiv (voPayout o) (of_int (Z.of_nat (length pays))))
         reports.
Proof.
  intros Hrun.
  pose proof (autoSelectOutcomesToVoid_rows _ _ _ _ _ _ Hrun) as Hrows.
  assert (Hrep : reported (length pays)
            {| voidedIndices := voided; voidedOutcomes := reports; removedRTP := fzero |}).
  { unfold autoSelectOutcomesToVoid in Hrun.
    assert (Hnone : reported (length pays) (@noVoids F _)).
    { split; [reflexivity|constructor]. }
    destruct (fleb currentMinRTP targetRTP); [injection Hrun as <- <-; exact Hnone|].
    destruct (length pays =? 0)%nat; [injection Hrun as <- <-; exact Hnone|].
    unfold voidingPlan in Hrun.
    destruct (groupByPayout pays sims) as [m|]; [|discriminate].
    assert (Hm : Forall (rated (length pays)) (map (setRtpPerOutcome (length pays)) m)).
    { apply Forall_forall. intros g Hg. apply list_elem_of_In, in_map_iff in Hg.
      destruct Hg as (g0 & <- & _). reflexivity. }
    destruct (voidPhase1 _ _ _ _) as [st1|] eqn:H1; [|discriminate].
    destruct (voidPhase2 _ _ _ _) as [st2|] eqn:H2; [|discriminate].
    injection Hrun as <- <-.
    pose proof (voidPhase1_reported _ _ _ _ _ _ Hm Hnone H1) as Hst1.
    pose proof (voidPhase2_reported _ _ _ _ _ _ Hm Hst1 H2) as Hst2.
    exact Hst2. }
  destruct Hrep as [Hlen Hall]. simpl in *.
  split; [exact Hlen|]. split; [exact Hrows|exact Hall].
Qed.

End AutoVoidReported.

(** ** A request for an analysis, end to end (binary64) *)

Section AnalyzeRequest.
Variable pow : float -> float -> float.
Local Hint Extern 0 (Float64Ops float) => exact (binary64 pow) : typeclass_instances.

Lemma AnalyzeTable_returns (table : LookupTable float) (mode : string) (targetRTP : float) :
  Exists (fun p => PrimFloat.ltb 0 p = true) (normalizedPayouts table) ->
  exists a, AnalyzeTable table mode targetRTP = Ok a /\ maMode a = mode /\
            TotalOutcomes a = length (Outcomes table).
Proof.
  intros Hwin. unfold AnalyzeTable.
  assert (Hne : (length (Outcomes table) =? 0)%nat = false).
  { unfold normalizedPayouts in Hwin. destruct (Outcomes table); [inversion Hwin|reflexivity]. }
  rewrite Hne. destruct (collectStats_spec pow table) as [-> _].
  assert (Hsome : (length (winningPayouts table) =? 0)%nat = false).
  { unfold winningPayouts.
    induction (normalizedPayouts table) as [|p l IH]; [inversion Hwin|]. simpl.
    apply Exists_cons in Hwin. destruct Hwin as [Hp|Hl].
    - rewrite Hp. reflexivity.
    - destruct (PrimFloat.ltb 0 p); [reflexivity|apply IH, Hl]. }
  rewrite Hsome. eexists. split; [reflexivity|]. split; reflexivity.
Qed.

(** X18: a GET request for [/api/optimizer/<mode>/analyze] is dispatched
    to the analyze handler and answered with the analysis of that very
    mode whenever the mode name has no slash, is not empty and not one
    [extractMode] refuses, and the loader has a table for it with a
    winning outcome; any other method is answered 405, and a mode the
    loader fails on 404, with a message that names the mode and ends in
    the loader's error. *)
Theorem analyze_request_end_to_end (loader : string -> returned (LookupTable float))
    (method mode : string) (query : option float) :
  noSlash mode = true -> mode <> "" -> mode <> "analyze" -> ~ mode ∈ reservedModes ->
  let path := requestPath mode "analyze" in
  RegisterRoutes path = RouteAnalyzeMode /\
  (method <> "GET" ->
   HandleAnalyzeMode loader method (extractMode path "analyze") query
   = WriteError _ 405 "GET required") /\
  (method = "GET" ->
   forall e, loader mode = Err e ->
     HandleAnalyzeMode loader method (extractMode path "analyze") query
     = WriteError _ 404
         ("failed to analyze mode: " ++ ("failed to load mode " ++ mode ++ ": " ++ e))) /\
  (method = "GET" ->
   forall table, loader mode = Ok table ->
     Exists (fun p => PrimFloat.ltb 0 p = true) (normalizedPayouts table) ->
     exists a, HandleAnalyzeMode loader method (extractMode path "analyze") query
               = WriteSuccess _ a /\
               maMode a = mode /\ TotalOutcomes a = length (Outcomes table)).
Proof.
  intros Hno Hne Haction Hreserved path.
  assert (Hmode : extractMode path "analyze" = mode).
  { unfold path. rewrite (extractMode_round_trip mode "analyze" Hno).
    rewrite bool_decide_eq_false_2; [reflexivity|]. intros [?|?]; contradiction. }
  rewrite Hmode. split.
  - unfold path, requestPath.
    change (String.append "/api/optimizer/" (String.append mode (String.append "/" "analyze")))
      with (String.append (String.append "/api/optimizer/" mode) (String.append "/" "analyze")).
    destruct (RegisterRoutes_by_action RouteAnalyzeMode "analyze"
                (String.append "/api/optimizer/" mode) eq_refl) as [_ Hroute].
    apply Hroute. intros [Hr _]. discriminate.
  - assert (Hnonempty : String.eqb mode "" = false).
    { destruct (String.eqb_spec mode ""); [contradiction|reflexivity]. }
    unfold HandleAnalyzeMode. rewrite Hnonempty. split; [|split].
    + intros Hm. destruct (String.eqb_spec method "GET"); [contradiction|reflexivity].
    + intros -> e Hload. simpl. unfold AnalyzeMode. rewrite Hload. reflexivity.
    + intros -> table Hload Hwin. simpl. unfold AnalyzeMode. rewrite Hload.
      destruct (AnalyzeTable_returns table mode (analyzeModeTargetRTP query) Hwin)
        as (a & -> & Ha). exists a. split; [reflexivity|exact Ha].
Qed.

End AnalyzeRequest.

(** ** Without voiding *)

Section WithoutVoiding.
Context {F : Type} `{Float64Ops F}.
Variable BaseWeight : Z.
Variable calculateRTPFromWeights : list Z -> list F -> F.

(** X19: when neither auto-voiding nor the deprecated bucket voiding is
    enabled, the optimizer voids nothing: every outcome of the table gets
    a weight of at least 1 and the result lists no voided outcome and no
    voided bucket. *)
Theorem without_voiding_every_weight_is_positive (config : BucketOptimizerConfig F)
    (table : LookupTable F) (res : BucketOptimizerResult F) :
  EnableVoiding config = false -> EnableAutoVoiding config = false ->
  OptimizeTable BaseWeight calculateRTPFromWeights (NewBucketOptimizer (Some config)) table
  = Some (Ok res) ->
  length (NewWeights res) = length (Outcomes table) /\
  Forall (fun w => 1 <= w) (NewWeights res) /\
  VoidedOutcomes res = [] /\ VoidedBuckets res = [] /\ TotalVoided res = 0%nat.
Proof.
  intros Hlegacy Hauto. set (cfg := NewBucketOptimizer (Some config)). unfold OptimizeTable.
  destruct (length (Outcomes table) =? 0)%nat; [discriminate|].
  destruct (prepare cfg table) as [pr|] eqn:Hpr; [|discriminate].
  destruct (finalWeights _ _ cfg pr) as [ws|] eqn:Hws; [|discriminate].
  intros [= <-]. simpl.
  destruct (finalWeights_ok _ _ _ _ _ _ Hpr Hws) as [Hlen Hok].
  pose proof (prepare_spec _ _ _ Hpr) as (Hpays & _).
  pose proof (NewBucketOptimizer_MinWeight (Some config)) as Hmin. fold cfg in Hmin.
  assert (Hnone : prVoidedOutcomeIndices pr = [] /\ prAutoVoided pr = [] /\
                  prVoidedBuckets pr = []).
  { unfold prepare in Hpr.
    assert (Ha : autoVoid cfg (normalizedPayouts table) (map SimID (Outcomes table))
                 = Some ([], [])).
    { unfold autoVoid. change (EnableAutoVoiding cfg) with (EnableAutoVoiding config).
      rewrite Hauto. reflexivity. }
    rewrite Ha in Hpr.
    destruct (assignOutcomesToBuckets cfg (normalizedPayouts table)) as [[asg loss]|];
      [|discriminate].
    assert (Hvb : voidedBucketsOf cfg (length (normalizedPayouts table)) asg = []).
    { unfold voidedBucketsOf.
      assert (Hset : forall i, isVoidedBucket cfg i = false).
      { intros i. unfold isVoidedBucket, voidedBucketSet.
        change (EnableVoiding cfg) with (EnableVoiding config). rewrite Hlegacy. simpl.
        apply bool_decide_eq_false_2. apply not_elem_of_empty. }
      induction (enumerate asg) as [|ib l IH]; [reflexivity|]. simpl.
      rewrite Hset. exact IH. }
    rewrite Hvb in Hpr. injection Hpr as <-. simpl. auto. }
  destruct Hnone as (Hvoided & -> & ->).
  assert (Hn : length (prPayouts pr) = length (Outcomes table)).
  { rewrite Hpays. unfold normalizedPayouts. apply length_map. }
  split; [congruence|]. split; [|auto].
  apply Forall_lookup. intros i w Hw.
  assert (Hi : (i < length (prPayouts pr))%nat).
  { rewrite <- Hlen. eapply lookup_lt_Some, Hw. }
  destruct (Hok i Hi) as [_ Hfloor].
  destruct Hfloor as (w' & Hw' & Hge); [rewrite Hvoided; apply not_elem_of_nil|].
  assert (w' = w) by congruence. subst w'. lia.
Qed.

End WithoutVoiding.

(** ** The standard ladder of suggested buckets (binary64) *)

Section StandardLadder.
Variable pow : float -> float -> float.
Local Hint Extern 0 (Float64Ops float) => exact (binary64 pow) : typeclass_instances.

(** A payout that reaches a threshold reaches every lower one. *)
Lemma threshold_reached (low high : Z) (maxPayout : float) :
  PrimFloat.leb (b64_of_int low) (b64_of_int high) = true ->
  PrimFloat.leb (b64_of_int high) maxPayout = true ->
  PrimFloat.leb (b64_of_int low) maxPayout = true.
Proof. apply leb_trans. Qed.

Ltac reached high Hhigh :=
  rewrite ?(threshold_reached 2 high _ eq_refl Hhigh),
          ?(threshold_reached 5 high _ eq_refl Hhigh),
          ?(threshold_reached 10 high _ eq_refl Hhigh),
          ?(threshold_reached 25 high _ eq_refl Hhigh),
          ?(threshold_reached 50 high _ eq_refl Hhigh),
          ?(threshold_reached 100 high _ eq_refl Hhigh),
          ?(threshold_reached 250 high _ eq_refl Hhigh),
          ?(threshold_reached 500 high _ eq_refl Hhigh),
          ?(threshold_reached 1000 high _ eq_refl Hhigh).

(** Each bucket ends where the next begins. *)
Fixpoint chained (buckets : list (BucketConfig float)) : Prop :=
  match buckets with
  | a :: ((b :: _) as rest) => MaxPayout a = MinPayout b /\ chained rest
  | _ => True
  end.

(** X20: the ladder of [suggestStandardBuckets] never has a gap or an
    overlap of its own: whatever the maximum payout, it starts with the
    bucket from 0.01 to 1 and each of its buckets ends exactly where the
    next begins. *)
Theorem standard_ladder_is_chained (maxPayout : float) :
  exists rest, suggestStandardBuckets maxPayout
               = suggested "sub_1x" (flit 1 2) (of_int 1) ConstraintFrequency
                           (of_int 3) fzero fzero :: rest /\
  chained (suggestStandardBuckets maxPayout).
Proof.
  unfold suggestStandardBuckets.
  change (@fleb float (binary64 pow)) with PrimFloat.leb.
  change (@of_int float (binary64 pow)) with b64_of_int.
  destruct (PrimFloat.leb (b64_of_int 2500) maxPayout) eqn:H2500;
    [reached 2500 H2500; simpl; eexists; split; [reflexivity|repeat split]|].
  destruct (PrimFloat.leb (b64_of_int 1000) maxPayout) eqn:H1000;
    [reached 1000 H1000; simpl; eexists; split; [reflexivity|repeat split]|].
  destruct (PrimFloat.leb (b64_of_int 500) maxPayout) eqn:H500;
    [reached 500 H500; simpl; eexists; split; [reflexivity|repeat split]|].
  destruct (PrimFloat.leb (b64_of_int 250) maxPayout) eqn:H250;
    [reached 250 H250; simpl; eexists; split; [reflexivity|repeat split]|].
  destruct (PrimFloat.leb (b64_of_int 100) maxPayout) eqn:H100;
    [reached 100 H100; simpl; eexists; split; [reflexivity|repeat split]|].
  destruct (PrimFloat.leb (b64_of_int 50) maxPayout) eqn:H50;
    [reached 50 H50; simpl; eexists; split; [reflexivity|repeat split]|].
  destruct (PrimFloat.leb (b64_of_int 25) maxPayout) eqn:H25;
    [reached 25 H25; simpl; eexists; split; [reflexivity|repeat split]|].
  destruct (PrimFloat.leb (b64_of_int 10) maxPayout) eqn:H10;
    [reached 10 H10; simpl; eexists; split; [reflexivity|repeat split]|].
  destruct (PrimFloat.leb (b64_of_int 5) maxPayout) eqn:H5;
    [reached 5 H5; simpl; eexists; split; [reflexivity|repeat split]|].
  destruct (PrimFloat.leb (b64_of_int 2) maxPayout) eqn:H2;
    simpl; eexists; split; try reflexivity; repeat split.
Qed.

End StandardLadder.

(** ** Concrete runs *)

(** A sort that keeps the promise of [sort.Slice]: insertion by
    [MinPayout]. *)
Fixpoint insertByMinPayout (x : BucketConfig float) (sorted : list (BucketConfig float))
  : list (BucketConfig float) :=
  match sorted with
  | [] => [x]
  | y :: rest =>
      if PrimFloat.ltb (MinPayout x) (MinPayout y) then x :: sorted
      else y :: insertByMinPayout x rest
  end.

Definition insertionSortByMinPayout (l : list (BucketConfig float))
  : list (BucketConfig float) :=
  foldr insertByMinPayout [] l.

Lemma insertByMinPayout_permutation x : forall l, insertByMinPayout x l ≡ₚ x :: l.
Proof.
  induction l as [|y l IH]; simpl; [reflexivity|].
  destruct (PrimFloat.ltb (MinPayout x) (MinPayout y)); [reflexivity|].
  rewrite IH. apply Permutation_swap.
Qed.

Lemma insertionSort_permutation : forall l, insertionSortByMinPayout l ≡ₚ l.
Proof.
  induction l as [|x l IH]; simpl; [reflexivity|].
  rewrite insertByMinPayout_permutation, IH. reflexivity.
Qed.

(** No element is less than an earlier one. *)
Fixpoint sortedList (l : list (BucketConfig float)) : Prop :=
  match l with
  | [] => True
  | x :: rest =>
      Forall (fun b => PrimFloat.ltb (MinPayout b) (MinPayout x) = false) rest /\
      sortedList rest
  end.

Lemma insertByMinPayout_sorted x : forall l, sortedList l -> sortedList (insertByMinPayout x l).
Proof.
  induction l as [|y l IH]; intros Hl; simpl.
  - split; [constructor|exact I].
  - destruct Hl as [Hy Hl].
    destruct (PrimFloat.ltb (MinPayout x) (MinPayout y)) eqn:Hxy.
    + split; [|split; assumption].
      apply List.Forall_cons; [apply ltb_asym, Hxy|].
      eapply Forall_impl; [exact Hy|]. intros b Hb. simpl in Hb.
      destruct (PrimFloat.ltb (MinPayout b) (MinPayout x)) eqn:Hbx; [|reflexivity].
      pose proof (ltb_trans _ _ _ Hbx Hxy). congruence.
    + split; [|apply IH, Hl].
      rewrite (insertByMinPayout_permutation x l).
      apply List.Forall_cons; [exact Hxy|exact Hy].
Qed.

Lemma sortedList_lookup : forall l, sortedList l -> sortedByMinPayout l.
Proof.
  induction l as [|x l IH]; intros Hl i j a b Hij Ha Hb; [discriminate|].
  destruct Hl as [Hx Hl]. destruct j as [|j]; [lia|]. simpl in Hb.
  destruct i as [|i].
  - simpl in Ha. injection Ha as <-. rewrite Forall_forall in Hx.
    apply Hx. eapply list_elem_of_lookup_2, Hb.
  - simpl in Ha. apply (IH Hl i j a b); [lia|assumption..].
Qed.

Lemma insertionSort_sorted (l : list (BucketConfig float)) :
  Forall (fun b => ordered (MinPayout b)) l ->
  sortedByMinPayout (insertionSortByMinPayout l).
Proof.
  intros _. apply sortedList_lookup.
  induction l as [|x l IH]; simpl; [exact I|]. apply insertByMinPayout_sorted, IH.
Qed.

Definition baseTask : reloadTask :=
  {| rtMode := "base"; rtFile := "lookUpTable_base_0.csv";
     rtPath := "lookUpTable_base_0.csv" |}.

Lemma reloads_of_a_file_are_spaced_witness :
  let events := [(writeEvent, 0); (writeEvent, 1 * second); (writeEvent, 3 * second)] in
  snd (run (fun s => s) trackedWatcher events) = [(0, baseTask); (3 * second, baseTask)] /\
  debounce trackedWatcher <= 3 * second - 0.
Proof.
  intros events.
  assert (Hrun : snd (run (fun s => s) trackedWatcher events)
                 = [(0, baseTask); (3 * second, baseTask)]) by (vm_compute; reflexivity).
  split; [exact Hrun|].
  apply (reloads_of_a_file_are_spaced (fun s => s) trackedWatcher events)
    with (i := 0%nat) (j := 1%nat) (taski := baseTask) (taskj := baseTask).
  - vm_compute. discriminate.
  - apply map_Forall_empty.
  - apply List.Forall_cons; [vm_compute; split; [discriminate|reflexivity]|].
    apply List.Forall_cons; [vm_compute; split; [discriminate|reflexivity]|].
    apply List.Forall_cons; [vm_compute; split; [discriminate|reflexivity]|].
    apply List.Forall_nil.
  - lia.
  - rewrite Hrun. reflexivity.
  - rewrite Hrun. reflexivity.
  - reflexivity.
Defined.

Lemma waitForFileStable_needs_four_polls_witness :
  waitForFileStable [(0, Some 10); (200 * millisecond, Some 10); (400 * millisecond, Some 10)]
    (-1) 0 = None.
Proof.
  apply waitForFileStable_needs_four_polls.
  - apply List.Forall_cons; [vm_compute; discriminate|].
    apply List.Forall_cons; [vm_compute; discriminate|].
    apply List.Forall_cons; [vm_compute; discriminate|]. apply List.Forall_nil.
  - simpl. lia.
Defined.

Lemma waitForFileStable_never_on_empty_file_witness :
  waitForFileStable [(0, None); (200 * millisecond, Some 0); (400 * millisecond, Some 0);
                     (600 * millisecond, Some 0); (800 * millisecond, Some 0)] (-1) 0 = None.
Proof.
  apply waitForFileStable_never_on_empty_file.
  - apply List.Forall_cons; [vm_compute; discriminate|].
    apply List.Forall_cons; [vm_compute; discriminate|].
    apply List.Forall_cons; [vm_compute; discriminate|].
    apply List.Forall_cons; [vm_compute; discriminate|].
    apply List.Forall_cons; [vm_compute; discriminate|]. apply List.Forall_nil.
  - apply List.Forall_cons; [exact I|].
    apply List.Forall_cons; [vm_compute; discriminate|].
    apply List.Forall_cons; [vm_compute; discriminate|].
    apply List.Forall_cons; [vm_compute; discriminate|].
    apply List.Forall_cons; [vm_compute; discriminate|]. apply List.Forall_nil.
Defined.

Lemma waitForFileStable_ends_witness :
  waitForFileStable
    ([(0, Some 5)]
     ++ fourPolls 10 (200 * millisecond) (400 * millisecond) (600 * millisecond)
                  (800 * millisecond) ++ []) (-1) 0 = Some tt /\
  waitForFileStable ([(0, Some 5)] ++ (31 * second, None) :: []) (-1) 0 = Some tt.
Proof.
  apply (waitForFileStable_ends [(0, Some 5)] [] 10 (200 * millisecond) (400 * millisecond)
           (600 * millisecond) (800 * millisecond) (31 * second, None)).
  - lia.
  - vm_compute. reflexivity.
Defined.

Lemma extractMode_round_trip_witness :
  noSlash "base" = true /\
  extractMode (requestPath "base" "analyze") "analyze" = "base".
Proof.
  split; [reflexivity|].
  rewrite (extractMode_round_trip "base" "analyze" eq_refl).
  rewrite bool_decide_eq_false_2; [reflexivity|].
  intros [Heq|Hin]; [discriminate Heq|].
  apply list_elem_of_In in Hin. simpl in Hin. intuition discriminate.
Defined.

Lemma RegisterRoutes_by_action_witness :
  RegisterRoutes (String.append "/api/optimizer/base" (String.append "/" "analyze"))
  = RouteAnalyzeMode.
Proof.
  destruct (RegisterRoutes_by_action RouteAnalyzeMode "analyze" "/api/optimizer/base" eq_refl)
    as [_ Hroute].
  apply Hroute. intros [Hr _]. discriminate Hr.
Defined.

Definition defaultBuckets : list (BucketConfig float) :=
  Buckets (@DefaultBucketConfig float b64).

Lemma defaultBuckets_ordered : Forall boundsOrdered defaultBuckets.
Proof.
  unfold defaultBuckets, boundsOrdered, ordered.
  apply List.Forall_cons; [vm_compute; split; discriminate|].
  apply List.Forall_cons; [vm_compute; split; discriminate|].
  apply List.Forall_cons; [vm_compute; split; discriminate|].
  apply List.Forall_cons; [vm_compute; split; discriminate|].
  apply List.Forall_cons; [vm_compute; split; discriminate|].
  apply List.Forall_cons; [vm_compute; split; discriminate|].
  apply List.Forall_nil.
Qed.

Lemma validated_buckets_tile_witness :
  @ValidateBuckets float b64 insertionSortByMinPayout defaultBuckets = None /\
  forall i a b,
    insertionSortByMinPayout defaultBuckets !! i = Some a ->
    insertionSortByMinPayout defaultBuckets !! S i = Some b ->
    PrimFloat.eqb (MaxPayout a) (MinPayout b) = true.
Proof.
  assert (Hvalid : @ValidateBuckets float b64 insertionSortByMinPayout defaultBuckets = None)
    by (vm_compute; reflexivity).
  split; [exact Hvalid|].
  destruct (validated_buckets_tile pow_special insertionSortByMinPayout
              insertionSort_permutation defaultBuckets Hvalid defaultBuckets_ordered)
    as (_ & Htile & _).
  exact Htile.
Defined.

Lemma validated_buckets_cover_witness :
  exists asg lossIndices j c,
    @assignOutcomesToBuckets float b64 (@DefaultBucketConfig float b64) [0; 7.5]%float
    = Some (asg, lossIndices) /\
    defaultBuckets !! j = Some c /\ 1%nat ∈ indicesOf asg j /\
    inBucketRange (S j =? length defaultBuckets)%nat c 7.5%float = true.
Proof.
  assert (Hvalid : @ValidateBuckets float b64 insertionSortByMinPayout defaultBuckets = None)
    by (vm_compute; reflexivity).
  let first := eval vm_compute in (defaultBuckets !! 0%nat) in
  let final := eval vm_compute in (last defaultBuckets) in
  match first with
  | Some ?f =>
      match final with
      | Some ?l =>
          destruct (validated_buckets_cover pow_special insertionSortByMinPayout
                      insertionSort_permutation insertionSort_sorted
                      (@DefaultBucketConfig float b64) f l [0; 7.5]%float Hvalid)
            as (asg & lossIndices & Hrun & Hrows);
            [vm_compute; reflexivity|exact defaultBuckets_ordered|
             vm_compute; reflexivity|vm_compute; reflexivity|]
      end
  end.
  destruct (Hrows 1%nat 7.5%float) as (j & c & Hc & Hin & _ & Hrange);
    [reflexivity|reflexivity|vm_compute; reflexivity|vm_compute; reflexivity|].
  exists asg, lossIndices, j, c.
  split; [exact Hrun|]. split; [exact Hc|]. split; [exact Hin|exact Hrange].
Defined.

Lemma ensureMaxWinBucket_flags_a_bucket_witness :
  exists b, b ∈ @ensureMaxWinBucket float b64 (@suggestStandardBuckets float b64 3%float)
                  3%float /\
            IsMaxWinBucket b = true.
Proof.
  destruct (@ensureMaxWinBucket_flags_a_bucket float b64
              (@suggestStandardBuckets float b64 3%float) 3%float) as [_ Hflag].
  - discriminate.
  - reflexivity.
  - exact Hflag.
Defined.

Definition threeTimesTable : LookupTable float := tableOf 1 [0; 150; 300].

Lemma suggested_buckets_fail_validation_witness :
  exists a b,
    @ValidateBuckets float b64 insertionSortByMinPayout
      (@SuggestBuckets float b64 threeTimesTable (@flit float b64 97 2)) = Some (ErrGap a b) \/
    @ValidateBuckets float b64 insertionSortByMinPayout
      (@SuggestBuckets float b64 threeTimesTable (@flit float b64 97 2))
    = Some (ErrOverlap a b).
Proof.
  apply (suggested_buckets_fail_validation pow_special insertionSortByMinPayout
           insertionSort_permutation insertionSort_sorted threeTimesTable
           (@flit float b64 97 2) 300).
  - reflexivity.
  - apply List.Forall_cons; [simpl; lia|].
    apply List.Forall_cons; [simpl; lia|].
    apply List.Forall_cons; [simpl; lia|]. apply List.Forall_nil.
  - apply Exists_cons_tl, Exists_cons_tl, Exists_cons_hd. reflexivity.
  - lia.
  - simpl. intros Hin. intuition discriminate.
Defined.

Definition voidingRun : option (returned (BucketOptimizerResult float)) :=
  @OptimizeTable float b64 (2 ^ 40) (@rtpFromWeights float b64)
    (@NewBucketOptimizer float b64
       (Some (configOf (@flit float b64 5 1)
                [bucketOf "all" (@flit float b64 1 2) 10 ConstraintFrequency 2 0]%float
                true)))
    (tableOf 1 [500; 500; 100; 0]).

Lemma loss_outcomes_share_one_weight_witness :
  exists res w,
    voidingRun = Some (Ok res) /\ 1 <= w /\ NewWeights res !! 3%nat = Some w.
Proof.
  let r := eval vm_compute in voidingRun in
  match r with
  | Some (Ok ?res) =>
      assert (Hrun : voidingRun = Some (Ok res)) by (vm_compute; reflexivity);
      exists res
  end.
  destruct (loss_outcomes_share_one_weight (2 ^ 40) (@rtpFromWeights float b64) _ _ _ Hrun)
    as (w & Hw & Hall).
  exists w. split; [exact Hrun|]. split; [exact Hw|].
  apply (Hall 3%nat 0%float); reflexivity.
Defined.

Lemma auto_voiding_reports_what_it_voids_witness :
  exists voided reports,
    @autoSelectOutcomesToVoid float b64 [5; 5; 1; 0]%float [1; 2; 3; 4]
      (@flit float b64 5 1) (@calculateMinAchievableRTP float b64 [5; 5; 1; 0]%float)
    = Some (voided, reports) /\
    length voided = length reports.
Proof.
  let r := eval vm_compute in
    (@autoSelectOutcomesToVoid float b64 [5; 5; 1; 0]%float [1; 2; 3; 4]
       (@flit float b64 5 1) (@calculateMinAchievableRTP float b64 [5; 5; 1; 0]%float)) in
  match r with
  | Some (?vi, ?vo) =>
      assert (Hrun : @autoSelectOutcomesToVoid float b64 [5; 5; 1; 0]%float [1; 2; 3; 4]
                (@flit float b64 5 1)
                (@calculateMinAchievableRTP float b64 [5; 5; 1; 0]%float)
              = Some (vi, vo)) by (vm_compute; reflexivity);
      exists vi, vo
  end.
  split; [exact Hrun|].
  destruct (auto_voiding_reports_what_it_voids _ _ _ _ _ _ Hrun) as [Hlen _]. exact Hlen.
Defined.

Definition baseLoader (mode : string) : returned (LookupTable float) :=
  if String.eqb mode "base" then Ok (tableOf 1 [0; 200; 500])
  else Err "no such mode".

Lemma analyze_request_end_to_end_witness :
  RegisterRoutes (requestPath "base" "analyze") = RouteAnalyzeMode /\
  exists a,
    @HandleAnalyzeMode float b64 baseLoader "GET"
      (extractMode (requestPath "base" "analyze") "analyze") None = WriteSuccess _ a /\
    maMode a = "base".
Proof.
  destruct (analyze_request_end_to_end pow_special baseLoader "GET" "base" None)
    as (Hroute & _ & _ & Hok).
  - reflexivity.
  - discriminate.
  - discriminate.
  - intros Hin. apply list_elem_of_In in Hin. simpl in Hin. intuition discriminate.
  - split; [exact Hroute|].
    destruct (Hok eq_refl (tableOf 1 [0; 200; 500]) eq_refl) as (a & Ha & Hmode & _).
    + apply Exists_cons_tl, Exists_cons_hd. reflexivity.
    + exists a. split; [exact Ha|exact Hmode].
Defined.

Definition plainConfig : BucketOptimizerConfig float :=
  configOf (@flit float b64 5 1)
    [bucketOf "all" (@flit float b64 1 2) 10 ConstraintFrequency 2 0]%float false.

Definition plainRun : option (returned (BucketOptimizerResult float)) :=
  @OptimizeTable float b64 (2 ^ 40) (@rtpFromWeights float b64)
    (@NewBucketOptimizer float b64 (Some plainConfig)) (tableOf 1 [0; 200; 500]).

Lemma without_voiding_every_weight_is_positive_witness :
  exists res,
    plainRun = Some (Ok res) /\
    length (NewWeights res) = 3%nat /\ Forall (fun w => 1 <= w) (NewWeights res).
Proof.
  let r := eval vm_compute in plainRun in
  match r with
  | Some (Ok ?res) =>
      assert (Hrun : plainRun = Some (Ok res)) by (vm_compute; reflexivity);
      exists res
  end.
  destruct (@without_voiding_every_weight_is_positive float b64 (2 ^ 40)
              (@rtpFromWeights float b64) plainConfig (tableOf 1 [0; 200; 500]) _
              eq_refl eq_refl Hrun) as (Hlen & Hall & _).
  split; [exact Hrun|]. split; [exact Hlen|exact Hall].
Defined.
